(** * Acronym consistency analysis: a shallow embedding of [analyze_acronyms.py]

    The development follows the source file function by function:
    [read_latex_recursive], [extract_defined_acronyms], [scan_acronyms] and
    [extract_sentence_containing_text].  Python text is modelled as
    [list ascii]; the character classification functions below are the ASCII
    ones, so the model describes documents written in ASCII (code points
    above 127 are treated as caseless, non-blank symbols). *)

From Stdlib Require Import Ascii String ZArith Lia.
From stdpp Require Import gmap strings list.

Open Scope Z_scope.
Open Scope nat_scope.

Abbreviation str := (list ascii) (only parsing).

(** A string literal of the source. *)
Definition txt (s : string) : list ascii := list_ascii_of_string s.

(** ** Python [str] methods used by the program *)

Module Py.

Definition ord (c : ascii) : nat := nat_of_ascii c.

Definition isupper (c : ascii) : bool := (65 <=? ord c) && (ord c <=? 90).
Definition islower (c : ascii) : bool := (97 <=? ord c) && (ord c <=? 122).
Definition isdigit (c : ascii) : bool := (48 <=? ord c) && (ord c <=? 57).

(** [str.isspace] on one character: TAB..CR, FS..US and the blank. *)
Definition isspace (c : ascii) : bool :=
  ((9 <=? ord c) && (ord c <=? 13)) || ((28 <=? ord c) && (ord c <=? 32)).

(** The class [\w] of the [re] module. *)
Definition isword (c : ascii) : bool :=
  isupper c || islower c || isdigit c || (ord c =? 95).

Definition lower_c (c : ascii) : ascii :=
  if isupper c then ascii_of_nat (ord c + 32) else c.
Definition upper_c (c : ascii) : ascii :=
  if islower c then ascii_of_nat (ord c - 32) else c.

(** [s.lower()] *)
Definition lower (s : str) : str := map lower_c s.

(** [s.lstrip()], [s.rstrip()], [s.strip()] *)
Fixpoint lstrip (s : str) : str :=
  match s with
  | c :: s' => if isspace c then lstrip s' else s
  | [] => []
  end.
Definition rstrip (s : str) : str := rev (lstrip (rev s)).
Definition strip (s : str) : str := rstrip (lstrip s).

(** [s.split()]: the maximal runs of non-blank characters.  [cur] is the
    word being read, in reverse. *)
Fixpoint split_aux (cur : str) (s : str) : list str :=
  match s with
  | [] => match cur with [] => [] | _ => [rev cur] end
  | c :: s' =>
      if isspace c
      then match cur with
           | [] => split_aux [] s'
           | _ => rev cur :: split_aux [] s'
           end
      else split_aux (c :: cur) s'
  end.
Definition split (s : str) : list str := split_aux [] s.

(** [sep.join(ws)] *)
Fixpoint join (sep : str) (ws : list str) : str :=
  match ws with
  | [] => []
  | [w] => w
  | w :: ws' => w ++ sep ++ join sep ws'
  end.

(** [s.startswith(p)] *)
Fixpoint startswith (s p : str) : bool :=
  match p, s with
  | [], _ => true
  | a :: p', b :: s' => if decide (a = b) then startswith s' p' else false
  | _ :: _, [] => false
  end.

(** [s.endswith(p)] *)
Definition endswith (s p : str) : bool := startswith (rev s) (rev p).

(** [s.find(t)]: the lowest index at which [t] occurs, [None] for -1. *)
Fixpoint find_from (i : nat) (s t : str) : option nat :=
  if startswith s t then Some i
  else match s with
       | [] => None
       | _ :: s' => find_from (S i) s' t
       end.
Definition find (s t : str) : option nat := find_from 0 s t.

(** [t in s] *)
Definition contains (s t : str) : bool :=
  match find s t with Some _ => true | None => false end.

(** [len(s)], as a Python integer *)
Definition len (s : str) : Z := Z.of_nat (length s).

(** Slice bounds as Python normalises them: a negative index counts from
    the end, and both ends are clamped to the string. *)
Definition norm_index (n i : Z) : Z :=
  if (i <? 0)%Z then Z.max 0 (i + n) else Z.min i n.

(** [s[a:b]] *)
Definition slice (s : str) (a b : Z) : str :=
  let a' := norm_index (len s) a in
  let b' := norm_index (len s) b in
  take (Z.to_nat (b' - a')) (drop (Z.to_nat a') s).

(** [s[a:]] and [s[:b]] *)
Definition slice_from (s : str) (a : Z) : str := slice s a (len s).
Definition slice_to (s : str) (b : Z) : str := slice s 0 b.

(** [ws[-n:]] for a positive literal [n] *)
Definition last_n {A} (n : nat) (ws : list A) : list A :=
  drop (length ws - n) ws.

End Py.

(** ** The fragment of Python's [re] module used by the program

    The patterns of the source are written as values of [re]; matching is
    by backtracking, modelled as the list of successes in priority order
    (greedy repetition first, left alternative first).  The first element
    of that list is the match Python reports. *)

Module Re.

(** One-character items: a literal (as [re.escape] produces) or a class. *)
Inductive atom : Type :=
| ALit (c : ascii)
| ACls (p : ascii -> bool).

Inductive re : Type :=
| Eps
| Chr (a : atom)
| Seq (r1 r2 : re)
| Alt (r1 r2 : re)
| Rep (a : atom) (lo : nat) (hi : option nat)  (* a{lo,hi}, a*, a+, a? *)
| Grp (r : re)                                  (* ( r ) *)
| WordB                                         (* \b *)
| NotAhead (r : re)                             (* (?! r ) *)
| Eol.                                          (* $ *)

(** [ic] is the flag [re.IGNORECASE]. *)
Definition atom_match (ic : bool) (a : atom) (x : ascii) : bool :=
  match a with
  | ALit c =>
      if ic then bool_decide (Py.lower_c x = Py.lower_c c)
      else bool_decide (x = c)
  | ACls p =>
      if ic then p x || p (Py.lower_c x) || p (Py.upper_c x) else p x
  end.

(** Number of leading characters of [s] matching [a], at most [hi]. *)
Fixpoint run_length (ic : bool) (a : atom) (hi : option nat) (s : str) : nat :=
  match hi with
  | Some 0 => 0
  | _ =>
      match s with
      | x :: s' =>
          if atom_match ic a x
          then S (run_length ic a (pred <$> hi) s')
          else 0
      | [] => 0
      end
  end.

(** [n, n-1, ..., lo] (empty when [n < lo]): the repetition counts a
    greedy quantifier tries, in order. *)
Fixpoint counts_down (lo n : nat) : list nat :=
  if n <? lo then []
  else match n with
       | 0 => [0]
       | S n' => n :: counts_down lo n'
       end.

Definition is_word_at (s : str) (i : Z) : bool :=
  if (i <? 0)%Z then false
  else match s !! Z.to_nat i with
       | Some c => Py.isword c
       | None => false
       end.

Definition word_boundary (s : str) (i : nat) : bool :=
  negb (eqb (is_word_at s (Z.of_nat i - 1)) (is_word_at s (Z.of_nat i))).

Definition at_eol (s : str) (i : nat) : bool :=
  (i =? length s) ||
  ((S i =? length s) && bool_decide (s !! i = Some "010"%char)).

(** A match state: the position reached and the groups closed so far. *)
Abbreviation mstate := (nat * list str)%type.

Fixpoint run (ic : bool) (r : re) (s : str) (st : mstate) : list mstate :=
  let '(i, g) := st in
  match r with
  | Eps => [st]
  | Chr a =>
      match s !! i with
      | Some x => if atom_match ic a x then [(S i, g)] else []
      | None => []
      end
  | Seq r1 r2 => run ic r1 s st ≫= run ic r2 s
  | Alt r1 r2 => run ic r1 s st ++ run ic r2 s st
  | Rep a lo hi =>
      (fun k => (i + k, g)) <$> counts_down lo (run_length ic a hi (drop i s))
  | Grp r' =>
      (fun '(j, g') => (j, g' ++ [take (j - i) (drop i s)])) <$> run ic r' s st
  | WordB => if word_boundary s i then [st] else []
  | NotAhead r' =>
      match run ic r' s st with
      | [] => [st]
      | _ :: _ => []
      end
  | Eol => if at_eol s i then [st] else []
  end.

(** A match object: [start()], [end()], [groups()]. *)
Record match_obj : Type := MatchObj {
  m_start : nat;
  m_end : nat;
  m_groups : list str
}.

Definition match_at (ic : bool) (r : re) (s : str) (i : nat) : option match_obj :=
  match run ic r s (i, []) with
  | (j, g) :: _ => Some (MatchObj i j g)
  | [] => None
  end.

(** Leftmost match starting at [i], [i+1], ..., [i+n]. *)
Fixpoint search_from (ic : bool) (r : re) (s : str) (n i : nat) : option match_obj :=
  match match_at ic r s i with
  | Some m => Some m
  | None =>
      match n with
      | 0 => None
      | S n' => search_from ic r s n' (S i)
      end
  end.

(** [re.search(r, s)] *)
Definition search (ic : bool) (r : re) (s : str) : option match_obj :=
  search_from ic r s (length s) 0.

(** Successive non-overlapping matches from position [i]; [n] bounds the
    start positions left ([i + n] is at least [length s]), and every step
    moves at least one position forward. *)
Fixpoint finditer_from (ic : bool) (r : re) (s : str) (n i : nat) : list match_obj :=
  match match_at ic r s i with
  | Some m =>
      m :: match n with
           | 0 => []
           | S n' => finditer_from ic r s n' (Nat.max (m_end m) (S i))
           end
  | None =>
      match n with
      | 0 => []
      | S n' => finditer_from ic r s n' (S i)
      end
  end.

Definition finditer (ic : bool) (r : re) (s : str) : list match_obj :=
  finditer_from ic r s (length s) 0.

(** [re.findall(r, s)] for a pattern with exactly one group. *)
Definition findall1 (ic : bool) (r : re) (s : str) : list str :=
  (fun m => default [] (head (m_groups m))) <$> finditer ic r s.

(** The pattern [re.escape(w)]. *)
Fixpoint lit (w : str) : re :=
  match w with
  | [] => Eps
  | c :: w' => Seq (Chr (ALit c)) (lit w')
  end.

Definition found (o : option match_obj) : bool :=
  match o with Some _ => true | None => false end.

End Re.


Import Re.

(** [seqs [r1; ...; rn]] is the concatenation r1 ... rn. *)
Definition seqs (rs : list re) : re := foldr Seq Eps rs.

(** ** Python dictionaries, in insertion order *)

Section Dict.
Context {K V : Type} `{EqDecision K}.

(** [d.get(k)] *)
Fixpoint dict_get (d : list (K * V)) (k : K) : option V :=
  match d with
  | [] => None
  | (k', v) :: d' => if decide (k' = k) then Some v else dict_get d' k
  end.

(** [d[k] = v]: an existing key keeps its place, a new one goes last. *)
Fixpoint dict_set (k : K) (v : V) (d : list (K * V)) : list (K * V) :=
  match d with
  | [] => [(k, v)]
  | (k', v') :: d' =>
      if decide (k' = k) then (k', v) :: d' else (k', v') :: dict_set k v d'
  end.
End Dict.

(** [d[k].append(x)] on a [defaultdict(list)] *)
Definition dd_append {K X : Type} `{EqDecision K}
    (k : K) (x : X) (d : list (K * list X)) : list (K * list X) :=
  dict_set k (default [] (dict_get d k) ++ [x]) d.

(** The words taken by a [for ... else: break] loop: the longest prefix
    whose elements all pass the test. *)
Fixpoint take_while {A} (f : A -> bool) (l : list A) : list A :=
  match l with
  | x :: l' => if f x then x :: take_while f l' else []
  | [] => []
  end.

(** ** Outcomes of the file-reading code

    [Raise] is an exception that propagates to the caller ([open] failed);
    [OutOfFuel] is the only artefact of the model: the recursion depth
    allowed to [read_latex_recursive] was used up. *)

Inductive outcome (A : Type) : Type :=
| Ok (a : A)
| Raise
| OutOfFuel.
Arguments Ok {A} a.
Arguments Raise {A}.
Arguments OutOfFuel {A}.

#[global] Instance outcome_ret : MRet outcome := fun A a => Ok a.
#[global] Instance outcome_bind : MBind outcome := fun A B f m =>
  match m with
  | Ok a => f a
  | Raise => Raise
  | OutOfFuel => OutOfFuel
  end.
#[global] Instance outcome_fmap : FMap outcome := fun A B f m =>
  match m with
  | Ok a => Ok (f a)
  | Raise => Raise
  | OutOfFuel => OutOfFuel
  end.

(** A file of the document tree, as [open] sees it. *)
Inductive file : Type :=
| Readable (lines : list str)   (* what [f.readlines()] returns *)
| Unreadable.                   (* exists, but [open] raises *)

(** ** The program *)

Section Program.
Context {Path : Type} `{Countable Path}.

(** [Path(ROOT_DIR) / filename] *)
Variable root_join : str -> Path.

(** A record of the loader: [(path, i, line.strip())]. *)
Definition entry : Type := Path * nat * str.

(** *** read_latex_recursive *)

Definition not_rbrace (c : ascii) : bool := negb (bool_decide (c = "}"%char)).

(** [{([^}]+)}] *)
Definition brace_arg : re :=
  seqs [Chr (ALit "{"); Grp (Rep (ACls not_rbrace) 1 None); Chr (ALit "}")].

(** [\\(?:input|include)\{([^}]+)\}] *)
Definition include_pattern : re :=
  seqs [Chr (ALit "\"); Alt (lit (txt "input")) (lit (txt "include")); brace_arg].

Definition include_target (m : str) : str :=
  let included := Py.strip m in
  if negb (Py.endswith included (txt ".tex"))
  then included ++ txt ".tex"
  else included.

Section Loops.
(** The recursive call, with the visited set passed in and out. *)
Variable rec : str -> gset Path -> outcome (list entry * gset Path).

(** [for match in pattern.findall(line): ... entries += rec(included, seen)] *)
Fixpoint load_includes (ms : list str) (seen : gset Path)
    : outcome (list entry * gset Path) :=
  match ms with
  | [] => Ok ([], seen)
  | m :: ms' =>
      '(es1, seen1) ← rec (include_target m) seen;
      '(es2, seen2) ← load_includes ms' seen1;
      Ok (es1 ++ es2, seen2)
  end.

(** [for i, line in enumerate(lines, start=1): ...] *)
Fixpoint load_lines (path : Path) (i : nat) (lines : list str) (seen : gset Path)
    : outcome (list entry * gset Path) :=
  match lines with
  | [] => Ok ([], seen)
  | line :: lines' =>
      '(es1, seen1) ← load_includes (findall1 false include_pattern line) seen;
      '(es2, seen2) ← load_lines path (S i) lines' seen1;
      Ok ((path, i, Py.strip line) :: es1 ++ es2, seen2)
  end.
End Loops.

(** The body of [read_latex_recursive] once [seen] is a set.  The result
    carries the visited set as the call leaves it. *)
Fixpoint read_latex_from (fuel : nat) (fs : gmap Path file)
    (filename : str) (seen : gset Path) : outcome (list entry * gset Path) :=
  match fuel with
  | 0 => OutOfFuel
  | S fuel' =>
      let path := root_join filename in
      if bool_decide (path ∈ seen) || negb (bool_decide (is_Some (fs !! path)))
      then Ok ([], seen)
      else
        let seen := {[path]} ∪ seen in
        match fs !! path with
        | Some (Readable lines) =>
            load_lines (read_latex_from fuel' fs) path 1 lines seen
        | _ => Raise
        end
  end.

(** [read_latex_recursive(filename, seen=None)] *)
Definition read_latex_recursive (fuel : nat) (fs : gmap Path file)
    (filename : str) (seen : option (gset Path)) : outcome (list entry * gset Path) :=
  let seen := match seen with None => ∅ | Some s => s end in
  read_latex_from fuel fs filename seen.

(** *** extract_defined_acronyms *)

Record acronym_def : Type := AcronymDef {
  short : str;
  full : str;
  def_file : Path;
  def_line : nat
}.

(** [\\newacronym\{([^\}]+)\}\{([^\}]+)\}\{([^\}]+)\}] *)
Definition newacronym_pattern : re :=
  seqs [Chr (ALit "\"); lit (txt "newacronym"); brace_arg; brace_arg; brace_arg].

Definition extract_defined_acronyms (entries : list entry)
    : list (str * acronym_def) :=
  foldl (fun acronym_defs '(path, line_no, line) =>
           match search false newacronym_pattern line with
           | Some m =>
               match m_groups m with
               | [key; sh; fu] =>
                   dict_set key (AcronymDef (Py.strip sh) (Py.strip fu) path line_no)
                     acronym_defs
               | _ => acronym_defs
               end
           | None => acronym_defs
           end)
        [] entries.

End Program.

Arguments AcronymDef {Path}.
Arguments short {Path}.
Arguments full {Path}.
Arguments def_file {Path}.
Arguments def_line {Path}.

Section Scanner.
Context {Path : Type}.

Abbreviation entry := (@entry Path).

(** *** scan_acronyms *)

Definition document_marker : str := txt "\begin{document}".

(** The first loop: the records from the first one that contains the
    marker, the flag [document_started] passed along. *)
Fixpoint content_from (document_started : bool) (entries : list entry)
    : list entry :=
  match entries with
  | [] => []
  | (path, line_no, line) :: rest =>
      let document_started :=
        if negb document_started && Py.contains line document_marker
        then true else document_started in
      if document_started
      then (path, line_no, line) :: content_from document_started rest
      else content_from document_started rest
  end.

(** [rf"\b{re.escape(w)}s?\b"], compiled with [re.IGNORECASE] *)
Definition usage_pattern (w : str) : re :=
  seqs [WordB; lit w; Rep (ALit "s") 0 (Some 1); WordB].

Definition usage_tables : Type :=
  list (str * list entry) * list (str * list entry).

(** The body of the loop over [content_entries] for one definition. *)
Definition scan_usage_line (key : str) (full_pattern short_pattern : re)
    (acc : usage_tables) (e : entry) : usage_tables :=
  let '(used_full, used_short) := acc in
  let '(path, line_no, line) := e in
  let used_full :=
    if found (search true full_pattern line)
    then dd_append key (path, line_no, line) used_full else used_full in
  let used_short :=
    if found (search true short_pattern line)
    then dd_append key (path, line_no, line) used_short else used_short in
  (used_full, used_short).

(** [for key, data in acronym_defs.items(): ...] *)
Definition scan_usage (content_entries : list entry)
    (acronym_defs : list (str * @acronym_def Path)) : usage_tables :=
  foldl (fun acc '(key, data) =>
           foldl (scan_usage_line key (usage_pattern (full data))
                    (usage_pattern (short data)))
                 acc content_entries)
        ([], []) acronym_defs.

(** [\(([A-Z]{2,10})\)] *)
Definition paren_pattern : re :=
  seqs [Chr (ALit "("); Grp (Rep (ACls Py.isupper) 2 (Some 10)); Chr (ALit ")")].

Definition roman_numerals : list str :=
  map txt ["I"; "II"; "III"; "IV"; "V"; "VI"; "VII"; "VIII"; "IX"; "X";
           "XI"; "XII"; "XIII"; "XIV"; "XV"; "XVI"; "XVII"; "XVIII"; "XIX"; "XX"]%string.

Definition connector_words : list str :=
  map txt ["of"; "and"; "for"; "the"; "&"; "to"; "in"; "on"; "with"; "at";
           "by"; "from"; "de"]%string.

(** [word[0].isupper()]; the words of [split] are never empty. *)
Definition starts_upper (word : str) : bool :=
  match word with
  | c :: _ => Py.isupper c
  | [] => false
  end.

Definition keep_word (word : str) : bool :=
  starts_upper word || bool_decide (Py.lower word ∈ connector_words).

(** Lines 120-155: the long form that precedes "(acronym)" on [line],
    when the walk over the last five words yields an acceptable one. *)
Definition recover_full_form (acronym line : str) : option str :=
  let acronym_pattern := seqs [Chr (ALit "("); lit acronym; Chr (ALit ")")] in
  match search false acronym_pattern line with
  | None => None
  | Some match_obj =>
      let text_before := Py.strip (Py.slice_to line (Z.of_nat (m_start match_obj))) in
      let words := Py.split text_before in
      match words with
      | [] => None
      | _ :: _ =>
          let candidate_words := Py.last_n 5 words in
          let full_form_words := take_while keep_word (rev candidate_words) in
          match full_form_words with
          | [] => None
          | _ :: _ =>
              let full_form := Py.join (txt " ") (rev full_form_words) in
              let capital_words := filter (fun w => starts_upper w = true) full_form_words in
              if negb (bool_decide (capital_words = []))
                 && (length full_form_words <=? 6)
              then Some full_form
              else None
          end
      end
  end.

(** An occurrence recorded for a token: [(path, line_no, line.strip())]. *)
Definition undefined_tables : Type :=
  list (str * list entry) * list (str * gset str).

(** The body of [for match in pattern.findall(line)]. *)
Definition scan_undefined_match (defined_shorts : gset str) (e : entry)
    (acc : undefined_tables) (match_ : str) : undefined_tables :=
  let '(undefined_counts, undefined_full_forms) := acc in
  let '(path, line_no, line) := e in
  let acronym := Py.strip match_ in
  if bool_decide (acronym ∉ defined_shorts)
     && bool_decide (acronym ∉ roman_numerals)
  then
    let undefined_counts :=
      dd_append acronym (path, line_no, Py.strip line) undefined_counts in
    let undefined_full_forms :=
      match recover_full_form acronym line with
      | Some full_form =>
          dict_set acronym
            (default ∅ (dict_get undefined_full_forms acronym) ∪ {[full_form]})
            undefined_full_forms
      | None => undefined_full_forms
      end in
    (undefined_counts, undefined_full_forms)
  else acc.

Definition scan_undefined_line (defined_shorts : gset str)
    (acc : undefined_tables) (e : entry) : undefined_tables :=
  foldl (scan_undefined_match defined_shorts e) acc
        (findall1 false paren_pattern (e.2)).

Definition scan_undefined (content_entries : list entry)
    (defined_shorts : gset str) : undefined_tables :=
  foldl (scan_undefined_line defined_shorts) ([], []) content_entries.

(** [undefined]: the occurrences of the tokens seen twice or more. *)
Definition report_undefined (undefined_counts : list (str * list entry))
    : list (str * Path * nat * str) :=
  foldl (fun undefined '(acronym, occurrences) =>
           if 2 <=? length occurrences
           then undefined ++
                map (fun '(path, line_no, line) => (acronym, path, line_no, line))
                    occurrences
           else undefined)
        [] undefined_counts.

(** [rf'\b{re.escape(full_form)}\b(?!\s*\({re.escape(acronym)}\))'] *)
Definition standalone_pattern (full_form acronym : str) : re :=
  seqs [WordB; lit full_form; WordB;
        NotAhead (seqs [Rep (ACls Py.isspace) 0 None;
                        Chr (ALit "("); lit acronym; Chr (ALit ")")])].

Definition inconsistent_record : Type := Path * nat * str * str.

(** The loop over [undefined_full_forms.items()] and, inside it, the loop
    over the set of long forms of one token.  Python leaves the order in
    which a set is traversed open; for a set of strings it changes with the
    hash seed of the interpreter process, so it is not a function of the
    document.  It is a parameter here: [set_order acronym full_forms] is the
    order in which the run traverses the set filed under [acronym], each
    member once. *)
Definition scan_inconsistent_in (set_order : str -> gset str -> list str)
    (content_entries : list entry)
    (undefined_full_forms : list (str * gset str))
    : list (str * list inconsistent_record) :=
  foldl (fun inconsistent_usage '(acronym, full_forms) =>
           foldl (fun inconsistent_usage full_form =>
                    foldl (fun inconsistent_usage '(path, line_no, line) =>
                             if found (search true (standalone_pattern full_form acronym) line)
                             then dd_append acronym
                                    (path, line_no, Py.strip line, full_form)
                                    inconsistent_usage
                             else inconsistent_usage)
                          inconsistent_usage content_entries)
                 inconsistent_usage (set_order acronym full_forms))
        [] undefined_full_forms.

(** One traversal order among those a run can have: every set in the
    order of [elements]. *)
Definition canonical_order : str -> gset str -> list str := fun _ => elements.

(** The loop in a run that traverses every set in the canonical order. *)
Definition scan_inconsistent (content_entries : list entry)
    (undefined_full_forms : list (str * gset str))
    : list (str * list inconsistent_record) :=
  scan_inconsistent_in canonical_order content_entries undefined_full_forms.

Record report : Type := Report {
  used_full : list (str * list entry);
  used_short : list (str * list entry);
  undefined : list (str * Path * nat * str);
  undefined_full_forms : list (str * gset str);
  inconsistent_usage : list (str * list inconsistent_record)
}.

(** [scan_acronyms(entries, acronym_defs)] in a run that traverses sets
    in the order [set_order]. *)
Definition scan_acronyms_in (set_order : str -> gset str -> list str)
    (entries : list entry)
    (acronym_defs : list (str * @acronym_def Path)) : report :=
  let content_entries := content_from false entries in
  let '(used_full, used_short) := scan_usage content_entries acronym_defs in
  let defined_shorts : gset str := list_to_set (map (fun kv => short kv.2) acronym_defs) in
  let '(undefined_counts, undefined_full_forms) :=
    scan_undefined content_entries defined_shorts in
  let undefined := report_undefined undefined_counts in
  let inconsistent_usage :=
    scan_inconsistent_in set_order content_entries undefined_full_forms in
  Report used_full used_short undefined undefined_full_forms inconsistent_usage.

(** The scan in a run that traverses every set in the canonical order. *)
Definition scan_acronyms (entries : list entry)
    (acronym_defs : list (str * @acronym_def Path)) : report :=
  scan_acronyms_in canonical_order entries acronym_defs.

End Scanner.

Arguments Report {Path}.

(** *** extract_sentence_containing_text *)

Module Sentence.

Definition abbreviations : list str :=
  map txt ["e.g"; "i.e"; "etc"; "vs"; "cf"; "al"; "fig"; "eq"; "sec"; "ch";
           "vol"; "ed"; "pp"; "no"; "mr"; "mrs"; "dr"; "prof"; "inc"; "ltd";
           "corp"]%string.

Definition not_space (c : ascii) : bool := negb (Py.isspace c).

(** [\S+@\S+$] *)
Definition email_pattern : re :=
  seqs [Rep (ACls not_space) 1 None; Chr (ALit "@"); Rep (ACls not_space) 1 None; Eol].

(** [text[i]] for an index known to be in range *)
Definition char_at (text : str) (i : Z) : ascii :=
  nth (Z.to_nat i) text "000"%char.

Definition is_sentence_boundary (text : str) (pos : nat) : bool :=
  let p := Z.of_nat pos in
  if (Py.len text <=? p)%Z
     || negb (bool_decide (char_at text p ∈ txt ".!?"))
  then false
  else
    let before_context := Py.lower (Py.slice text (Z.max 0 (p - 10)) p) in
    let after_context :=
      if (p + 1 <? Py.len text)%Z then Py.slice text (p + 1) (p + 5) else [] in
    if existsb (Py.endswith before_context) abbreviations then false
    else if (0 <? p)%Z && (p <? Py.len text - 1)%Z
            && found (search false email_pattern before_context)
            && negb (Py.startswith after_context (txt " "))
    then false
    else if Py.contains before_context (txt "http")
            || Py.contains before_context (txt "www")
    then false
    else if (0 <? p)%Z && (p <? Py.len text - 1)%Z
            && Py.isdigit (char_at text (p - 1))
            && Py.isdigit (char_at text (p + 1))
    then false
    else if match after_context with
            | c :: _ => Py.islower c
            | [] => false
            end
    then false
    else true.

Definition break_chars : list str :=
  map txt [";"; ","; ":"; "--"; " and "; " but "; " while "; " although "]%string.

(** The inner loop: the first break token that starts at [i]. *)
Definition break_at (sentence : str) (i : Z) : option str :=
  List.find (fun break_char =>
               bool_decide (Py.slice sentence i (i + Py.len break_char) = break_char))
            break_chars.

(** [range(a, b)] and [range(a, b, -1)] *)
Definition range_up (a b : Z) : list Z :=
  map (fun k => (a + Z.of_nat k)%Z) (seq 0 (Z.to_nat (b - a))).
Definition range_down (a b : Z) : list Z :=
  map (fun k => (a - Z.of_nat k)%Z) (seq 0 (Z.to_nat (a - b))).

(** "Find best start point": [best_start] is updated at a break token and
    the loop is left once it differs from [context_before]. *)
Fixpoint best_start_loop (sentence : str) (context_before best_start : Z)
    (range : list Z) : Z :=
  match range with
  | [] => best_start
  | i :: range' =>
      let best_start :=
        match break_at sentence i with
        | Some break_char => (i + Py.len break_char)%Z
        | None => best_start
        end in
      if bool_decide (best_start ≠ context_before) then best_start
      else best_start_loop sentence context_before best_start range'
  end.

(** "Find best end point" *)
Fixpoint best_end_loop (sentence : str) (context_after best_end : Z)
    (range : list Z) : Z :=
  match range with
  | [] => best_end
  | i :: range' =>
      let best_end :=
        match break_at sentence i with
        | Some _ => i
        | None => best_end
        end in
      if bool_decide (best_end ≠ context_after) then best_end
      else best_end_loop sentence context_after best_end range'
  end.

(** Lines 254-288: the sentence after the attempt to narrow it. *)
Definition narrow (sentence target_text : str) (target_pos sentence_start : Z) : str :=
  if (400 <? Py.len sentence)%Z then
    let context_before := Z.max 0 (target_pos - sentence_start - 100) in
    let context_after := Z.min (Py.len sentence) (target_pos - sentence_start + 150) in
    let best_start :=
      best_start_loop sentence context_before context_before
        (range_down context_before 0) in
    let best_end :=
      best_end_loop sentence context_after context_after
        (range_up context_after (Py.len sentence)) in
    let focused_sentence := Py.strip (Py.slice sentence best_start best_end) in
    if Py.contains focused_sentence target_text && (30 <? Py.len focused_sentence)%Z
    then focused_sentence
    else sentence
  else sentence.

Definition extract_sentence_containing_text (text target_text : str) : str :=
  match Py.find text target_text with
  | None => Py.strip text
  | Some target_pos =>
      let sentence_start :=
        match List.find (is_sentence_boundary text) (rev (seq 0 target_pos)) with
        | Some i => S i
        | None => 0
        end in
      let sentence_end :=
        match List.find (is_sentence_boundary text)
                (seq target_pos (length text - target_pos)) with
        | Some i => S i
        | None => length text
        end in
      let sentence :=
        Py.strip (Py.slice text (Z.of_nat sentence_start) (Z.of_nat sentence_end)) in
      let sentence :=
        narrow sentence target_text (Z.of_nat target_pos) (Z.of_nat sentence_start) in
      if (Py.len sentence <? 20)%Z || negb (Py.contains sentence target_text)
      then
        let expanded_start := Z.max 0 (Z.of_nat target_pos - 150) in
        let expanded_end := Z.min (Py.len text) (Z.of_nat target_pos + 200) in
        Py.strip (Py.slice text expanded_start expanded_end)
      else sentence
  end.

End Sentence.

(** *** main, up to the call of the report renderer

    Lines 545-547 of [main]: the load, the extraction and the scan.  The
    call of [generate_pdf_report] that follows them draws the report with
    a PDF library and can fail on its own; it is not part of [main] here,
    so an outcome [Ok] says that the analysis was made, not that a report
    was written. *)

Section Main.
Context {Path : Type} `{Countable Path}.
Variable root_join : str -> Path.

Definition ENTRY_FILE : str := txt "main.tex".

(** The analysis of a run that traverses sets in the order [set_order]. *)
Definition main_in (set_order : str -> gset str -> list str)
    (fuel : nat) (fs : gmap Path file)
    : outcome (list (str * @acronym_def Path) * @report Path) :=
  '(entries, _) ← read_latex_recursive root_join fuel fs ENTRY_FILE None;
  let acronym_defs := extract_defined_acronyms entries in
  let report := scan_acronyms_in set_order entries acronym_defs in
  Ok (acronym_defs, report).

(** The analysis of a run that traverses every set in the canonical
    order. *)
Definition main (fuel : nat) (fs : gmap Path file)
    : outcome (list (str * @acronym_def Path) * @report Path) :=
  main_in canonical_order fuel fs.
End Main.

(** ** Vocabulary of the statements *)

(** [\({re.escape(acronym)}\)], the pattern that locates the token. *)
Definition acronym_pattern (acronym : str) : re :=
  seqs [Chr (ALit "("); lit acronym; Chr (ALit ")")].

(** The words the recoverer looks at: the last five before the token. *)
Definition candidate_words (line : str) (start : nat) : list str :=
  Py.last_n 5 (Py.split (Py.strip (Py.slice_to line (Z.of_nat start)))).

(** [kept] is what a right-to-left walk over [candidates] keeps: the
    longest run of acceptable words at the end of the list. *)
Definition walk_keeps (candidates kept : list str) : Prop :=
  exists skipped,
    candidates = skipped ++ kept
    /\ Forall (fun w => keep_word w = true) kept
    /\ match last skipped with
       | Some w => keep_word w = false
       | None => True
       end.

(** The records a file contributes by itself: its lines, numbered from
    [i], each stripped. *)
Fixpoint file_records {Path : Type} (path : Path) (i : nat) (lines : list str)
    : list (@entry Path) :=
  match lines with
  | [] => []
  | line :: lines' => (path, i, Py.strip line) :: file_records path (S i) lines'
  end.

(** The records of [es] that come from [path], in order. *)
Definition records_of {Path : Type} `{EqDecision Path} (path : Path)
    (es : list (@entry Path)) : list (@entry Path) :=
  filter (fun e => e.1.1 = path) es.

(** What a run of the loader that starts with the visited set [seen] and
    ends with [seen'] has produced: records of newly visited files only,
    and for each of them the whole file, once. *)
Definition loaded {Path : Type} `{Countable Path} (fs : gmap Path file)
    (seen : gset Path) (es : list (@entry Path)) (seen' : gset Path) : Prop :=
  seen ⊆ seen'
  /\ (forall e, e ∈ es -> e.1.1 ∈ seen' /\ e.1.1 ∉ seen)
  /\ (forall p, p ∈ seen' -> p ∉ seen ->
        exists lines, fs !! p = Some (Readable lines)
                      /\ records_of p es = file_records p 1 lines).

(** Filling a [defaultdict(list)] from a sequence of (key, item) pairs. *)
Definition group_into {K X : Type} `{EqDecision K}
    (d : list (K * list X)) (evs : list (K * X)) : list (K * list X) :=
  foldl (fun d ev => dd_append ev.1 ev.2 d) d evs.

(** The items filed under [k] by a sequence of pairs, in order. *)
Definition items_of {K X : Type} `{EqDecision K} (k : K) (evs : list (K * X)) : list X :=
  snd <$> filter (fun ev => ev.1 = k) evs.

(** The tokens the undefined-acronym scan reads on a line. *)
Definition line_tokens (line : str) : list str :=
  Py.strip <$> findall1 false paren_pattern line.

(** The occurrences of the parenthesised token [tok] in the body records:
    one record [(path, line_no, line.strip())] for each match. *)
Definition token_occurrences {Path : Type} (tok : str)
    (content_entries : list (@entry Path)) : list (@entry Path) :=
  content_entries ≫= fun e =>
    (fun _ => (e.1.1, e.1.2, Py.strip e.2)) <$> filter (fun a => a = tok) (line_tokens e.2).

(** The short forms of the definitions, [defined_shorts] of the source. *)
Definition defined_shorts_of {Path : Type}
    (acronym_defs : list (str * @acronym_def Path)) : gset str :=
  list_to_set (map (fun kv => short kv.2) acronym_defs).

(** The token of a record of the undefined-acronym list. *)
Definition token_of {Path : Type} (x : str * Path * nat * str) : str := x.1.1.1.

(** The test of line 112: neither a defined short form nor a Roman numeral. *)
Definition qualifies (defined_shorts : gset str) (acronym : str) : bool :=
  bool_decide (acronym ∉ defined_shorts) && bool_decide (acronym ∉ roman_numerals).

(** The accepted matches of the body, in document order, each with the
    record it was read on. *)
Definition undefined_events {Path : Type} (defined_shorts : gset str)
    (content_entries : list (@entry Path)) : list (str * @entry Path) :=
  content_entries ≫= fun e =>
    (fun a => (a, e)) <$> filter (fun a => qualifies defined_shorts a = true) (line_tokens e.2).

(** The occurrence recorded for a match on the record [e]. *)
Definition occurrence_of {Path : Type} (e : @entry Path) : @entry Path :=
  (e.1.1, e.1.2, Py.strip e.2).

(** What one accepted match does to [undefined_full_forms]. *)
Definition add_form {Path : Type} (forms : list (str * gset str))
    (ev : str * @entry Path) : list (str * gset str) :=
  match recover_full_form ev.1 ev.2.2 with
  | Some full_form =>
      dict_set ev.1 (default ∅ (dict_get forms ev.1) ∪ {[full_form]}) forms
  | None => forms
  end.

(** The record of the undefined-acronym list made from an occurrence. *)
Definition tagged {Path : Type} (acronym : str) (occ : @entry Path)
    : str * Path * nat * str :=
  let '(path, line_no, line) := occ in (acronym, path, line_no, line).

(** The test of line 174: the standalone pattern is found on the line. *)
Definition standalone_found (full_form acronym line : str) : bool :=
  found (search true (standalone_pattern full_form acronym) line).

(** The record of an inconsistent usage made from a body record. *)
Definition flagged {Path : Type} (full_form : str) (e : @entry Path)
    : @inconsistent_record Path :=
  (e.1.1, e.1.2, Py.strip e.2, full_form).

(** The records the detector makes for one token and one long form: one
    for each body record on which the standalone pattern is found. *)
Definition standalone_records {Path : Type} (content_entries : list (@entry Path))
    (acronym full_form : str) : list (@inconsistent_record Path) :=
  flagged full_form <$>
    filter (fun e => standalone_found full_form acronym e.2 = true) content_entries.

(** The records for one token, over its long forms in the order in which
    the run traverses them. *)
Definition inconsistent_block_in {Path : Type} (set_order : str -> gset str -> list str)
    (content_entries : list (@entry Path))
    (kv : str * gset str) : list (@inconsistent_record Path) :=
  set_order kv.1 kv.2 ≫= standalone_records content_entries kv.1.


(** A traversal order visits every member of the set once. *)
Definition traverses_once (set_order : str -> gset str -> list str) : Prop :=
  forall acronym full_forms, set_order acronym full_forms ≡ₚ elements full_forms.

(** [s] starts with [w], letter case apart. *)
Fixpoint ci_prefix (w s : str) : bool :=
  match w, s with
  | [], _ => true
  | a :: w', b :: s' => bool_decide (Py.lower_c b = Py.lower_c a) && ci_prefix w' s'
  | _ :: _, [] => false
  end.



(** The form [w], or [w] with an "s" after it, stands at index [i] of the
    line between word boundaries. *)
Definition usage_at (w line : str) (i : nat) : Prop :=
  word_boundary line i = true
  /\ ci_prefix w (drop i line) = true
  /\ (word_boundary line (i + length w) = true
      \/ (ci_prefix (txt "s") (drop (i + length w) line) = true
          /\ word_boundary line (i + length w + 1) = true)).

(** The test of lines 92 and 94: the usage pattern is found on the line. *)
Definition usage_found (w line : str) : bool :=
  found (search true (usage_pattern w) line).

(** One recursive call agrees with another wherever the first one ends. *)
Definition extends {Path : Type} `{Countable Path}
    (rec1 rec2 : str -> gset Path -> outcome (list (@entry Path) * gset Path)) : Prop :=
  forall f seen, rec1 f seen <> OutOfFuel -> rec2 f seen = rec1 f seen.

(** The number of files of the tree not visited yet. *)
Definition unread {Path : Type} `{Countable Path} (fs : gmap Path file)
    (seen : gset Path) : nat :=
  size (dom fs ∖ seen).

(** What is asked of a call: with enough fuel for the files still unread
    it ends, and when it returns, it has [loaded] its records. *)
Definition ends_well {Path : Type} `{Countable Path} (fs : gmap Path file)
    (fuel : nat) (seen : gset Path)
    (r : outcome (list (@entry Path) * gset Path)) : Prop :=
  unread fs seen < fuel ->
  match r with
  | Ok (es, seen') => loaded fs seen es seen'
  | Raise => True
  | OutOfFuel => False
  end.

(** The records of one file, with what its inclusions brought in. *)
Definition loaded_file {Path : Type} `{Countable Path} (fs : gmap Path file)
    (path : Path) (i : nat) (lines : list str)
    (seen : gset Path) (es : list (@entry Path)) (seen' : gset Path) : Prop :=
  seen ⊆ seen'
  /\ (forall e, e ∈ es -> e.1.1 = path \/ (e.1.1 ∈ seen' /\ e.1.1 ∉ seen))
  /\ records_of path es = file_records path i lines
  /\ (forall p, p ∈ seen' -> p ∉ seen ->
        exists lines', fs !! p = Some (Readable lines')
                       /\ records_of p es = file_records p 1 lines').

(** What one accepted match does to both tables of the undefined scan. *)
Definition undefined_step {Path : Type} (acc : @undefined_tables Path)
    (ev : str * @entry Path) : @undefined_tables Path :=
  (dd_append ev.1 (occurrence_of ev.2) acc.1, add_form acc.2 ev).

(** What one token contributes to the undefined-acronym list. *)
Definition undefined_block {Path : Type} (kv : str * list (@entry Path))
    : list (str * Path * nat * str) :=
  if 2 <=? length kv.2 then tagged kv.1 <$> kv.2 else [].

(** The records of inconsistent usage, keyed, in the order of the loops. *)
Definition inconsistent_events_in {Path : Type} (set_order : str -> gset str -> list str)
    (content_entries : list (@entry Path))
    (forms : list (str * gset str)) : list (str * @inconsistent_record Path) :=
  forms ≫= fun kv =>
    (fun x => (kv.1, x)) <$> inconsistent_block_in set_order content_entries kv.

Definition inconsistent_events {Path : Type} (content_entries : list (@entry Path))
    (forms : list (str * gset str)) : list (str * @inconsistent_record Path) :=
  inconsistent_events_in canonical_order content_entries forms.


(** The usage loops file, under each key, the body records on which the
    pattern of the definition is found. *)
Definition usage_events {Path : Type} (form : @acronym_def Path -> str)
    (content_entries : list (@entry Path))
    (acronym_defs : list (str * @acronym_def Path)) : list (str * @entry Path) :=
  acronym_defs ≫= fun kv =>
    (fun e => (kv.1, e)) <$>
      filter (fun e => usage_found (form kv.2) e.2 = true) content_entries.

(** The token that stands in parentheses at index [i] of the line, if
    any: "(", then a run of 2 to 10 upper-case letters, then ")". *)
Definition token_at (line : str) (i : nat) : option str :=
  match drop i line with
  | c :: rest =>
      let tok := take_while Py.isupper rest in
      if bool_decide (c = "("%char)
         && (2 <=? length tok) && (length tok <=? 10)
         && bool_decide (head (drop (length tok) rest) = Some ")"%char)
      then Some tok
      else None
  | [] => None
  end.

(** The same, as a property of the text. *)
Definition paren_token_at (line : str) (i : nat) (tok : str) : Prop :=
  2 <= length tok <= 10
  /\ Forall (fun c => Py.isupper c = true) tok
  /\ take (length tok + 2) (drop i line) = txt "(" ++ tok ++ txt ")".

(** ** Documents of the examples *)

(** A small document tree used in the examples: paths are file names under
    the project root. *)
Definition sample_root (filename : str) : str := txt "sample_project/" ++ filename.

Definition nl : str := ["010"%char].

(** Definitions before the marker, usage after none: a preamble. *)
Definition preamble_only : list (@entry str) :=
  [(sample_root (txt "main.tex"), 1, txt "\newacronym{vae}{VAE}{Variational Autoencoder}");
   (sample_root (txt "main.tex"), 2, txt "The VAE (VAE) and the (VAE)")].

(** The line of the recovery example. *)
Definition ait_line : str :=
  txt "...the Austrian Institute of Technology (AIT) developed...".

(** The same line with words where the dots are: "the" is a word of its
    own. *)
Definition ait_sentence : str :=
  txt "In 2019 the Austrian Institute of Technology (AIT) developed a tool.".

(** A document tree with cycles: [main.tex] includes itself and [a.tex];
    [a.tex] includes [main.tex], [b.tex] and a file that does not exist;
    [b.tex] includes itself and [a.tex]. *)
Definition cyclic_tree : gmap str file :=
  <[sample_root (txt "main.tex") :=
      Readable [txt "\input{main} first" ++ nl; txt "\include{a}" ++ nl; txt "last"]]>
  (<[sample_root (txt "a.tex") :=
      Readable [txt "\input{main.tex}\input{b}\input{missing} in a" ++ nl; txt "end of a"]]>
  (<[sample_root (txt "b.tex") :=
      Readable [txt "\input{b}\input{a} in b"]]> ∅)).

(** A tree whose entry file exists but cannot be opened. *)
Definition locked_tree : gmap str file :=
  <[sample_root (txt "main.tex") := Unreadable]> ∅.

(** The line of the sentence-boundary example. *)
Definition vae_line : str :=
  txt "Dr. Smith uses e.g. models. The VAE (VAE) is good.".

(** A line that starts with three hundred blanks. *)
Definition padded_line : str := replicate 300 " "%char ++ txt "x".

(** A body with one occurrence of the token AIT, and its long form used
    alone on another line. *)
Definition single_ait : list (@entry str) :=
  [(sample_root (txt "main.tex"), 1, document_marker);
   (sample_root (txt "main.tex"), 2, ait_line);
   (sample_root (txt "main.tex"), 3, txt "The Austrian Institute of Technology is in Vienna.")].

(** A body with two occurrences of AIT and one of the token NASA. *)
Definition double_ait : list (@entry str) :=
  [(sample_root (txt "main.tex"), 1, document_marker);
   (sample_root (txt "main.tex"), 2, ait_line);
   (sample_root (txt "main.tex"), 3, txt "Later the (AIT) and the agency (NASA) agreed.")].


(** A body where the long form of VAE is introduced on one line and used
    alone on the next. *)
Definition vae_body : list (@entry str) :=
  [(sample_root (txt "main.tex"), 1, document_marker);
   (sample_root (txt "main.tex"), 2, txt "Here we apply Variational Autoencoder (VAE) models.");
   (sample_root (txt "main.tex"), 3, txt "The Variational Autoencoder is trained.")].

(** One definition, and a body line that uses each form twice. *)
Definition vae_defs : list (str * @acronym_def str) :=
  [(txt "vae", AcronymDef (txt "VAE") (txt "Variational Autoencoder")
                 (sample_root (txt "main.tex")) 1)].
Definition vae_twice_line : str :=
  txt "A VAE is a Variational Autoencoder; VAEs are variational autoencoders.".
Definition vae_twice : list (@entry str) :=
  [(sample_root (txt "main.tex"), 1, document_marker);
   (sample_root (txt "main.tex"), 2, vae_twice_line)].

(** ** Vocabulary of the further properties *)

(** What [s.strip()] leaves has no blank at either end. *)
Definition trimmed (s : str) : Prop :=
  match s with c :: _ => Py.isspace c = false | [] => True end
  /\ match last s with Some c => Py.isspace c = false | None => True end.


(** ** Documents of the further examples *)

(** One file without any directive. *)
Definition plain_tree : gmap str file :=
  <[sample_root (txt "plain.tex") := Readable [txt "  one " ++ nl; txt "two"]]> ∅.

(** An argument in braces at the front of [s], as [{([^}]+)}] reads it:
    the argument and the text after the closing brace. *)
Definition braced (s : str) : option (str * str) :=
  match s with
  | c :: rest =>
      let a := take_while not_rbrace rest in
      if bool_decide (c = "{"%char) && (1 <=? length a)
         && bool_decide (head (drop (length a) rest) = Some "}"%char)
      then Some (a, drop (S (length a)) rest)
      else None
  | [] => None
  end.

(** The definition command that starts at index [i] of the line, if any:
    its three arguments. *)
Definition newacronym_at (s : str) (i : nat) : option (str * str * str) :=
  if Py.startswith (drop i s) (txt "\newacronym") then
    '(key, r1) ← braced (drop (i + 11) s);
    '(sh, r2) ← braced r1;
    '(fu, _) ← braced r2;
    Some (key, sh, fu)
  else None.

(** The text of a definition command. *)
Definition newacronym_command (key sh fu : str) : str :=
  txt "\newacronym{" ++ key ++ txt "}{" ++ sh ++ txt "}{" ++ fu ++ txt "}".

(** A text that can stand between braces: not empty, no closing brace. *)
Definition brace_free (a : str) : Prop := a <> [] /\ "}"%char ∉ a.

(** A line with text around a definition command. *)
Definition vae_definition_line : str :=
  txt "% see \newacronym{vae}{ VAE }{Variational Autoencoder} here".

(** The same key defined twice, and another key between. *)
Definition redefined_entries : list (@entry str) :=
  [(sample_root (txt "main.tex"), 1, txt "\newacronym{vae}{VAE}{Variational Autoencoder}");
   (sample_root (txt "main.tex"), 2, txt "\newacronym{ait}{AIT}{Austrian Institute of Technology}");
   (sample_root (txt "a.tex"), 7, txt "\newacronym{vae}{VAEs}{ Variational Auto-Encoder }");
   (sample_root (txt "a.tex"), 8, txt "no command here")].

(** [t] occurs in [s]. *)
Definition occurs_in (t s : str) : Prop := exists a b, s = a ++ t ++ b.

(** The table a loop over the dictionary [d] builds in a
    [defaultdict(list)] when it files the items [g kv] under the key of
    [kv]: one entry for each key that has an item, in the order of [d]. *)
Definition filed {K V X : Type} (g : K * V -> list X) (d : list (K * V))
    : list (K * list X) :=
  omap (fun kv => match g kv with [] => None | _ :: _ => Some (kv.1, g kv) end) d.

(** Two definitions, the second of a form the body does not use. *)
Definition two_defs : list (str * @acronym_def str) :=
  [(txt "vae", AcronymDef (txt "VAE") (txt "Variational Autoencoder")
                 (sample_root (txt "main.tex")) 1);
   (txt "gan", AcronymDef (txt "GAN") (txt "Generative Adversarial Network")
                 (sample_root (txt "main.tex")) 2)].

(** A body that puts a defined short form and a Roman numeral in
    parentheses, twice each. *)
Definition excluded_body : list (@entry str) :=
  [(sample_root (txt "main.tex"), 1, document_marker);
   (sample_root (txt "main.tex"), 2, txt "Part One (II) uses the Big Model (VAE).");
   (sample_root (txt "main.tex"), 3, txt "Part Two (II) uses the Big Model (VAE) again.")].

(** The token as it stands in the text: in parentheses. *)
Definition in_parens (tok : str) : str := txt "(" ++ tok ++ txt ")".

(** A word, as [split] yields them: not empty, no blank in it. *)
Definition is_word (w : str) : Prop :=
  w <> [] /\ Forall (fun c => Py.isspace c = false) w.

(** A line without sentence punctuation. *)
Definition plain_sentence : str :=
  txt "  the Variational Autoencoder (VAE) model, as used here  ".

(** ** generate_pdf_report: what the report shows

    The renderer draws with a PDF library; what is embedded here are the
    values it computes from the definitions and the scan before it draws
    them: the two counts of the summary, the list of unused definitions,
    and for both sections the groups and the excerpt made for each line
    (the sentence as [extract_sentence_containing_text] returns it,
    before it is escaped and coloured). *)

(** [k in d] *)
Definition dict_in {K V : Type} `{EqDecision K} (d : list (K * V)) (k : K) : bool :=
  match dict_get d k with Some _ => true | None => false end.

(** Line 343: [len(report['undefined'])] *)
Definition undefined_count {Path : Type} (r : @report Path) : nat :=
  length (undefined r).

(** Lines 346-347: [sum(len(usages) for k, usages in
    report["used_full"].items() if k in acronym_defs and len(usages) > 1)] *)
Definition glossary_full_form_count {Path : Type}
    (acronym_defs : list (str * @acronym_def Path)) (r : @report Path) : nat :=
  list_sum
    (map (fun kv : str * list (@entry Path) => length kv.2)
       (filter (fun kv : str * list (@entry Path) =>
                  dict_in acronym_defs kv.1 && (1 <? length kv.2) = true)
               (used_full r))).

(** Lines 375-377: [[k for k in acronym_defs if k not in
    report["used_full"] and k not in report["used_short"]]] *)
Definition defined_never_used {Path : Type}
    (acronym_defs : list (str * @acronym_def Path)) (r : @report Path) : list str :=
  map fst
    (filter (fun kv : str * @acronym_def Path =>
               negb (dict_in (used_full r) kv.1) && negb (dict_in (used_short r) kv.1)
               = true)
            acronym_defs).

(** Lines 390-392: the records of the undefined-acronym list, grouped
    again by token. *)
Definition undefined_grouped {Path : Type} (r : @report Path)
    : list (str * list (@entry Path)) :=
  foldl (fun undefined_grouped '(acronym, path, line_no, line) =>
           dd_append acronym (path, line_no, line) undefined_grouped)
        [] (undefined r).

(** Lines 394-400: Section 1, one group for each token and one excerpt
    for each of its occurrences, made for the target [f"({acronym})"]. *)
Definition section1_excerpts {Path : Type} (r : @report Path)
    : list (str * list (Path * str)) :=
  map (fun '(acronym, occurrences) =>
         (acronym,
          map (fun '(path, line_no, line) =>
                 (path, Sentence.extract_sentence_containing_text line
                          (txt "(" ++ acronym ++ txt ")")))
              occurrences))
      (undefined_grouped r).

(** Lines 509-529: Section 2, one group for each definition whose long
    form was used on more than one body line, and one excerpt for each
    such line, made for the long form as target. *)
Definition section2_excerpts {Path : Type}
    (acronym_defs : list (str * @acronym_def Path)) (r : @report Path)
    : list (str * list (Path * str)) :=
  acronym_defs ≫= fun '(key, data) =>
    let full_uses := default [] (dict_get (used_full r) key) in
    if negb (bool_decide (full_uses = [])) && (1 <? length full_uses)
    then [(key,
           map (fun '(f, l, t) =>
                  (f, Sentence.extract_sentence_containing_text t (full data)))
               full_uses)]
    else [].

(** The number of excerpt lines of a section. *)
Definition excerpt_lines {K X : Type} (groups : list (K * list X)) : nat :=
  list_sum (map (fun g => length g.2) groups).

(** A record of the undefined-acronym list as the regrouping loop reads
    it: the token, and the occurrence filed under it. *)
Definition untagged {Path : Type} (x : str * Path * nat * str) : str * @entry Path :=
  (x.1.1.1, (x.1.1.2, x.1.2, x.2)).

(** The occurrences of a token that reach the report: all of them when
    the token qualifies and occurs twice or more, none otherwise. *)
Definition reported_occurrences {Path : Type} (defined_shorts : gset str)
    (content_entries : list (@entry Path)) (tok : str) : list (@entry Path) :=
  let occs := token_occurrences tok content_entries in
  if qualifies defined_shorts tok && (2 <=? length occs) then occs else [].

(** A document of one file: a definition, the marker, and two body lines
    that use the long form. *)
Definition small_tree : gmap str file :=
  <[sample_root (txt "main.tex") :=
      Readable [txt "\newacronym{vae}{VAE}{Variational Autoencoder}" ++ nl;
                txt "\begin{document}" ++ nl;
                txt "  A Variational Autoencoder is trained." ++ nl;
                txt "Two variational autoencoders are compared." ++ nl]]> ∅.

Definition small_body : list (@entry str) :=
  [(sample_root (txt "main.tex"), 2, txt "\begin{document}");
   (sample_root (txt "main.tex"), 3, txt "A Variational Autoencoder is trained.");
   (sample_root (txt "main.tex"), 4, txt "Two variational autoencoders are compared.")].

Definition small_report : @report str :=
  Report [(txt "vae", drop 1 small_body)] [] [] [] [].

(** The text of an inclusion directive. *)
Definition include_directive (cmd name : str) : str :=
  "\"%char :: cmd ++ "{"%char :: name ++ ["}"%char].

(** A file that includes another one in the middle of a line; both hold
    other commands. *)
Definition including_tree : gmap str file :=
  <[sample_root (txt "main.tex") :=
      Readable [txt "\section{First}" ++ nl;
                txt "\emph{see} \include{ part } and \cite{x}" ++ nl;
                txt "last" ++ nl]]>
  (<[sample_root (txt "part.tex") :=
      Readable [txt " \subsection{One}" ++ nl; txt "two" ++ nl]]> ∅).

(** The line holds no inclusion directive: neither [\input{] nor
    [\include{] occurs in it. *)
Definition no_directive (line : str) : Prop :=
  Py.contains line (txt "\input{") = false
  /\ Py.contains line (txt "\include{") = false.

(** ** Two runs on one document tree *)

(** Another traversal order: every set backwards. *)
Definition reversed_order : str -> gset str -> list str :=
  fun _ full_forms => reverse (elements full_forms).

(** Two reports that differ at most in the order in which the records of
    inconsistent usage of a token follow each other across its long
    forms: the same tokens in the same order, under each token the same
    records, and for each long form the same records in the same order. *)
Definition same_up_to_set_order {Path : Type} (r1 r2 : @report Path) : Prop :=
  used_full r1 = used_full r2
  /\ used_short r1 = used_short r2
  /\ undefined r1 = undefined r2
  /\ undefined_full_forms r1 = undefined_full_forms r2
  /\ (inconsistent_usage r1).*1 = (inconsistent_usage r2).*1
  /\ (forall tok,
        default [] (dict_get (inconsistent_usage r1) tok)
        ≡ₚ default [] (dict_get (inconsistent_usage r2) tok))
  /\ (forall tok full_form,
        filter (fun x : @inconsistent_record Path => x.2 = full_form)
               (default [] (dict_get (inconsistent_usage r1) tok))
        = filter (fun x : @inconsistent_record Path => x.2 = full_form)
                 (default [] (dict_get (inconsistent_usage r2) tok))).

(** A document in which the token AIT is introduced with two long forms,
    each of which is also used alone. *)
Definition two_forms_tree : gmap str file :=
  <[sample_root (txt "main.tex") :=
      Readable [txt "\begin{document}" ++ nl;
                txt "We visit Austrian Institute of Technology (AIT) today." ++ nl;
                txt "Later the lab Applied Imaging Team (AIT) joined." ++ nl;
                txt "The Austrian Institute of Technology is large." ++ nl;
                txt "The Applied Imaging Team is small." ++ nl]]> ∅.

(** * Results *)

(** ** Dictionaries *)

Section DictFacts.
Context {K V : Type} `{EqDecision K}.
Implicit Types (d : list (K * V)) (k : K) (v : V).

Lemma dict_get_set d k v k' :
  dict_get (dict_set k v d) k' = if decide (k = k') then Some v else dict_get d k'.
Proof.
  induction d as [|[k0 v0] d IH]; simpl.
  - repeat case_decide; congruence.
  - repeat (case_decide; simpl); try congruence.
Qed.

Lemma dict_get_set_eq d k v : dict_get (dict_set k v d) k = Some v.
Proof. rewrite dict_get_set. by case_decide. Qed.

Lemma dict_get_set_ne d k v k' :
  k ≠ k' -> dict_get (dict_set k v d) k' = dict_get d k'.
Proof. intros. rewrite dict_get_set. by case_decide. Qed.

Lemma dict_get_Some_elem d k v : dict_get d k = Some v -> (k, v) ∈ d.
Proof.
  induction d as [|[k0 v0] d IH]; simpl; [done|].
  destruct (decide (k0 = k)) as [->|Hne]; intros Hg.
  - injection Hg as ->. left.
  - right. auto.
Qed.

Lemma dict_get_None d k : dict_get d k = None <-> k ∉ d.*1.
Proof.
  induction d as [|[k0 v0] d IH]; simpl.
  - split; [intros _; apply not_elem_of_nil | done].
  - rewrite not_elem_of_cons. destruct (decide (k0 = k)) as [->|Hne].
    + split; [done | intros [? _]; done].
    + rewrite IH. split; [by intros ? | by intros [_ ?]].
Qed.

Lemma dict_get_NoDup d k v : NoDup d.*1 -> (k, v) ∈ d -> dict_get d k = Some v.
Proof.
  induction d as [|[k0 v0] d IH]; simpl; [by intros _ ?%elem_of_nil|].
  rewrite NoDup_cons. intros [Hk Hd] [?|Hin]%elem_of_cons; simplify_eq.
  - by case_decide.
  - case_decide; simplify_eq; [|by auto].
    destruct Hk. apply list_elem_of_fmap. by exists (k, v).
Qed.

Lemma dict_set_keys d k v :
  (dict_set k v d).*1 = if decide (k ∈ d.*1) then d.*1 else d.*1 ++ [k].
Proof.
  induction d as [|[k0 v0] d IH].
  - destruct (decide (k ∈ ([] : list (K * V)).*1)) as [Hin|Hin]; [inversion Hin | done].
  - cbn [dict_set]. rewrite !fmap_cons. cbn [fst].
    destruct (decide (k0 = k)) as [->|Hne].
    + rewrite fmap_cons, decide_True; [done | left].
    + rewrite fmap_cons. cbn [fst]. rewrite IH. destruct (decide (k ∈ d.*1)) as [Hin|Hin].
      * rewrite decide_True; [done | by right].
      * rewrite decide_False; [done|].
        intros [?|?]%elem_of_cons; congruence.
Qed.

Lemma dict_set_NoDup d k v : NoDup d.*1 -> NoDup (dict_set k v d).*1.
Proof.
  intros Hd. rewrite dict_set_keys. case_decide; [done|].
  apply NoDup_app. split_and!; [done | | apply NoDup_singleton].
  intros x Hx ->%list_elem_of_singleton. done.
Qed.
End DictFacts.

(** ** Without the document-start marker nothing is scanned *)

Section NoMarker.
Context {Path : Type}.
Implicit Types (entries : list (@entry Path)).

Lemma content_from_no_marker entries :
  Forall (fun e => Py.contains e.2 document_marker = false) entries ->
  content_from false entries = [].
Proof.
  induction 1 as [|[[p n] l] entries Hl _ IH]; [done|].
  simpl in *. by rewrite Hl.
Qed.

Lemma scan_usage_nil (acronym_defs : list (str * @acronym_def Path)) :
  scan_usage [] acronym_defs = ([], []).
Proof.
  unfold scan_usage. generalize (@nil (str * list (@entry Path)), @nil (str * list (@entry Path))).
  induction acronym_defs as [|[key data] defs IH]; intros acc; [done|].
  simpl. apply IH.
Qed.

Lemma extract_defined_acronyms_snoc entries (e : @entry Path) :
  extract_defined_acronyms (entries ++ [e]) =
  match search false newacronym_pattern e.2 with
  | Some m =>
      match m_groups m with
      | [key; sh; fu] =>
          dict_set key (AcronymDef (Py.strip sh) (Py.strip fu) e.1.1 e.1.2)
            (extract_defined_acronyms entries)
      | _ => extract_defined_acronyms entries
      end
  | None => extract_defined_acronyms entries
  end.
Proof.
  unfold extract_defined_acronyms. rewrite foldl_app.
  destruct e as [[p n] l]. reflexivity.
Qed.

(** Every line that carries a definition command contributes its key,
    wherever the line stands. *)
Lemma extract_defined_acronyms_key entries (e : @entry Path) m key sh fu :
  e ∈ entries ->
  search false newacronym_pattern e.2 = Some m ->
  m_groups m = [key; sh; fu] ->
  is_Some (dict_get (extract_defined_acronyms entries) key).
Proof.
  induction entries as [|e' entries IH] using rev_ind; [by intros ?%elem_of_nil|].
  intros [Hin| ->%list_elem_of_singleton]%elem_of_app Hs Hg;
    rewrite extract_defined_acronyms_snoc.
  - specialize (IH Hin Hs Hg).
    destruct (search false newacronym_pattern e'.2) as [m'|]; [|done].
    destruct (m_groups m') as [|k1 [|s1 [|f1 [|]]]]; try done.
    rewrite dict_get_set. by case_decide.
  - rewrite Hs, Hg, dict_get_set_eq. by eexists.
Qed.

(** The extracted definitions form a dictionary: no key occurs twice. *)
Lemma extract_defined_acronyms_NoDup entries :
  NoDup (extract_defined_acronyms entries).*1.
Proof.
  induction entries as [|e entries IH] using rev_ind; [constructor|].
  rewrite extract_defined_acronyms_snoc.
  destruct (search false newacronym_pattern e.2) as [m|]; [|done].
  destruct (m_groups m) as [|k1 [|s1 [|f1 [|]]]]; try done.
  by apply dict_set_NoDup.
Qed.
End NoMarker.

(** C10: when no record contains the document-start marker, every
    scanning collection of the report is empty (both usage tables, the
    undefined-acronym list, the recovered long forms and the inconsistent
    usages), while every definition command of the record sequence still
    has its key in the extracted definitions. *)
Theorem scan_without_marker_is_empty {Path : Type}
    (entries : list (@entry Path)) (acronym_defs : list (str * @acronym_def Path)) :
  Forall (fun e => Py.contains e.2 document_marker = false) entries ->
  scan_acronyms entries acronym_defs = Report [] [] [] [] []
  /\ forall e m key sh fu,
       e ∈ entries ->
       search false newacronym_pattern e.2 = Some m ->
       m_groups m = [key; sh; fu] ->
       is_Some (dict_get (extract_defined_acronyms entries) key).
Proof.
  intros Hno. split.
  - unfold scan_acronyms, scan_acronyms_in. rewrite (content_from_no_marker _ Hno), scan_usage_nil.
    reflexivity.
  - intros e m key sh fu. apply extract_defined_acronyms_key.
Qed.

Lemma scan_without_marker_witness :
  Forall (fun e => Py.contains e.2 document_marker = false) preamble_only
  /\ scan_acronyms preamble_only (extract_defined_acronyms preamble_only)
     = Report [] [] [] [] []
  /\ is_Some (dict_get (extract_defined_acronyms preamble_only) (txt "vae")).
Proof.
  assert (Forall (fun e => Py.contains e.2 document_marker = false) preamble_only)
    as Hno by (repeat constructor).
  destruct (scan_without_marker_is_empty preamble_only
              (extract_defined_acronyms preamble_only) Hno) as [Hr Hd].
  split; [exact Hno|]. split; [exact Hr|].
  eapply Hd; [left | vm_compute; reflexivity | reflexivity].
Defined.

(** ** The expansion recoverer *)

Lemma take_while_app {A} (f : A -> bool) (l1 l2 : list A) :
  Forall (fun x => f x = true) l1 ->
  match l2 with x :: _ => f x = false | [] => True end ->
  take_while f (l1 ++ l2) = l1.
Proof.
  induction 1 as [|x l1 Hx _ IH]; intros Hl2; simpl.
  - destruct l2 as [|y l2]; simpl; [done | by rewrite Hl2].
  - rewrite Hx. f_equal. by apply IH.
Qed.

Lemma take_while_split {A} (f : A -> bool) (l : list A) :
  exists rest,
    l = take_while f l ++ rest
    /\ Forall (fun x => f x = true) (take_while f l)
    /\ match rest with x :: _ => f x = false | [] => True end.
Proof.
  induction l as [|x l (rest & Heq & Hall & Hrest)]; simpl.
  - by exists [].
  - destruct (f x) eqn:Hx.
    + exists rest. split_and!; [simpl; f_equal; exact Heq | by constructor | done].
    + exists (x :: l). by split_and!.
Qed.

Lemma take_while_length {A} (f : A -> bool) (l : list A) :
  length (take_while f l) <= length l.
Proof. induction l; simpl; [lia | case_match; simpl; lia]. Qed.

Lemma rev_reverse {A} (l : list A) : rev l = reverse l.
Proof. unfold reverse. apply rev_alt. Qed.

Lemma last_rev_head {A} (l : list A) : last l = head (rev l).
Proof.
  induction l as [|x l IH] using rev_ind; [done|].
  by rewrite last_snoc, rev_unit.
Qed.

Lemma walk_keeps_take_while candidates kept :
  walk_keeps candidates kept <-> take_while keep_word (rev candidates) = rev kept.
Proof.
  split.
  - intros (skipped & -> & Hall & Hlast).
    rewrite rev_app_distr. apply take_while_app.
    + by apply Forall_rev.
    + rewrite last_rev_head in Hlast. by destruct (rev skipped).
  - intros Hk.
    destruct (take_while_split keep_word (rev candidates)) as (rest & Heq & Hall & Hrest).
    rewrite Hk in Heq, Hall. exists (rev rest). split_and!.
    + rewrite <- (rev_involutive candidates), Heq, rev_app_distr.
      by rewrite rev_involutive.
    + apply Forall_rev in Hall. by rewrite rev_involutive in Hall.
    + rewrite last_rev_head, rev_involutive. by destruct rest.
Qed.

Lemma last_n_length {A} n (l : list A) : length (Py.last_n n l) <= n.
Proof. unfold Py.last_n. rewrite length_drop. lia. Qed.

Lemma filter_nil_not_Exists {A} (P : A -> Prop) `{!forall x, Decision (P x)} (l : list A) :
  filter P l = [] <-> ~ Exists P l.
Proof.
  rewrite Exists_exists. split.
  - intros Hf (x & Hin & Hx).
    assert (x ∈ filter P l) as Hx' by (by apply list_elem_of_filter).
    rewrite Hf in Hx'. by apply elem_of_nil in Hx'.
  - intros Hno. apply elem_of_nil_inv. intros x [? ?]%list_elem_of_filter.
    apply Hno. eauto.
Qed.

Lemma recover_full_form_eq acronym line :
  recover_full_form acronym line =
  match search false (acronym_pattern acronym) line with
  | None => None
  | Some m =>
      let ffw := take_while keep_word (rev (candidate_words line (m_start m))) in
      match ffw with
      | [] => None
      | _ :: _ =>
          if negb (bool_decide (filter (fun w => starts_upper w = true) ffw = []))
             && (length ffw <=? 6)
          then Some (Py.join (txt " ") (rev ffw))
          else None
      end
  end.
Proof.
  unfold recover_full_form, candidate_words, acronym_pattern.
  destruct (search false _ line) as [m|]; [|done].
  by destruct (Py.split _) as [|w0 ws].
Qed.

(** The recoverer, read off the code: it answers [full_form] exactly when
    the token is found, the right-to-left walk over the last five words
    before it keeps a non-empty run [kept] of words that are capitalised or
    connectors, stopping at the first word that is neither, at least one
    kept word is capitalised, and [full_form] is [kept] joined by blanks. *)
Lemma recover_full_form_spec acronym line full_form :
  recover_full_form acronym line = Some full_form <->
  exists m kept,
    search false (acronym_pattern acronym) line = Some m
    /\ walk_keeps (candidate_words line (m_start m)) kept
    /\ kept <> []
    /\ Exists (fun w => starts_upper w = true) kept
    /\ full_form = Py.join (txt " ") kept.
Proof.
  rewrite recover_full_form_eq.
  destruct (search false (acronym_pattern acronym) line) as [m|] eqn:Hs;
    [|split; [done | by intros (? & ? & ? & _)]].
  cbv zeta.
  assert (length (take_while keep_word (rev (candidate_words line (m_start m)))) <= 5)
    as Hffw.
  { etrans; [apply take_while_length|]. rewrite length_rev. apply last_n_length. }
  setoid_rewrite walk_keeps_take_while.
  destruct (take_while keep_word (rev (candidate_words line (m_start m))))
    as [|w ffw'] eqn:Hf.
  { split; [done|]. intros (m' & kept & [= <-] & Hw & Hne & _).
    destruct kept as [|k kept] using rev_ind; [done|].
    rewrite rev_unit in Hw. by rewrite Hf in Hw. }
  set (ffw := w :: ffw') in *.
  destruct (bool_decide (filter (fun w => starts_upper w = true) ffw = [])) eqn:Hcap.
  - apply bool_decide_eq_true in Hcap. rewrite filter_nil_not_Exists in Hcap.
    split; [done|]. intros (m' & kept & [= <-] & Hw & _ & Hc & _).
    rewrite Hf in Hw. destruct Hcap. rewrite Hw. by apply Exists_rev.
  - apply bool_decide_eq_false in Hcap. rewrite filter_nil_not_Exists in Hcap.
    apply dec_stable in Hcap.
    destruct (Nat.leb_spec (length ffw) 6) as [_|?]; [|lia]. simpl.
    split.
    + intros [= <-]. exists m, (rev ffw). rewrite rev_involutive.
      split_and!; [done | done | | by apply Exists_rev | done].
      subst ffw. simpl. by destruct (rev ffw').
    + intros (m' & kept & [= <-] & Hw & _ & _ & ->).
      rewrite Hf in Hw.
      assert (kept = rev ffw) as -> by (by rewrite Hw, rev_involutive). done.
Qed.

(** C1: on a line "... the Austrian Institute of Technology (AIT)
    developed ..." the recoverer does not yield "Austrian Institute of
    Technology": "the" is one of the connector words, so the walk keeps it
    and the long form is "the Austrian Institute of Technology"; a scan of
    a body holding that line records this long form for AIT.  The long
    form without the article comes out only where the word before it stops
    the walk, as on the text that starts with the three dots themselves,
    whose first word is "...the".  In general the recoverer looks at no
    more than the last five words before the token and keeps, from right
    to left, the words that are capitalised or connectors, up to the first
    word that is neither. *)
Theorem recover_takes_the_article_along :
  recover_full_form (txt "AIT") ait_sentence
  = Some (txt "the Austrian Institute of Technology")
  /\ (forall (Path : Type) (path : Path) (n0 n : nat),
        (fun kv : str * gset str => (kv.1, elements kv.2)) <$>
          undefined_full_forms
            (scan_acronyms [(path, n0, document_marker); (path, n, ait_sentence)] [])
        = [(txt "AIT", [txt "the Austrian Institute of Technology"])])
  /\ recover_full_form (txt "AIT") ait_line = Some (txt "Austrian Institute of Technology")
  /\ (forall line start, length (candidate_words line start) <= 5)
  /\ (forall acronym line full_form,
        recover_full_form acronym line = Some full_form <->
        exists m kept,
          search false (acronym_pattern acronym) line = Some m
          /\ walk_keeps (candidate_words line (m_start m)) kept
          /\ kept <> []
          /\ Exists (fun w => starts_upper w = true) kept
          /\ full_form = Py.join (txt " ") kept).
Proof.
  split_and!.
  - vm_compute. reflexivity.
  - intros Path path n0 n. vm_compute. reflexivity.
  - vm_compute. reflexivity.
  - intros line start. apply last_n_length.
  - apply recover_full_form_spec.
Qed.

(** ** The document loader *)

Section LoaderFacts.
Context {Path : Type} `{Countable Path}.
Variable root_join : str -> Path.
Variable fs : gmap Path file.

Implicit Types (seen : gset Path) (es : list (@entry Path)).

(** *** More fuel does not change an outcome *)


Lemma load_includes_extends rec1 rec2 ms seen :
  extends rec1 rec2 ->
  load_includes rec1 ms seen <> OutOfFuel ->
  load_includes rec2 ms seen = load_includes rec1 ms seen.
Proof.
  intros Hext. revert seen. induction ms as [|m ms IH]; intros seen; [done|].
  cbn [load_includes]. intros Hne.
  destruct (rec1 (include_target m) seen) as [[es1 seen1]| |] eqn:H1;
    [| |done]; rewrite Hext by (by rewrite H1); rewrite H1; [|done].
  cbn in *. rewrite IH; [done|].
  intros Hf. by rewrite Hf in Hne.
Qed.

Lemma load_lines_extends rec1 rec2 path i lines seen :
  extends rec1 rec2 ->
  load_lines rec1 path i lines seen <> OutOfFuel ->
  load_lines rec2 path i lines seen = load_lines rec1 path i lines seen.
Proof.
  intros Hext. revert i seen. induction lines as [|line lines IH]; intros i seen; [done|].
  cbn [load_lines]. intros Hne.
  destruct (load_includes rec1 _ seen) as [[es1 seen1]| |] eqn:H1; [| |done];
    rewrite (load_includes_extends rec1 rec2) by (done || by rewrite H1);
    rewrite H1; [|done].
  cbn in *. rewrite IH; [done|].
  intros Hf. by rewrite Hf in Hne.
Qed.

Lemma read_latex_from_S fuel :
  extends (read_latex_from root_join fuel fs) (read_latex_from root_join (S fuel) fs).
Proof.
  induction fuel as [|fuel IH]; intros f seen Hne; [done|].
  cbn [read_latex_from] in *.
  destruct (_ || _); [done|].
  destruct (fs !! root_join f) as [[lines|]|]; [|done..].
  by apply load_lines_extends.
Qed.

Lemma read_latex_from_mono fuel fuel' f seen :
  fuel <= fuel' ->
  read_latex_from root_join fuel fs f seen <> OutOfFuel ->
  read_latex_from root_join fuel' fs f seen = read_latex_from root_join fuel fs f seen.
Proof.
  induction 1 as [|fuel' _ IH]; [done|]. intros Hne.
  rewrite read_latex_from_S; [by apply IH | by rewrite IH].
Qed.

(** *** Every file is read at most once, and the traversal ends *)

Lemma records_of_app p es1 es2 :
  records_of p (es1 ++ es2) = records_of p es1 ++ records_of p es2.
Proof. apply filter_app. Qed.

Lemma records_of_cons p e es :
  records_of p (e :: es) =
  if decide (e.1.1 = p) then e :: records_of p es else records_of p es.
Proof. unfold records_of. by rewrite filter_cons. Qed.

Lemma records_of_none p es :
  (forall e, e ∈ es -> e.1.1 <> p) -> records_of p es = [].
Proof.
  intros Hno. apply elem_of_nil_inv. intros e [? ?]%list_elem_of_filter.
  by eapply Hno.
Qed.

Lemma loaded_refl seen : loaded fs seen [] seen.
Proof.
  split_and!; [done | by intros e ?%elem_of_nil | by intros p ? ?].
Qed.

Lemma loaded_app seen es1 seen1 es2 seen2 :
  loaded fs seen es1 seen1 -> loaded fs seen1 es2 seen2 ->
  loaded fs seen (es1 ++ es2) seen2.
Proof.
  intros (Hs1 & He1 & Hp1) (Hs2 & He2 & Hp2). split_and!.
  - by etrans.
  - intros e [Hin|Hin]%elem_of_app.
    + destruct (He1 e Hin) as [? ?]. split; [by apply Hs2 | done].
    + destruct (He2 e Hin) as [? Hn]. split; [done|].
      intros ?. by apply Hn, Hs1.
  - intros p Hin Hnot. rewrite records_of_app.
    destruct (decide (p ∈ seen1)) as [Hp|Hp].
    + destruct (Hp1 p Hp Hnot) as (lines & Hl & Hr). exists lines.
      split; [done|]. rewrite Hr, records_of_none, app_nil_r; [done|].
      intros e He Heq. destruct (He2 e He) as [_ Hn]. by rewrite Heq in Hn.
    + destruct (Hp2 p Hin Hp) as (lines & Hl & Hr). exists lines.
      split; [done|]. rewrite Hr, records_of_none; [done|].
      intros e He Heq. destruct (He1 e He) as [Hy _]. by rewrite Heq in Hy.
Qed.


Lemma unread_mono seen seen' : seen ⊆ seen' -> unread fs seen' <= unread fs seen.
Proof.
  intros Hs. unfold unread. apply subseteq_size.
  intros x [Hx Hn]%elem_of_difference. apply elem_of_difference.
  split; [done|]. intros Hin. by apply Hn, Hs.
Qed.

Lemma unread_visit seen p :
  p ∉ seen -> is_Some (fs !! p) -> unread fs ({[p]} ∪ seen) < unread fs seen.
Proof.
  intros Hp Hfs. unfold unread. apply subset_size. apply elem_of_dom in Hfs.
  split.
  - intros x [Hx Hn]%elem_of_difference. apply elem_of_difference.
    split; [done|]. intros Hin. apply Hn, elem_of_union. by right.
  - intros Hsub.
    assert (p ∈ dom fs ∖ seen) as Hin by (by apply elem_of_difference).
    apply Hsub, elem_of_difference in Hin as [_ Hn].
    apply Hn, elem_of_union. left. by apply elem_of_singleton.
Qed.


Lemma load_includes_ends_well fuel rec ms seen :
  (forall f seen, ends_well fs fuel seen (rec f seen)) ->
  ends_well fs fuel seen (load_includes rec ms seen).
Proof.
  intros Hrec. revert seen. induction ms as [|m ms IH]; intros seen Hfuel.
  { apply loaded_refl. }
  cbn [load_includes].
  specialize (Hrec (include_target m) seen Hfuel).
  destruct (rec (include_target m) seen) as [[es1 seen1]| |]; [|done..].
  cbn. assert (unread fs seen1 < fuel) as Hfuel1.
  { eapply Nat.le_lt_trans; [apply unread_mono, Hrec | done]. }
  specialize (IH seen1 Hfuel1).
  destruct (load_includes rec ms seen1) as [[es2 seen2]| |]; [|done..].
  cbn. by eapply loaded_app.
Qed.


Lemma load_lines_ends_well fuel rec path i lines seen :
  (forall f seen, ends_well fs fuel seen (rec f seen)) ->
  path ∈ seen ->
  unread fs seen < fuel ->
  match load_lines rec path i lines seen with
  | Ok (es, seen') => loaded_file fs path i lines seen es seen'
  | Raise => True
  | OutOfFuel => False
  end.
Proof.
  intros Hrec. revert i seen.
  induction lines as [|line lines IH]; intros i seen Hpath Hfuel.
  { cbn. split_and!; [done | by intros e ?%elem_of_nil | done | by intros p ? ?]. }
  cbn [load_lines].
  pose proof (load_includes_ends_well fuel rec
                (findall1 false include_pattern line) seen Hrec Hfuel) as Hinc.
  destruct (load_includes rec _ seen) as [[es1 seen1]| |]; [|done..].
  cbn. destruct Hinc as (Hs1 & He1 & Hp1).
  assert (unread fs seen1 < fuel) as Hfuel1.
  { eapply Nat.le_lt_trans; [by apply unread_mono | done]. }
  specialize (IH (S i) seen1 (Hs1 _ Hpath) Hfuel1).
  destruct (load_lines rec path (S i) lines seen1) as [[es2 seen2]| |]; [|done..].
  cbn. destruct IH as (Hs2 & He2 & Hown & Hp2).
  assert (records_of path es1 = []) as Hes1.
  { apply records_of_none. intros e He Heq. destruct (He1 e He) as [_ Hn].
    by rewrite Heq in Hn. }
  split_and!.
  - by etrans.
  - intros e [->|[Hin|Hin]%elem_of_app]%elem_of_cons; [by left | |].
    + right. destruct (He1 e Hin) as [? ?]. split; [by apply Hs2 | done].
    + destruct (He2 e Hin) as [?|[? Hn]]; [by left | right].
      split; [done|]. intros ?. by apply Hn, Hs1.
  - rewrite records_of_cons, decide_True by done.
    by rewrite records_of_app, Hes1, Hown.
  - intros p Hin Hnot.
    assert (p <> path) as Hne by (by intros ->).
    rewrite records_of_cons, decide_False by (by cbn; intros <-).
    rewrite records_of_app.
    destruct (decide (p ∈ seen1)) as [Hp|Hp].
    + destruct (Hp1 p Hp Hnot) as (lines' & Hl & Hr). exists lines'.
      split; [done|]. rewrite Hr, records_of_none, app_nil_r; [done|].
      intros e He Heq. destruct (He2 e He) as [?|[_ Hn]]; [congruence|].
      by rewrite Heq in Hn.
    + destruct (Hp2 p Hin Hp) as (lines' & Hl & Hr). exists lines'.
      split; [done|]. rewrite Hr, records_of_none; [done|].
      intros e He Heq. destruct (He1 e He) as [Hy _]. by rewrite Heq in Hy.
Qed.

Lemma read_latex_from_ends_well fuel f seen :
  ends_well fs fuel seen (read_latex_from root_join fuel fs f seen).
Proof.
  revert f seen. induction fuel as [|fuel IH]; intros f seen Hfuel; [lia|].
  cbn [read_latex_from].
  destruct (bool_decide (root_join f ∈ seen)) eqn:Hseen; cbn [orb].
  { apply loaded_refl. }
  apply bool_decide_eq_false in Hseen.
  destruct (bool_decide (is_Some (fs !! root_join f))) eqn:Hex; cbn [negb].
  2:{ apply loaded_refl. }
  apply bool_decide_eq_true in Hex.
  destruct (fs !! root_join f) as [[lines|]|] eqn:Hfs; [|done|by destruct Hex].
  pose proof (unread_visit seen (root_join f) Hseen) as Hlt.
  rewrite Hfs in Hlt. specialize (Hlt Hex).
  pose proof (load_lines_ends_well fuel (read_latex_from root_join fuel fs)
                (root_join f) 1 lines ({[root_join f]} ∪ seen) IH) as Hl.
  specialize (Hl ltac:(set_solver) ltac:(lia)).
  destruct (load_lines _ _ _ _ _) as [[es seen']| |]; [|done..].
  destruct Hl as (Hs & He & Hown & Hp). split_and!.
  - set_solver.
  - intros e Hin. destruct (He e Hin) as [->|[? ?]]; set_solver.
  - intros p Hin Hnot. destruct (decide (p = root_join f)) as [->|Hne].
    + by exists lines.
    + apply Hp; [done|].
      intros [Heq%elem_of_singleton|Hp']%elem_of_union; done.
Qed.

(** A file that exists ends up in the visited set. *)
Lemma read_latex_from_visits fuel f seen es seen' :
  read_latex_from root_join fuel fs f seen = Ok (es, seen') ->
  is_Some (fs !! root_join f) ->
  unread fs seen < fuel ->
  root_join f ∈ seen'.
Proof.
  intros Hr Hex Hfuel.
  pose proof (read_latex_from_ends_well fuel f seen Hfuel) as Hw.
  rewrite Hr in Hw. destruct Hw as (Hs & _).
  destruct fuel as [|fuel]; [done|]. cbn [read_latex_from] in Hr.
  destruct (bool_decide (root_join f ∈ seen)) eqn:Hseen; cbn [orb] in Hr.
  { apply bool_decide_eq_true in Hseen. injection Hr as <- <-. done. }
  rewrite bool_decide_eq_true_2 in Hr by done. cbn [negb] in Hr.
  apply bool_decide_eq_false in Hseen.
  pose proof (unread_visit seen (root_join f) Hseen Hex) as Hlt.
  destruct (fs !! root_join f) as [[lines|]|] eqn:Hfs; [|done..].
  pose proof (load_lines_ends_well fuel (read_latex_from root_join fuel fs)
                (root_join f) 1 lines ({[root_join f]} ∪ seen)
                (read_latex_from_ends_well fuel)) as Hl.
  specialize (Hl ltac:(set_solver) ltac:(lia)).
  rewrite Hr in Hl. destruct Hl as (Hs' & _). set_solver.
Qed.
End LoaderFacts.

(** C6: with a recursion budget above the number of files the loader ends
    on every document tree, cyclic or not; what it returns holds, for each
    path it visited, the records of that file exactly once and in order,
    and nothing for any other path; an entry file that exists is among the
    visited paths. *)
Theorem loader_cycle_safe {Path : Type} `{Countable Path}
    (root_join : str -> Path) (fs : gmap Path file) (filename : str) (fuel : nat) :
  size fs < fuel ->
  read_latex_recursive root_join fuel fs filename None <> OutOfFuel
  /\ forall es seen',
       read_latex_recursive root_join fuel fs filename None = Ok (es, seen') ->
       (is_Some (fs !! root_join filename) -> root_join filename ∈ seen')
       /\ forall p,
            (p ∈ seen' ->
               exists lines, fs !! p = Some (Readable lines)
                             /\ records_of p es = file_records p 1 lines)
            /\ (p ∉ seen' -> records_of p es = []).
Proof.
  intros Hfuel. unfold read_latex_recursive.
  assert (unread fs ∅ < fuel) as Hun.
  { unfold unread. rewrite difference_empty_L, size_dom. done. }
  pose proof (read_latex_from_ends_well root_join fs fuel filename ∅ Hun) as Hw.
  split.
  - intros Hr. by rewrite Hr in Hw.
  - intros es seen' Hr. rewrite Hr in Hw. destruct Hw as (_ & He & Hp).
    split.
    + intros Hex. by eapply read_latex_from_visits.
    + intros p. split.
      * intros Hin. apply Hp; [done | apply not_elem_of_empty].
      * intros Hnot. apply records_of_none. intros e Hin Heq.
        destruct (He e Hin) as [Hy _]. by rewrite Heq in Hy.
Qed.

Lemma loader_cycle_safe_witness :
  size cyclic_tree < 4
  /\ read_latex_recursive sample_root 4 cyclic_tree (txt "main.tex") None <> OutOfFuel
  /\ fst <$> read_latex_recursive sample_root 4 cyclic_tree (txt "main.tex") None
     = Ok [(sample_root (txt "main.tex"), 1, txt "\input{main} first");
           (sample_root (txt "main.tex"), 2, txt "\include{a}");
           (sample_root (txt "a.tex"), 1, txt "\input{main.tex}\input{b}\input{missing} in a");
           (sample_root (txt "b.tex"), 1, txt "\input{b}\input{a} in b");
           (sample_root (txt "a.tex"), 2, txt "end of a");
           (sample_root (txt "main.tex"), 3, txt "last")].
Proof.
  assert (size cyclic_tree < 4) as Hsize by (vm_compute; lia).
  split; [exact Hsize|]. split.
  - exact (proj1 (loader_cycle_safe sample_root cyclic_tree (txt "main.tex") 4 Hsize)).
  - vm_compute. reflexivity.
Defined.

(** ** Missing and unreadable files *)

Section MissingFiles.
Context {Path : Type} `{Countable Path}.
Variable root_join : str -> Path.
Variable fs : gmap Path file.

Lemma read_latex_from_missing fuel filename (seen : gset Path) :
  fs !! root_join filename = None ->
  read_latex_from root_join (S fuel) fs filename seen = Ok ([], seen).
Proof.
  intros Hfs. cbn [read_latex_from]. rewrite Hfs.
  rewrite (bool_decide_eq_false_2 (is_Some None)) by (by intros [? ?]).
  cbn [negb]. by rewrite orb_true_r.
Qed.

Lemma load_includes_missing fuel m ms (seen : gset Path) :
  fs !! root_join (include_target m) = None ->
  load_includes (read_latex_from root_join (S fuel) fs) (m :: ms) seen
  = load_includes (read_latex_from root_join (S fuel) fs) ms seen.
Proof.
  intros Hfs. cbn [load_includes]. rewrite read_latex_from_missing by done.
  cbn. by destruct (load_includes _ ms seen) as [[es2 seen2]| |].
Qed.

Lemma main_missing_entry fuel :
  fs !! root_join ENTRY_FILE = None ->
  main root_join (S fuel) fs = Ok ([], Report [] [] [] [] []).
Proof.
  intros Hfs. unfold main, main_in, read_latex_recursive.
  by rewrite read_latex_from_missing.
Qed.

Lemma main_unreadable_entry fuel :
  fs !! root_join ENTRY_FILE = Some Unreadable ->
  main root_join (S fuel) fs = Raise.
Proof.
  intros Hfs. unfold main, main_in, read_latex_recursive. cbn [read_latex_from].
  rewrite Hfs, bool_decide_eq_false_2 by apply not_elem_of_empty.
  by rewrite bool_decide_eq_true_2 by done.
Qed.
End MissingFiles.

(** C7, as the code has it: a missing file is skipped without an error
    wherever it is named: the call for it returns no records and leaves
    the visited set as it was, so an inclusion of a missing file changes
    nothing in the load of the including file, and a missing entry file
    gives an empty analysis, not a failure.  The caller sees a failure
    when the entry file exists but cannot be opened. *)
Theorem missing_file_is_skipped {Path : Type} `{Countable Path}
    (root_join : str -> Path) (fs : gmap Path file) (fuel : nat) :
  (forall filename seen,
     fs !! root_join filename = None ->
     read_latex_from root_join (S fuel) fs filename seen = Ok ([], seen))
  /\ (forall m ms seen,
        fs !! root_join (include_target m) = None ->
        load_includes (read_latex_from root_join (S fuel) fs) (m :: ms) seen
        = load_includes (read_latex_from root_join (S fuel) fs) ms seen)
  /\ (fs !! root_join ENTRY_FILE = None ->
      main root_join (S fuel) fs = Ok ([], Report [] [] [] [] []))
  /\ (fs !! root_join ENTRY_FILE = Some Unreadable ->
      main root_join (S fuel) fs = Raise).
Proof.
  split_and!.
  - intros filename seen. apply read_latex_from_missing.
  - intros m ms seen. apply load_includes_missing.
  - apply main_missing_entry.
  - apply main_unreadable_entry.
Qed.

Lemma missing_file_is_skipped_witness :
  cyclic_tree !! sample_root (include_target (txt "missing")) = None
  /\ load_includes (read_latex_from sample_root 4 cyclic_tree)
       [txt "missing"; txt "b"] ∅
     = load_includes (read_latex_from sample_root 4 cyclic_tree) [txt "b"] ∅
  /\ locked_tree !! sample_root ENTRY_FILE = Some Unreadable
  /\ main sample_root 1 locked_tree = Raise.
Proof.
  assert (cyclic_tree !! sample_root (include_target (txt "missing")) = None)
    as Hmiss by (vm_compute; reflexivity).
  assert (locked_tree !! sample_root ENTRY_FILE = Some Unreadable)
    as Hlock by (vm_compute; reflexivity).
  destruct (missing_file_is_skipped sample_root cyclic_tree 3) as (_ & Hinc & _ & _).
  destruct (missing_file_is_skipped sample_root locked_tree 0) as (_ & _ & _ & Hraise).
  split; [exact Hmiss|]. split; [exact (Hinc _ _ _ Hmiss)|].
  split; [exact Hlock | exact (Hraise Hlock)].
Defined.

(** C7, as stated, fails: with no entry file in the tree, [main] returns
    normally, with no definitions and an empty report. *)
Lemma missing_entry_file_not_fatal :
  (∅ : gmap str file) !! sample_root ENTRY_FILE = None
  /\ main sample_root 1 (∅ : gmap str file) = Ok ([], Report [] [] [] [] [])
  /\ main sample_root 1 (∅ : gmap str file) <> Raise.
Proof.
  split; [reflexivity|]. split; [vm_compute; reflexivity|].
  vm_compute. discriminate.
Qed.

(** ** Determinism of a run *)

Section Determinism.
Context {Path : Type} `{Countable Path}.
Variable root_join : str -> Path.
Variable fs : gmap Path file.

Lemma read_latex_recursive_fuel fuel1 fuel2 filename :
  size fs < fuel1 -> size fs < fuel2 ->
  read_latex_recursive root_join fuel1 fs filename None
  = read_latex_recursive root_join fuel2 fs filename None.
Proof.
  intros H1 H2. unfold read_latex_recursive.
  assert (forall fuel, size fs < fuel ->
            read_latex_from root_join fuel fs filename ∅ <> OutOfFuel) as Hends.
  { intros fuel Hfuel Hr.
    pose proof (read_latex_from_ends_well root_join fs fuel filename ∅) as Hw.
    unfold ends_well, unread in Hw. rewrite difference_empty_L, size_dom, Hr in Hw.
    by apply Hw. }
  pose proof (Hends fuel1 H1) as Hn1. pose proof (Hends fuel2 H2) as Hn2.
  destruct (Nat.le_ge_cases fuel1 fuel2) as [Hle|Hle].
  - by rewrite (read_latex_from_mono root_join fs fuel1 fuel2).
  - by rewrite (read_latex_from_mono root_join fs fuel2 fuel1).
Qed.

End Determinism.

(** Were the visited set of a first run handed to a second one, the second
    run would load nothing: the fresh set of each top-level call matters. *)
Example shared_visited_set_would_leak :
  match read_latex_recursive sample_root 4 cyclic_tree ENTRY_FILE None with
  | Ok (_, seen1) =>
      fst <$> read_latex_recursive sample_root 4 cyclic_tree ENTRY_FILE (Some seen1)
      = Ok []
  | _ => False
  end.
Proof. vm_compute. reflexivity. Qed.

(** ** Facts about the string functions *)

Section PyFacts.
Implicit Types (s t : str) (c : ascii).

Lemma lstrip_elem s c : c ∈ s -> Py.isspace c = false -> c ∈ Py.lstrip s.
Proof.
  induction s as [|x s IH]; [done|]. intros Hin Hc. simpl.
  destruct (Py.isspace x) eqn:Hx; [|done].
  apply elem_of_cons in Hin as [->|Hin]; [congruence | auto].
Qed.

Lemma strip_elem s c : c ∈ s -> Py.isspace c = false -> c ∈ Py.strip s.
Proof.
  intros Hin Hc. unfold Py.strip, Py.rstrip.
  rewrite rev_reverse, elem_of_reverse. apply lstrip_elem; [|done].
  rewrite rev_reverse, elem_of_reverse. by apply lstrip_elem.
Qed.

Lemma lstrip_blank s : Forall (fun c => Py.isspace c = true) s -> Py.lstrip s = [].
Proof. induction 1 as [|x s Hx _ IH]; [done|]. simpl. by rewrite Hx. Qed.

(** [s.strip()] is empty exactly when [s] is blank. *)
Lemma strip_nil s : Py.strip s = [] <-> Forall (fun c => Py.isspace c = true) s.
Proof.
  split.
  - intros Hs. apply Forall_forall. intros c Hin.
    destruct (Py.isspace c) eqn:Hc; [done|].
    pose proof (strip_elem s c Hin Hc) as Hin'. rewrite Hs in Hin'.
    by apply elem_of_nil in Hin'.
  - intros Hs. unfold Py.strip. by rewrite (lstrip_blank s Hs).
Qed.

Lemma startswith_take s t : Py.startswith s t = true -> take (length t) s = t.
Proof.
  revert s. induction t as [|a t IH]; intros [|b s]; simpl; try done.
  destruct (decide (a = b)) as [->|]; [|done]. intros Hs. f_equal. auto.
Qed.

Lemma find_from_Some i s t j :
  Py.find_from i s t = Some j ->
  exists k, j = i + k /\ k <= length s /\ Py.startswith (drop k s) t = true.
Proof.
  revert i. induction s as [|x s IH]; intros i; cbn [Py.find_from].
  - destruct (Py.startswith [] t) eqn:Hs; [|done]. intros [= <-].
    exists 0. split_and!; [lia | simpl; lia | done].
  - destruct (Py.startswith (x :: s) t) eqn:Hs.
    + intros [= <-]. exists 0. split_and!; [lia | simpl; lia | done].
    + intros (k & -> & Hk & Hst)%IH. exists (S k). split_and!; [lia | simpl; lia | done].
Qed.

(** Where [find] succeeds, the target stands in the text. *)
Lemma find_Some s t pos :
  Py.find s t = Some pos ->
  take (length t) (drop pos s) = t /\ pos + length t <= length s.
Proof.
  intros (k & -> & Hk & Hst)%find_from_Some. simpl.
  apply startswith_take in Hst. split; [done|].
  apply (f_equal length) in Hst. rewrite length_take, length_drop in Hst. lia.
Qed.

(** A character of [s] whose index lies between the bounds belongs to
    the slice. *)
Lemma slice_elem s (a b : Z) j c :
  s !! j = Some c ->
  (0 <= a <= Z.of_nat j)%Z -> (Z.of_nat j < b)%Z ->
  c ∈ Py.slice s a b.
Proof.
  intros Hj Ha Hb. pose proof (lookup_lt_Some _ _ _ Hj) as Hlt.
  unfold Py.slice, Py.norm_index, Py.len.
  destruct (Z.ltb_spec a 0) as [?|_]; [lia|].
  destruct (Z.ltb_spec b 0) as [?|_]; [lia|].
  apply list_elem_of_lookup. exists (j - Z.to_nat (a `min` Z.of_nat (length s))).
  rewrite lookup_take_lt by lia. rewrite lookup_drop. rewrite <- Hj. f_equal. lia.
Qed.
End PyFacts.

(** ** The sentence extractor *)

Section SentenceFacts.
Import Sentence.

Lemma extract_sentence_not_found text target_text :
  Py.find text target_text = None ->
  extract_sentence_containing_text text target_text = Py.strip text.
Proof. intros Hf. unfold extract_sentence_containing_text. by rewrite Hf. Qed.

Lemma extract_sentence_found_nonempty text target_text pos :
  Py.find text target_text = Some pos ->
  Exists (fun c => Py.isspace c = false) (take 200 target_text) ->
  extract_sentence_containing_text text target_text <> [].
Proof.
  intros Hf Hex. unfold extract_sentence_containing_text. rewrite Hf.
  cbv zeta.
  match goal with |- context [narrow ?s ?t ?p ?q] => generalize (narrow s t p q) end.
  intros sentence.
  destruct (Z.ltb_spec (Py.len sentence) 20) as [Hshort|Hlong]; cbn [orb].
  2: destruct (Py.contains sentence target_text); cbn [negb].
  2: { intros ->. unfold Py.len in Hlong. simpl in Hlong. lia. }
  all: apply Exists_exists in Hex as (c & Hin & Hc);
    apply list_elem_of_lookup in Hin as (k & Hk);
    apply lookup_take_Some in Hk as (Hk & Hk200);
    apply find_Some in Hf as (Htake & Hlen);
    assert (text !! (pos + k) = Some c) as Htext
      by (rewrite <- Htake in Hk; apply lookup_take_Some in Hk as (Hk & _);
          by rewrite lookup_drop in Hk);
    intros Hnil; apply strip_nil in Hnil;
    rewrite Forall_forall in Hnil;
    rewrite (Hnil c) in Hc; [done|];
    apply (slice_elem _ _ _ (pos + k)); [done | lia |];
    pose proof (lookup_lt_Some _ _ _ Htext); unfold Py.len; lia.
Qed.
End SentenceFacts.

(** C8, as the code has it: when the target does not occur in the line the
    extractor returns the stripped line, which is empty exactly when the
    line is blank; when the target occurs and one of its first 200
    characters is not blank, the result is not empty. *)
Theorem extract_sentence_result (text target_text : str) :
  (Py.find text target_text = None ->
   Sentence.extract_sentence_containing_text text target_text = Py.strip text
   /\ (Py.strip text = [] <-> Forall (fun c => Py.isspace c = true) text))
  /\ (forall pos,
        Py.find text target_text = Some pos ->
        Exists (fun c => Py.isspace c = false) (take 200 target_text) ->
        Sentence.extract_sentence_containing_text text target_text <> []).
Proof.
  split.
  - intros Hf. split; [by apply extract_sentence_not_found | apply strip_nil].
  - apply extract_sentence_found_nonempty.
Qed.

Lemma extract_sentence_result_witness :
  Py.find vae_line (txt "(VAE)") = Some 36
  /\ Exists (fun c => Py.isspace c = false) (take 200 (txt "(VAE)"))
  /\ Sentence.extract_sentence_containing_text vae_line (txt "(VAE)") <> [].
Proof.
  assert (Py.find vae_line (txt "(VAE)") = Some 36) as Hf by (vm_compute; reflexivity).
  assert (Exists (fun c => Py.isspace c = false) (take 200 (txt "(VAE)"))) as Hex
    by (left; vm_compute; reflexivity).
  split; [exact Hf|]. split; [exact Hex|].
  exact (proj2 (extract_sentence_result vae_line (txt "(VAE)")) 36 Hf Hex).
Defined.

(** The sentence the extractor returns on the boundary example. *)
Example extract_sentence_vae :
  Sentence.extract_sentence_containing_text vae_line (txt "(VAE)")
  = txt "The VAE (VAE) is good.".
Proof. vm_compute. reflexivity. Qed.

(** C8, as stated, fails: the result is empty for an empty or blank line
    in which the target is not found, and also when the target is found
    but only blanks surround its first occurrence in the fallback window. *)
Lemma extract_sentence_can_be_empty :
  Sentence.extract_sentence_containing_text [] (txt "(VAE)") = []
  /\ Sentence.extract_sentence_containing_text (txt "   ") (txt "(VAE)") = []
  /\ Py.find padded_line (txt " ") = Some 0
  /\ Sentence.extract_sentence_containing_text padded_line (txt " ") = [].
Proof. split_and!; vm_compute; reflexivity. Qed.

(** ** Loops as folds *)

Lemma foldl_filter_if {A B} (f : A -> B -> A) (q : B -> bool) (a : A) (l : list B) :
  foldl (fun acc x => if q x then f acc x else acc) a l
  = foldl f a (filter (fun x => q x = true) l).
Proof.
  revert a. induction l as [|x l IH]; intros a; [done|].
  rewrite filter_cons. simpl. destruct (q x) eqn:Hq.
  - rewrite decide_True by done. simpl. apply IH.
  - rewrite decide_False by done. apply IH.
Qed.

Lemma foldl_fmap_list {A B C} (f : A -> C -> A) (g : B -> C) (a : A) (l : list B) :
  foldl f a (g <$> l) = foldl (fun acc x => f acc (g x)) a l.
Proof. revert a. induction l as [|x l IH]; intros a; [done|]. simpl. apply IH. Qed.

Lemma foldl_bind_list {A B C} (f : A -> C -> A) (g : B -> list C) (a : A) (l : list B) :
  foldl f a (l ≫= g) = foldl (fun acc x => foldl f acc (g x)) a l.
Proof.
  revert a. induction l as [|x l IH]; intros a; [done|].
  cbn. rewrite foldl_app. apply IH.
Qed.

Lemma foldl_ext_in {A B} (f g : A -> B -> A) (a : A) (l : list B) :
  (forall acc x, x ∈ l -> f acc x = g acc x) -> foldl f a l = foldl g a l.
Proof.
  revert a. induction l as [|x l IH]; intros a Hfg; [done|].
  simpl. rewrite Hfg by left. apply IH. intros acc y Hy. apply Hfg. by right.
Qed.

(** ** Grouping by key *)

Section Group.
Context {K X : Type} `{EqDecision K}.
Implicit Types (d : list (K * list X)) (evs : list (K * X)) (k : K).

Lemma group_into_cons d ev evs :
  group_into d (ev :: evs) = group_into (dd_append ev.1 ev.2 d) evs.
Proof. done. Qed.

Lemma group_into_app d evs1 evs2 :
  group_into d (evs1 ++ evs2) = group_into (group_into d evs1) evs2.
Proof. apply foldl_app. Qed.

Lemma items_of_app k evs1 evs2 :
  items_of k (evs1 ++ evs2) = items_of k evs1 ++ items_of k evs2.
Proof. unfold items_of. by rewrite filter_app, fmap_app. Qed.

Lemma items_of_cons k ev evs :
  items_of k (ev :: evs)
  = if decide (ev.1 = k) then ev.2 :: items_of k evs else items_of k evs.
Proof. unfold items_of. rewrite filter_cons. by case_decide. Qed.

Lemma group_into_get d evs k :
  default [] (dict_get (group_into d evs) k)
  = default [] (dict_get d k) ++ items_of k evs.
Proof.
  revert d. induction evs as [|[k' x] evs IH]; intros d.
  - by rewrite app_nil_r.
  - rewrite group_into_cons, IH, items_of_cons. unfold dd_append. rewrite dict_get_set. cbn [fst snd].
    destruct (decide (k' = k)) as [->|Hne]; [|done].
    cbn. by rewrite <- app_assoc.
Qed.

Lemma group_into_NoDup d evs : NoDup d.*1 -> NoDup (group_into d evs).*1.
Proof.
  revert d. induction evs as [|[k' x] evs IH]; intros d Hd; [done|].
  rewrite group_into_cons. apply IH. by apply dict_set_NoDup.
Qed.

(** A key is present exactly when it was there or an item came for it. *)
Lemma group_into_key d evs k :
  is_Some (dict_get (group_into d evs) k)
  <-> is_Some (dict_get d k) \/ items_of k evs <> [].
Proof.
  revert d. induction evs as [|[k' x] evs IH]; intros d.
  - cbn. split; [by left | by intros [?|?]].
  - rewrite group_into_cons, IH, items_of_cons. unfold dd_append. rewrite dict_get_set. cbn [fst snd].
    destruct (decide (k' = k)) as [->|Hne].
    + split; [by right | by left].
    + done.
Qed.

(** Present keys hold at least one item. *)
Lemma group_into_nonempty d evs k l :
  (forall k l, dict_get d k = Some l -> l <> []) ->
  dict_get (group_into d evs) k = Some l -> l <> [].
Proof.
  revert d. induction evs as [|[k' x] evs IH]; intros d Hd; [by apply Hd|].
  rewrite group_into_cons. apply IH. intros k0 l0. unfold dd_append. rewrite dict_get_set. cbn [fst snd].
  destruct (decide (k' = k0)) as [->|Hne]; [|by apply Hd].
  intros [= <-]. by destruct (default [] (dict_get d k0)).
Qed.
End Group.

(** ** The undefined-acronym scan as a grouping of its matches *)

Section UndefinedFacts.
Context {Path : Type}.
Implicit Types (content : list (@entry Path)) (ds : gset str) (tok : str).


Lemma scan_undefined_line_events ds acc (e : @entry Path) :
  scan_undefined_line ds acc e
  = foldl undefined_step acc
      ((fun a => (a, e)) <$> filter (fun a => qualifies ds a = true) (line_tokens e.2)).
Proof.
  unfold scan_undefined_line, line_tokens.
  generalize (findall1 false paren_pattern e.2). intros ms. revert acc.
  induction ms as [|m ms IH]; intros acc; [done|].
  rewrite fmap_cons, filter_cons. cbn [foldl]. rewrite IH. clear IH.
  destruct acc as [counts forms]. destruct e as [[p n] l].
  unfold scan_undefined_match, qualifies.
  destruct (bool_decide (Py.strip m ∉ ds) && bool_decide (Py.strip m ∉ roman_numerals));
    [rewrite decide_True by done | rewrite decide_False by done]; done.
Qed.

Lemma scan_undefined_events content ds :
  scan_undefined content ds = foldl undefined_step ([], []) (undefined_events ds content).
Proof.
  unfold scan_undefined, undefined_events. rewrite foldl_bind_list.
  apply foldl_ext_in. intros acc e _. apply scan_undefined_line_events.
Qed.

Lemma undefined_step_fst (acc : @undefined_tables Path) (evs : list (str * @entry Path)) :
  (foldl undefined_step acc evs).1
  = group_into acc.1 ((fun ev => (ev.1, occurrence_of ev.2)) <$> evs).
Proof. revert acc. induction evs as [|ev evs IH]; intros acc; [done|]. cbn. by rewrite IH. Qed.

Lemma undefined_step_snd (acc : @undefined_tables Path) (evs : list (str * @entry Path)) :
  (foldl undefined_step acc evs).2 = foldl add_form acc.2 evs.
Proof. revert acc. induction evs as [|ev evs IH]; intros acc; [done|]. cbn. by rewrite IH. Qed.

Lemma items_of_line_events ds (e : @entry Path) tok (toks : list str) :
  items_of tok ((fun ev : str * @entry Path => (ev.1, occurrence_of ev.2)) <$>
                ((fun a => (a, e)) <$> filter (fun a => qualifies ds a = true) toks))
  = if qualifies ds tok
    then (fun _ => (e.1.1, e.1.2, Py.strip e.2)) <$> filter (fun a => a = tok) toks
    else [].
Proof.
  induction toks as [|a toks IH]; [by destruct (qualifies ds tok)|].
  rewrite !filter_cons.
  destruct (decide (a = tok)) as [->|Hne].
  - destruct (qualifies ds tok) eqn:Hq; [|by rewrite decide_False].
    rewrite decide_True by done. rewrite !fmap_cons, items_of_cons. cbn [fst snd].
    rewrite decide_True by done. by rewrite IH.
  - destruct (decide (qualifies ds a = true)); [|done].
    rewrite !fmap_cons, items_of_cons. cbn [fst snd]. by rewrite decide_False.
Qed.

(** The occurrences filed under a token are its occurrences in the body
    when the token passes the test of line 112, and none otherwise. *)
Lemma items_of_undefined_events ds content tok :
  items_of tok ((fun ev => (ev.1, occurrence_of ev.2)) <$> undefined_events ds content)
  = if qualifies ds tok then token_occurrences tok content else [].
Proof.
  unfold undefined_events, token_occurrences.
  induction content as [|e content IH]; [by destruct (qualifies ds tok)|].
  rewrite !bind_cons, fmap_app, items_of_app, IH, items_of_line_events.
  by destruct (qualifies ds tok).
Qed.

Lemma add_form_NoDup (forms : list (str * gset str)) (evs : list (str * @entry Path)) :
  NoDup forms.*1 -> NoDup (foldl add_form forms evs).*1.
Proof.
  revert forms. induction evs as [|ev evs IH]; intros forms Hf; [done|].
  cbn. apply IH. unfold add_form. destruct (recover_full_form _ _); [|done].
  by apply dict_set_NoDup.
Qed.

(** The long forms recorded for a token are those recovered at its
    accepted matches, whatever their number. *)
Lemma add_form_elem (forms : list (str * gset str)) (evs : list (str * @entry Path))
    tok full_form :
  full_form ∈ default ∅ (dict_get (foldl add_form forms evs) tok)
  <-> full_form ∈ default ∅ (dict_get forms tok)
      \/ exists e, (tok, e) ∈ evs /\ recover_full_form tok e.2 = Some full_form.
Proof.
  revert forms. induction evs as [|[a e] evs IH]; intros forms.
  - cbn. split; [by left | intros [?|(e & ?%elem_of_nil & _)]; done].
  - cbn [foldl]. rewrite IH. clear IH. unfold add_form. cbn [fst snd].
    split.
    + intros [Hin|(e' & Hin & Hr)]; [|right; exists e'; split; [by right | done]].
      destruct (recover_full_form a e.2) as [ff|] eqn:Hrec; [|by left].
      rewrite dict_get_set in Hin. destruct (decide (a = tok)) as [->|Hne]; [|by left].
      cbn in Hin. apply elem_of_union in Hin as [Hin|Hin%elem_of_singleton]; [by left|].
      subst. right. exists e. split; [left | done].
    + intros [Hin|(e' & [Heq|Hin]%elem_of_cons & Hr)].
      * left. destruct (recover_full_form a e.2) as [ff|]; [|done].
        rewrite dict_get_set. destruct (decide (a = tok)) as [->|Hne]; [|done].
        cbn. apply elem_of_union. by left.
      * injection Heq as <- <-. left. rewrite Hr, dict_get_set_eq. cbn.
        apply elem_of_union. right. by apply elem_of_singleton.
      * right. by exists e'.
Qed.

(** A token has an entry among the long forms exactly when one of its
    accepted matches yields one. *)
Lemma add_form_key (forms : list (str * gset str)) (evs : list (str * @entry Path)) tok :
  is_Some (dict_get (foldl add_form forms evs) tok)
  <-> is_Some (dict_get forms tok)
      \/ exists e, (tok, e) ∈ evs /\ is_Some (recover_full_form tok e.2).
Proof.
  revert forms. induction evs as [|[a e] evs IH]; intros forms.
  - cbn. split; [by left | intros [?|(e & ?%elem_of_nil & _)]; done].
  - cbn [foldl]. rewrite IH. clear IH. unfold add_form. cbn [fst snd].
    split.
    + intros [Hin|(e' & Hin & Hr)]; [|right; exists e'; split; [by right | done]].
      destruct (recover_full_form a e.2) as [ff|] eqn:Hrec; [|by left].
      rewrite dict_get_set in Hin. destruct (decide (a = tok)) as [->|Hne]; [|by left].
      right. exists e. split; [left | by rewrite Hrec].
    + intros [Hin|(e' & [Heq|Hin]%elem_of_cons & Hr)].
      * left. destruct (recover_full_form a e.2) as [ff|]; [|done].
        rewrite dict_get_set. by destruct (decide (a = tok)).
      * injection Heq as <- <-. left. destruct Hr as [ff Hr].
        by rewrite Hr, dict_get_set_eq.
      * right. by exists e'.
Qed.

Lemma elem_of_undefined_events ds content tok (e : @entry Path) :
  (tok, e) ∈ undefined_events ds content
  <-> e ∈ content /\ tok ∈ line_tokens e.2 /\ qualifies ds tok = true.
Proof.
  unfold undefined_events. rewrite list_elem_of_bind. split.
  - intros (e' & Hin & He'). apply list_elem_of_fmap in Hin as (a & [= -> ->] & Ha).
    apply list_elem_of_filter in Ha as [? ?]. done.
  - intros (He & Htok & Hq). exists e. split; [|done].
    apply list_elem_of_fmap. exists tok. split; [done|].
    by apply list_elem_of_filter.
Qed.
End UndefinedFacts.

(** ** The fields of the scan report *)

Section ReportFacts.
Context {Path : Type}.
Implicit Types (entries : list (@entry Path)) (defs : list (str * @acronym_def Path)).

Lemma used_full_scan entries defs :
  used_full (scan_acronyms entries defs)
  = (scan_usage (content_from false entries) defs).1.
Proof.
  unfold scan_acronyms, scan_acronyms_in. destruct (scan_usage _ _) as [uf us].
  by destruct (scan_undefined _ _) as [counts forms].
Qed.

Lemma used_short_scan entries defs :
  used_short (scan_acronyms entries defs)
  = (scan_usage (content_from false entries) defs).2.
Proof.
  unfold scan_acronyms, scan_acronyms_in. destruct (scan_usage _ _) as [uf us].
  by destruct (scan_undefined _ _) as [counts forms].
Qed.

Lemma undefined_scan entries defs :
  undefined (scan_acronyms entries defs)
  = report_undefined
      (scan_undefined (content_from false entries) (defined_shorts_of defs)).1.
Proof.
  unfold scan_acronyms, scan_acronyms_in, defined_shorts_of. destruct (scan_usage _ _) as [uf us].
  by destruct (scan_undefined _ _) as [counts forms].
Qed.

Lemma undefined_full_forms_scan entries defs :
  undefined_full_forms (scan_acronyms entries defs)
  = (scan_undefined (content_from false entries) (defined_shorts_of defs)).2.
Proof.
  unfold scan_acronyms, scan_acronyms_in, defined_shorts_of. destruct (scan_usage _ _) as [uf us].
  by destruct (scan_undefined _ _) as [counts forms].
Qed.

Lemma inconsistent_usage_scan entries defs :
  inconsistent_usage (scan_acronyms entries defs)
  = scan_inconsistent (content_from false entries)
      (scan_undefined (content_from false entries) (defined_shorts_of defs)).2.
Proof.
  unfold scan_acronyms, scan_acronyms_in, defined_shorts_of. destruct (scan_usage _ _) as [uf us].
  by destruct (scan_undefined _ _) as [counts forms].
Qed.

(** *** The list of undefined acronyms *)

Lemma foldl_app_bind {A B} (g : B -> list A) (a : list A) (l : list B) :
  foldl (fun acc x => acc ++ g x) a l = a ++ (l ≫= g).
Proof.
  revert a. induction l as [|x l IH]; intros a; [by rewrite app_nil_r|].
  cbn [foldl]. by rewrite IH, bind_cons, app_assoc.
Qed.


Lemma report_undefined_bind (counts : list (str * list (@entry Path))) :
  report_undefined counts = counts ≫= undefined_block.
Proof.
  unfold report_undefined.
  rewrite (foldl_ext_in _ (fun acc (kv : str * list (@entry Path)) =>
                              acc ++ undefined_block kv)).
  - apply (foldl_app_bind (@undefined_block Path) []).
  - intros acc [a occs] _. unfold undefined_block. cbn [fst snd].
    unfold entry in *.
    destruct (2 <=? length occs); [done | by rewrite app_nil_r].
Qed.

Lemma filter_tagged tok a (occs : list (@entry Path)) :
  filter (fun x => token_of x = tok) (tagged a <$> occs)
  = if decide (a = tok) then tagged a <$> occs else [].
Proof.
  induction occs as [|[[p n] l] occs IH]; [by case_decide|].
  rewrite fmap_cons, filter_cons, IH. unfold token_of at 1. cbn.
  by destruct (decide (a = tok)).
Qed.

Lemma filter_undefined_block tok (kv : str * list (@entry Path)) :
  filter (fun x => token_of x = tok) (undefined_block kv)
  = if decide (kv.1 = tok) then undefined_block kv else [].
Proof.
  unfold undefined_block. destruct (2 <=? length kv.2); [apply filter_tagged|].
  by case_decide.
Qed.

(** The records of a token in the list: all its occurrences when there
    are two or more, none otherwise. *)
Lemma filter_report_undefined tok (counts : list (str * list (@entry Path))) :
  NoDup counts.*1 ->
  filter (fun x => token_of x = tok) (report_undefined counts)
  = let occs := default [] (dict_get counts tok) in
    if 2 <=? length occs then tagged tok <$> occs else [].
Proof.
  rewrite report_undefined_bind.
  induction counts as [|[a occs] counts IH]; [done|].
  rewrite fmap_cons, NoDup_cons. cbn [fst]. intros [Hnot Hnd].
  rewrite bind_cons, filter_app, filter_undefined_block, (IH Hnd). cbn [fst snd dict_get].
  destruct (decide (a = tok)) as [->|Hne].
  - apply dict_get_None in Hnot. rewrite Hnot. cbn. by rewrite app_nil_r.
  - done.
Qed.

Lemma undefined_counts_get entries defs tok :
  let counts := (scan_undefined (content_from false entries) (defined_shorts_of defs)).1 in
  NoDup counts.*1
  /\ default [] (dict_get counts tok)
     = if qualifies (defined_shorts_of defs) tok
       then token_occurrences tok (content_from false entries) else [].
Proof.
  cbv zeta. rewrite scan_undefined_events, undefined_step_fst. split.
  - apply group_into_NoDup. constructor.
  - by rewrite group_into_get, items_of_undefined_events.
Qed.

Lemma filter_undefined_scan entries defs tok :
  filter (fun x => token_of x = tok) (undefined (scan_acronyms entries defs))
  = let occs := if qualifies (defined_shorts_of defs) tok
                then token_occurrences tok (content_from false entries) else [] in
    if 2 <=? length occs then tagged tok <$> occs else [].
Proof.
  rewrite undefined_scan.
  destruct (undefined_counts_get entries defs tok) as [Hnd Hget].
  by rewrite filter_report_undefined, Hget.
Qed.
End ReportFacts.

(** ** The inconsistency detector as a grouping *)

Section InconsistentFacts.
Context {Path : Type}.
Implicit Types (content : list (@entry Path)) (uff : list (str * gset str)).
Implicit Types (tok full_form : str).


Lemma scan_inconsistent_in_events (set_order : str -> gset str -> list str) content uff :
  scan_inconsistent_in set_order content uff
  = group_into [] (inconsistent_events_in set_order content uff).
Proof.
  unfold scan_inconsistent_in, inconsistent_events_in, group_into.
  rewrite foldl_bind_list. apply foldl_ext_in. intros acc [acronym forms] _.
  unfold inconsistent_block_in. cbn [fst snd].
  rewrite foldl_fmap_list, foldl_bind_list. apply foldl_ext_in. intros acc' ff _.
  unfold standalone_records. rewrite foldl_fmap_list.
  rewrite <- (foldl_filter_if
               (fun d (e : @entry Path) => dd_append acronym (flagged ff e) d)
               (fun e => standalone_found ff acronym e.2)).
  apply foldl_ext_in. by intros d [[p n] l] _.
Qed.

Lemma scan_inconsistent_events content uff :
  scan_inconsistent content uff = group_into [] (inconsistent_events content uff).
Proof. apply scan_inconsistent_in_events. Qed.

Lemma items_of_tag {X} (k k' : str) (xs : list X) :
  items_of k ((fun x => (k', x)) <$> xs) = if decide (k' = k) then xs else [].
Proof.
  induction xs as [|x xs IH]; [by case_decide|].
  rewrite fmap_cons, items_of_cons, IH. cbn. by case_decide.
Qed.

Lemma items_of_blocks {V X} (g : str * V -> list X) (d : list (str * V)) k :
  NoDup d.*1 ->
  items_of k (d ≫= fun kv => (fun x => (kv.1, x)) <$> g kv)
  = match dict_get d k with Some v => g (k, v) | None => [] end.
Proof.
  induction d as [|[k' v] d IH]; [done|].
  rewrite fmap_cons, NoDup_cons. cbn [fst]. intros [Hnot Hnd].
  rewrite bind_cons, items_of_app, items_of_tag, (IH Hnd). cbn [fst dict_get].
  destruct (decide (k' = k)) as [->|Hne]; [|done].
  apply dict_get_None in Hnot. by rewrite Hnot, app_nil_r.
Qed.


Lemma inconsistent_key content uff tok :
  NoDup uff.*1 ->
  is_Some (dict_get (scan_inconsistent content uff) tok) ->
  is_Some (dict_get uff tok).
Proof.
  intros Hnd. rewrite scan_inconsistent_events, group_into_key.
  unfold inconsistent_events, inconsistent_events_in. rewrite items_of_blocks by done.
  intros [[? [=]]|Hne]. by destruct (dict_get uff tok).
Qed.

(** Among the records of a token, those made for one long form, in
    whatever order the long forms are traversed. *)
Lemma filter_inconsistent_block_in (set_order : str -> gset str -> list str)
    content tok (forms : gset str) full_form :
  traverses_once set_order ->
  filter (fun x : @inconsistent_record Path => x.2 = full_form)
         (inconsistent_block_in set_order content (tok, forms))
  = if decide (full_form ∈ forms)
    then standalone_records content tok full_form else [].
Proof.
  intros Hperm. unfold inconsistent_block_in. cbn [fst snd].
  assert (forall ff, filter (fun x : @inconsistent_record Path => x.2 = full_form)
                       (standalone_records content tok ff)
                     = if decide (ff = full_form)
                       then standalone_records content tok ff else []) as Hblock.
  { intros ff. unfold standalone_records.
    induction (filter _ content) as [|e es IH]; [by case_decide|].
    rewrite fmap_cons, filter_cons, IH. cbn. by case_decide. }
  assert (NoDup (set_order tok forms)) as Hnd
    by (rewrite (Hperm tok forms); apply NoDup_elements).
  assert (forall ff, ff ∈ set_order tok forms <-> ff ∈ forms) as Hel
    by (intros ff; rewrite (Hperm tok forms); apply elem_of_elements).
  revert Hnd Hel. generalize (set_order tok forms). intros l Hnd Hel.
  destruct (decide (full_form ∈ forms)) as [Hin|Hin]; rewrite <- Hel in Hin; clear Hel.
  - induction Hnd as [|ff l Hff Hnd IH]; [by apply elem_of_nil in Hin|].
    rewrite bind_cons, filter_app, Hblock.
    destruct (decide (ff = full_form)) as [->|Hne].
    + assert (filter (fun x : @inconsistent_record Path => x.2 = full_form)
                (l ≫= standalone_records content tok) = []) as ->; [|by rewrite app_nil_r].
      clear IH Hin Hnd. induction l as [|ff' l IH]; [done|].
      apply not_elem_of_cons in Hff as [Hne Hff].
      rewrite bind_cons, filter_app, Hblock, decide_False by done. by apply IH.
    + apply elem_of_cons in Hin as [?|Hin]; [done|]. by apply IH.
  - induction l as [|ff l IH]; [done|].
    apply not_elem_of_cons in Hin as [Hne Hin]. apply NoDup_cons in Hnd as [_ Hnd].
    rewrite bind_cons, filter_app, Hblock, decide_False by done. by apply IH.
Qed.

Lemma canonical_order_traverses_once : traverses_once canonical_order.
Proof. by intros tok forms. Qed.

End InconsistentFacts.

(** ** What the two-occurrence threshold governs *)

Section ThresholdFacts.
Context {Path : Type}.
Implicit Types (entries content : list (@entry Path)).
Implicit Types (defs : list (str * @acronym_def Path)) (tok full_form : str).

Lemma token_occurrences_pos content tok (e : @entry Path) :
  e ∈ content -> tok ∈ line_tokens e.2 ->
  1 <= length (token_occurrences tok content).
Proof.
  intros He Htok. unfold token_occurrences.
  apply list_elem_of_split in He as (c1 & c2 & ->).
  rewrite bind_app, bind_cons, !length_app, length_fmap.
  assert (tok ∈ filter (fun a => a = tok) (line_tokens e.2)) as Hin
    by (by apply list_elem_of_filter).
  destruct (filter _ (line_tokens e.2)); [by apply elem_of_nil in Hin|].
  simpl. lia.
Qed.

Lemma undefined_full_forms_NoDup entries defs :
  NoDup (undefined_full_forms (scan_acronyms entries defs)).*1.
Proof.
  rewrite undefined_full_forms_scan, scan_undefined_events, undefined_step_snd.
  apply add_form_NoDup. constructor.
Qed.

(** The long forms recorded for a token: those recovered at any of its
    accepted occurrences in the body. *)
Lemma undefined_full_forms_elem entries defs tok full_form :
  full_form ∈ default ∅ (dict_get (undefined_full_forms (scan_acronyms entries defs)) tok)
  <-> exists e, e ∈ content_from false entries
                /\ tok ∈ line_tokens e.2
                /\ qualifies (defined_shorts_of defs) tok = true
                /\ recover_full_form tok e.2 = Some full_form.
Proof.
  rewrite undefined_full_forms_scan, scan_undefined_events, undefined_step_snd.
  rewrite add_form_elem. cbn. split.
  - intros [Hin|(e & Hin & Hr)]; [by apply not_elem_of_empty in Hin|].
    apply elem_of_undefined_events in Hin as (? & ? & ?). by exists e.
  - intros (e & He & Htok & Hq & Hr). right. exists e. split; [|done].
    by apply elem_of_undefined_events.
Qed.

Lemma undefined_full_forms_key entries defs tok :
  is_Some (dict_get (undefined_full_forms (scan_acronyms entries defs)) tok)
  <-> exists e, e ∈ content_from false entries
                /\ tok ∈ line_tokens e.2
                /\ qualifies (defined_shorts_of defs) tok = true
                /\ is_Some (recover_full_form tok e.2).
Proof.
  rewrite undefined_full_forms_scan, scan_undefined_events, undefined_step_snd.
  rewrite add_form_key. cbn. split.
  - intros [[? [=]]|(e & Hin & Hr)].
    apply elem_of_undefined_events in Hin as (? & ? & ?). by exists e.
  - intros (e & He & Htok & Hq & Hr). right. exists e. split; [|done].
    by apply elem_of_undefined_events.
Qed.

Lemma undefined_elem_twice entries defs x :
  x ∈ undefined (scan_acronyms entries defs) ->
  2 <= length (token_occurrences (token_of x) (content_from false entries)).
Proof.
  intros Hin.
  assert (x ∈ filter (fun y => token_of y = token_of x)
                (undefined (scan_acronyms entries defs))) as Hx
    by (by apply list_elem_of_filter).
  rewrite filter_undefined_scan in Hx. cbv zeta in Hx.
  destruct (qualifies _ _); [|by apply elem_of_nil in Hx].
  destruct (Nat.leb_spec 2 (length (token_occurrences (token_of x)
                                      (content_from false entries)))); [done|].
  by apply elem_of_nil in Hx.
Qed.
End ThresholdFacts.

(** C3, as the code has it: the threshold of two occurrences governs the
    undefined-acronym list only.  A record enters that list only for a
    token with at least two occurrences in the body.  The recovered long
    forms are kept per occurrence, whatever the count: a long form is
    recorded for a token exactly when it is recovered at one of the
    token's accepted occurrences, so one occurrence is enough.  The
    inconsistent usages are keyed by tokens that have a recovered long
    form. *)
Theorem undefined_findings_threshold {Path : Type}
    (entries : list (@entry Path)) (acronym_defs : list (str * @acronym_def Path)) :
  let r := scan_acronyms entries acronym_defs in
  let content_entries := content_from false entries in
  (forall x, x ∈ undefined r ->
     2 <= length (token_occurrences (token_of x) content_entries))
  /\ (forall tok full_form,
        full_form ∈ default ∅ (dict_get (undefined_full_forms r) tok)
        <-> exists e, e ∈ content_entries
                      /\ tok ∈ line_tokens e.2
                      /\ qualifies (defined_shorts_of acronym_defs) tok = true
                      /\ recover_full_form tok e.2 = Some full_form)
  /\ (forall tok,
        is_Some (dict_get (undefined_full_forms r) tok) ->
        1 <= length (token_occurrences tok content_entries))
  /\ (forall tok,
        is_Some (dict_get (inconsistent_usage r) tok) ->
        is_Some (dict_get (undefined_full_forms r) tok)).
Proof.
  cbv zeta. split_and!.
  - apply undefined_elem_twice.
  - apply undefined_full_forms_elem.
  - intros tok (e & He & Htok & _)%undefined_full_forms_key.
    by eapply token_occurrences_pos.
  - intros tok. rewrite inconsistent_usage_scan, <- undefined_full_forms_scan.
    apply inconsistent_key, undefined_full_forms_NoDup.
Qed.

(** C3, as stated, fails: the token AIT occurs once in the body, yet it
    has a recovered long form and an inconsistent usage in the report
    (and no record in the undefined-acronym list). *)
Lemma single_occurrence_is_recorded :
  let r := scan_acronyms single_ait [] in
  length (token_occurrences (txt "AIT") (content_from false single_ait)) = 1
  /\ undefined r = []
  /\ (fun kv : str * gset str => (kv.1, elements kv.2)) <$> undefined_full_forms r
     = [(txt "AIT", [txt "Austrian Institute of Technology"])]
  /\ inconsistent_usage r
     = [(txt "AIT",
         [(sample_root (txt "main.tex"), 3,
           txt "The Austrian Institute of Technology is in Vienna.",
           txt "Austrian Institute of Technology")])].
Proof. split_and!; vm_compute; reflexivity. Qed.

(** ** The matcher on the patterns of the scan *)

Section MatcherFacts.
Implicit Types (s w : str) (i j : nat) (g : list str) (r : re).

Lemma run_seq ic r1 r2 s (st : mstate) :
  run ic (Seq r1 r2) s st = run ic r1 s st ≫= run ic r2 s.
Proof. by destruct st. Qed.

Lemma run_eps ic s (st : mstate) : run ic Eps s st = [st].
Proof. by destruct st. Qed.

Lemma run_chr ic a s i g :
  run ic (Chr a) s (i, g)
  = match drop i s with
    | x :: _ => if atom_match ic a x then [(S i, g)] else []
    | [] => []
    end.
Proof.
  cbn. rewrite <- (Nat.add_0_r i) at 1. rewrite <- lookup_drop.
  by destruct (drop i s).
Qed.

Lemma drop_S_tail {A} (l : list A) i x l' : drop i l = x :: l' -> drop (S i) l = l'.
Proof.
  intros Hd. rewrite <- (Nat.add_1_l i), Nat.add_comm, <- drop_drop, Hd. done.
Qed.

(** A literal matches where the text starts with it, letter case apart. *)
Lemma run_lit w s i g :
  run true (lit w) s (i, g)
  = if ci_prefix w (drop i s) then [(i + length w, g)] else [].
Proof.
  revert i. induction w as [|a w IH]; intros i.
  - cbn. by rewrite Nat.add_0_r.
  - cbn [lit]. rewrite run_seq, run_chr. cbn [ci_prefix].
    destruct (drop i s) as [|x rest] eqn:Hd; [done|].
    cbn [atom_match]. destruct (bool_decide (Py.lower_c x = Py.lower_c a)); [|done].
    cbn [mbind list_bind]. rewrite app_nil_r, IH, (drop_S_tail _ _ _ _ Hd).
    cbn [length andb]. by rewrite Nat.add_succ_r.
Qed.

Lemma found_search_from ic r s n i :
  found (search_from ic r s n i) = true
  <-> exists k, k <= n /\ is_Some (match_at ic r s (i + k)).
Proof.
  revert i. induction n as [|n IH]; intros i; cbn [search_from].
  - destruct (match_at ic r s i) as [m|] eqn:Hm.
    + split; [|done]. intros _. exists 0. rewrite Nat.add_0_r, Hm. by split; [lia|].
    + split; [done|]. intros (k & Hk & Hs). assert (k = 0) as -> by lia.
      rewrite Nat.add_0_r, Hm in Hs. by destruct Hs.
  - destruct (match_at ic r s i) as [m|] eqn:Hm.
    + split; [|done]. intros _. exists 0. rewrite Nat.add_0_r, Hm. by split; [lia|].
    + rewrite IH. split.
      * intros (k & Hk & Hs). exists (S k). split; [lia|].
        by rewrite Nat.add_succ_r.
      * intros (k & Hk & Hs). destruct k as [|k].
        { rewrite Nat.add_0_r, Hm in Hs. by destruct Hs. }
        exists k. split; [lia|]. by rewrite Nat.add_succ_r in Hs.
Qed.

Lemma is_Some_match_at ic r s i :
  is_Some (match_at ic r s i) <-> run ic r s (i, []) <> [].
Proof.
  unfold match_at. by destruct (run ic r s (i, [])) as [|[j g] l]; split.
Qed.

Lemma word_boundary_in_range s i : word_boundary s i = true -> i <= length s.
Proof.
  unfold word_boundary, is_word_at. intros Hwb.
  destruct (Nat.le_gt_cases i (length s)) as [|Hgt]; [done|].
  destruct (Z.ltb_spec (Z.of_nat i - 1) 0); [lia|].
  destruct (Z.ltb_spec (Z.of_nat i) 0); [lia|].
  rewrite !lookup_ge_None_2 in Hwb by lia. done.
Qed.

(** A pattern that opens with [\b] is found exactly where it matches. *)
Lemma found_search_wordb ic r s :
  found (search ic (Seq WordB r) s) = true
  <-> exists i, word_boundary s i = true /\ run ic r s (i, []) <> [].
Proof.
  unfold search. rewrite found_search_from. setoid_rewrite is_Some_match_at.
  setoid_rewrite run_seq. cbn [run].
  split.
  - intros (k & _ & Hr). exists k. cbn [Nat.add] in Hr.
    destruct (word_boundary s k); [|done]. split; [done|].
    cbn in Hr. by rewrite app_nil_r in Hr.
  - intros (i & Hwb & Hr). exists i. split; [by apply word_boundary_in_range|].
    cbn [Nat.add]. rewrite Hwb. cbn. by rewrite app_nil_r.
Qed.
End MatcherFacts.

Section DetectorFacts.
Implicit Types (s w : str) (i j : nat) (g : list str) (r : re).











Lemma run_wordb ic s i g :
  run ic WordB s (i, g) = if word_boundary s i then [(i, g)] else [].
Proof. done. Qed.


End DetectorFacts.


(** ** The usage scan *)

Section UsageFacts.
Context {Path : Type}.
Implicit Types (content : list (@entry Path)).
Implicit Types (defs : list (str * @acronym_def Path)) (key w : str).

Lemma run_length_s (t : str) :
  run_length true (ALit "s") (Some 1) t = if ci_prefix (txt "s") t then 1 else 0.
Proof.
  destruct t as [|x t]; [done|]. cbn [run_length atom_match ci_prefix txt list_ascii_of_string].
  rewrite andb_true_r. by destruct (bool_decide _), t.
Qed.

Lemma run_rep ic a lo hi (s : str) i (g : list str) :
  run ic (Rep a lo hi) s (i, g)
  = (fun k => (i + k, g)) <$> counts_down lo (run_length ic a hi (drop i s)).
Proof. done. Qed.

(** Where the usage pattern of the form [w] is found. *)
Lemma usage_found_spec w line :
  usage_found w line = true <-> exists i, usage_at w line i.
Proof.
  unfold usage_found, usage_pattern. cbn [seqs foldr].
  rewrite found_search_wordb. apply exist_proper. intros i.
  unfold usage_at. rewrite run_seq, run_lit.
  destruct (ci_prefix w (drop i line)); [|by intuition].
  rewrite bind_singleton, run_seq, run_rep, run_length_s.
  destruct (ci_prefix (txt "s") (drop (i + length w) line)).
  - cbn [counts_down Nat.ltb Nat.leb fmap list_fmap].
    rewrite !bind_cons, !run_seq, !run_wordb, Nat.add_0_r.
    destruct (word_boundary line (i + length w + 1)),
             (word_boundary line (i + length w)); cbn; intuition congruence.
  - cbn [counts_down Nat.ltb Nat.leb fmap list_fmap].
    rewrite !bind_cons, !run_seq, !run_wordb, Nat.add_0_r.
    destruct (word_boundary line (i + length w)); cbn; intuition congruence.
Qed.


Lemma scan_usage_line_fold key (fp sp : re) content (acc : @usage_tables Path) :
  foldl (scan_usage_line key fp sp) acc content
  = (group_into acc.1
       ((fun e => (key, e)) <$> filter (fun e => found (search true fp e.2) = true) content),
     group_into acc.2
       ((fun e => (key, e)) <$> filter (fun e => found (search true sp e.2) = true) content)).
Proof.
  revert acc. induction content as [|[[p n] l] content IH]; intros [uf us]; [done|].
  cbn [foldl]. rewrite IH. clear IH. rewrite !filter_cons. cbn [fst snd scan_usage_line].
  destruct (found (search true fp l)), (found (search true sp l)); cbn; done.
Qed.

Lemma scan_usage_events content defs :
  scan_usage content defs
  = (group_into [] (usage_events full content defs),
     group_into [] (usage_events short content defs)).
Proof.
  unfold scan_usage, usage_events.
  assert (forall acc : @usage_tables Path,
            foldl (fun acc '(key, data) =>
                     foldl (scan_usage_line key (usage_pattern (full data))
                              (usage_pattern (short data))) acc content) acc defs
            = (group_into acc.1 (usage_events full content defs),
               group_into acc.2 (usage_events short content defs))) as Hgen.
  { induction defs as [|[key data] defs IH]; intros [uf us]; [done|].
    cbn [foldl]. rewrite scan_usage_line_fold, IH. unfold usage_events.
    rewrite !bind_cons, !group_into_app. done. }
  apply Hgen.
Qed.

Lemma usage_get form content defs key data :
  NoDup defs.*1 -> dict_get defs key = Some data ->
  default [] (dict_get (group_into [] (usage_events form content defs)) key)
  = filter (fun e => usage_found (form data) e.2 = true) content.
Proof.
  intros Hnd Hget. rewrite group_into_get. unfold usage_events.
  rewrite (items_of_blocks
             (fun kv => filter (fun e => usage_found (form kv.2) e.2 = true) content))
    by done.
  by rewrite Hget.
Qed.
End UsageFacts.

(** C5, as the code has it: for a definition, the usage table of the long
    form (of the short form) holds under the definition's key the body
    records on whose line the pattern of that form is found, each record
    once and in document order, however many matches its line has.  The
    pattern is found where the form, possibly with an "s" after it, stands
    between word boundaries, letter case apart. *)
Theorem usage_one_record_per_line {Path : Type}
    (entries : list (@entry Path)) (acronym_defs : list (str * @acronym_def Path))
    (key : str) (data : @acronym_def Path) :
  NoDup acronym_defs.*1 ->
  dict_get acronym_defs key = Some data ->
  let r := scan_acronyms entries acronym_defs in
  let content_entries := content_from false entries in
  default [] (dict_get (used_full r) key)
  = filter (fun e => usage_found (full data) e.2 = true) content_entries
  /\ default [] (dict_get (used_short r) key)
     = filter (fun e => usage_found (short data) e.2 = true) content_entries
  /\ (forall w line, usage_found w line = true <-> exists i, usage_at w line i).
Proof.
  intros Hnd Hget. cbv zeta.
  rewrite used_full_scan, used_short_scan, scan_usage_events. cbn [fst snd].
  split_and!.
  - by apply usage_get.
  - by apply usage_get.
  - apply usage_found_spec.
Qed.

Lemma usage_one_record_per_line_witness :
  NoDup vae_defs.*1
  /\ dict_get vae_defs (txt "vae")
     = Some (AcronymDef (txt "VAE") (txt "Variational Autoencoder")
               (sample_root (txt "main.tex")) 1)
  /\ default [] (dict_get (used_full (scan_acronyms vae_twice vae_defs)) (txt "vae"))
     = filter (fun e => usage_found (txt "Variational Autoencoder") e.2 = true)
              (content_from false vae_twice).
Proof.
  assert (NoDup vae_defs.*1) as Hnd by (apply NoDup_singleton).
  assert (dict_get vae_defs (txt "vae")
          = Some (AcronymDef (txt "VAE") (txt "Variational Autoencoder")
                    (sample_root (txt "main.tex")) 1)) as Hget
    by (vm_compute; reflexivity).
  split; [exact Hnd|]. split; [exact Hget|].
  exact (proj1 (usage_one_record_per_line vae_twice vae_defs (txt "vae") _ Hnd Hget)).
Defined.

(** C5, as stated, fails: the line has two matches of the short-form
    pattern and two of the long-form pattern, and each usage table holds
    the line once. *)
Lemma usage_recorded_once_per_line :
  length (finditer true (usage_pattern (txt "VAE")) vae_twice_line) = 2
  /\ length (finditer true (usage_pattern (txt "Variational Autoencoder")) vae_twice_line) = 2
  /\ used_short (scan_acronyms vae_twice vae_defs)
     = [(txt "vae", [(sample_root (txt "main.tex"), 2, vae_twice_line)])]
  /\ used_full (scan_acronyms vae_twice vae_defs)
     = [(txt "vae", [(sample_root (txt "main.tex"), 2, vae_twice_line)])].
Proof. split_and!; vm_compute; reflexivity. Qed.

(** ** The tokens in parentheses *)

Section TokenFacts.
Implicit Types (s rest line tok : str) (i j k n : nat).

Lemma take_while_prefix {A} (f : A -> bool) (l : list A) :
  take (length (take_while f l)) l = take_while f l.
Proof.
  induction l as [|x l IH]; [done|]. simpl. destruct (f x); [|done].
  simpl. by rewrite IH.
Qed.

Lemma take_while_inside {A} (f : A -> bool) (l : list A) k :
  k < length (take_while f l) -> exists x l', drop k l = x :: l' /\ f x = true.
Proof.
  revert k. induction l as [|x l IH]; intros k; simpl; [lia|].
  destruct (f x) eqn:Hx; simpl; [|lia].
  destruct k as [|k]; [by exists x, l|]. intros Hk. apply IH. lia.
Qed.

Lemma take_while_stop {A} (f : A -> bool) (l : list A) :
  match drop (length (take_while f l)) l with
  | x :: _ => f x = false
  | [] => True
  end.
Proof.
  induction l as [|x l IH]; [done|]. simpl. destruct (f x) eqn:Hx; [|done].
  simpl. apply IH.
Qed.

Lemma take_while_all {A} (f : A -> bool) (l : list A) :
  Forall (fun x => f x = true) (take_while f l).
Proof.
  induction l as [|x l IH]; simpl; [constructor|].
  destruct (f x) eqn:Hx; [by constructor | constructor].
Qed.

Lemma run_length_upper (hi : nat) rest :
  run_length false (ACls Py.isupper) (Some hi) rest
  = Nat.min hi (length (take_while Py.isupper rest)).
Proof.
  revert hi. induction rest as [|x rest IH]; intros [|hi]; try done.
  cbn [run_length atom_match take_while]. destruct (Py.isupper x); [|done].
  cbn [fmap option_fmap option_map Init.Nat.pred length]. by rewrite IH.
Qed.

(** A greedy repetition, when the rest of the pattern fails after fewer
    than [n] items: the only count that can work is [n]. *)
Lemma bind_counts_down_lo {B} (h : nat -> list B) lo n :
  (forall k, k < n -> h k = []) ->
  counts_down lo n ≫= h = if lo <=? n then h n else [].
Proof.
  intros Hh.
  assert (forall m, m < n -> counts_down lo m ≫= h = []) as Hnil.
  { induction m as [|m IH]; intros Hm.
    - cbn. destruct lo; [|done]. cbn. by rewrite Hh, app_nil_r by lia.
    - cbn [counts_down]. destruct (S m <? lo); [done|].
      rewrite bind_cons, Hh, IH by lia. done. }
  destruct n as [|n].
  - cbn. destruct lo; [|done]. cbn. by rewrite app_nil_r.
  - cbn [counts_down].
    destruct (Nat.ltb_spec (S n) lo), (Nat.leb_spec lo (S n)); try lia; [done|].
    rewrite bind_cons, Hnil, app_nil_r by lia. done.
Qed.

Lemma upper_not_paren x : Py.isupper x = true -> x <> ")"%char /\ x <> "("%char.
Proof. by destruct x as [[] [] [] [] [] [] [] []]. Qed.

Lemma run_grp ic (r : re) s i (g : list str) :
  run ic (Grp r) s (i, g)
  = (fun '(j, g') => (j, g' ++ [take (j - i) (drop i s)])) <$> run ic r s (i, g).
Proof. done. Qed.

(** The match of the pattern of line 101 at a position. *)
Lemma match_at_paren s i :
  match_at false paren_pattern s i
  = (fun tok => MatchObj i (i + length tok + 2) [tok]) <$> token_at s i.
Proof.
  unfold match_at, token_at, paren_pattern. cbn [seqs foldr].
  rewrite run_seq, run_chr.
  destruct (drop i s) as [|c rest] eqn:Hd; [done|].
  cbn [atom_match]. destruct (bool_decide (c = "("%char)); [|done].
  cbn [andb]. rewrite bind_singleton, run_seq.
  pose proof (drop_S_tail _ _ _ _ Hd) as Hrest.
  set (tok := take_while Py.isupper rest).
  set (h := fun k : nat =>
              match drop k rest with
              | x :: _ => if bool_decide (x = ")"%char)
                          then [(S (S i + k), [take k rest])] else []
              | [] => @nil mstate
              end).
  assert (run false (Grp (Rep (ACls Py.isupper) 2 (Some 10))) s (S i, [])
            ≫= run false (Seq (Chr (ALit ")")) Eps) s
          = counts_down 2 (Nat.min 10 (length tok)) ≫= h) as ->.
  { rewrite run_grp, run_rep, Hrest, run_length_upper. fold tok.
    rewrite <- list_fmap_compose, list_fmap_bind. apply list_bind_ext; [|done].
    intros k. unfold compose. cbv beta iota.
    rewrite run_seq, run_chr, <- drop_drop, Hrest.
    replace (S i + k - S i) with k by lia. subst h. cbv beta.
    destruct (drop k rest) as [|x l]; [done|]. cbn [atom_match app].
    destruct (bool_decide (x = ")"%char)); [|done].
    by rewrite bind_singleton, run_eps. }
  assert (forall k, k < length tok -> h k = []) as Hh.
  { intros k Hk. destruct (take_while_inside _ _ _ Hk) as (x & l & Hx & Hup).
    subst h. cbn. rewrite Hx. apply upper_not_paren in Hup as [Hne _].
    by rewrite bool_decide_eq_false_2. }
  rewrite bind_counts_down_lo by (intros k Hk; apply Hh; lia).
  destruct (Nat.leb_spec 2 (length tok)) as [H2|H2]; cbn [andb].
  2: { by destruct (Nat.leb_spec 2 (Nat.min 10 (length tok))); [lia|]. }
  destruct (Nat.leb_spec (length tok) 10) as [H10|H10]; cbn [andb].
  - rewrite Nat.min_r by lia. destruct (Nat.leb_spec 2 (length tok)); [|lia].
    subst h. cbn beta.
    assert (take (length tok) rest = tok) as -> by apply take_while_prefix.
    destruct (drop (length tok) rest) as [|x l]; [done|]. cbn [head].
    destruct (decide (x = ")"%char)) as [->|Hne].
    + rewrite !bool_decide_eq_true_2 by done. cbn. do 3 f_equal. lia.
    + rewrite !bool_decide_eq_false_2 by congruence. done.
  - rewrite Nat.min_l by lia. cbn [Nat.leb]. by rewrite Hh by lia.
Qed.

Lemma isupper_not_space x : Py.isupper x = true -> Py.isspace x = false.
Proof. by destruct x as [[] [] [] [] [] [] [] []]. Qed.

Lemma lstrip_id s :
  match s with x :: _ => Py.isspace x = false | [] => True end -> Py.lstrip s = s.
Proof. destruct s as [|x s]; [done|]. simpl. by intros ->. Qed.

Lemma strip_upper tok : Forall (fun c => Py.isupper c = true) tok -> Py.strip tok = tok.
Proof.
  intros Hup. unfold Py.strip, Py.rstrip.
  rewrite (lstrip_id tok).
  - rewrite lstrip_id; [apply rev_involutive|].
    apply Forall_rev in Hup. destruct (rev tok) as [|x l]; [done|].
    apply isupper_not_space. by inversion Hup.
  - destruct Hup as [|x l Hx _]; [done|]. by apply isupper_not_space.
Qed.

(** [token_at] finds what [paren_token_at] describes. *)
Lemma token_at_spec line i tok :
  token_at line i = Some tok <-> paren_token_at line i tok.
Proof.
  unfold token_at, paren_token_at. split.
  - destruct (drop i line) as [|c rest]; [done|]. cbv zeta.
    destruct (decide (c = "("%char)) as [->|Hne];
      [rewrite bool_decide_eq_true_2 by done | by rewrite bool_decide_eq_false_2].
    cbn [andb].
    destruct (Nat.leb_spec 2 (length (take_while Py.isupper rest))); [|done].
    destruct (Nat.leb_spec (length (take_while Py.isupper rest)) 10); [|done].
    cbn [andb]. destruct (bool_decide (_ = Some ")"%char)) eqn:Hclose; [|done].
    apply bool_decide_eq_true in Hclose. intros [= <-].
    split_and!; [done | done | apply take_while_all |].
    rewrite Nat.add_comm. cbn [Nat.add take txt list_ascii_of_string app]. f_equal.
    rewrite head_lookup, lookup_drop, Nat.add_0_r in Hclose.
    by rewrite (take_S_r _ _ _ Hclose), take_while_prefix.
  - intros ((H2 & H10) & Hup & Htake).
    destruct (drop i line) as [|c rest]; [by rewrite take_nil in Htake|].
    rewrite Nat.add_comm in Htake. cbn [Nat.add take txt list_ascii_of_string app] in Htake.
    injection Htake as -> Htake.
    assert (rest = (tok ++ [")"%char]) ++ drop (length tok + 1) rest) as Hrest.
    { rewrite Nat.add_comm, <- Htake. by rewrite take_drop. }
    assert (take_while Py.isupper rest = tok) as Htok.
    { rewrite Hrest, <- app_assoc. apply take_while_app; [done|]. done. }
    cbv zeta. rewrite Htok, bool_decide_eq_true_2 by done. cbn [andb].
    destruct (Nat.leb_spec 2 (length tok)); [|lia].
    destruct (Nat.leb_spec (length tok) 10); [|lia]. cbn [andb].
    rewrite bool_decide_eq_true_2; [done|].
    rewrite Hrest, <- app_assoc, drop_app_length. done.
Qed.

Lemma omap_seq_none {B} (f : nat -> option B) a n :
  (forall k, a <= k < a + n -> f k = None) -> omap f (seq a n) = [].
Proof.
  revert a. induction n as [|n IH]; intros a Hf; [done|].
  cbn. rewrite Hf by lia. apply IH. intros k Hk. apply Hf. lia.
Qed.

Lemma omap_app_list {A B} (f : A -> option B) (l1 l2 : list A) :
  omap f (l1 ++ l2) = omap f l1 ++ omap f l2.
Proof.
  induction l1 as [|x l1 IH]; [done|]. cbn. destruct (f x); cbn; by rewrite IH.
Qed.

(** Skipping positions that hold no match, and positions past the end,
    does not change what a scan from left to right collects. *)
Lemma omap_seq_skip {B} (f : nat -> option B) len a b n :
  a <= b ->
  (forall k, a <= k < b -> f k = None) ->
  (forall k, len < k -> f k = None) ->
  len < a + n ->
  omap f (seq a n) = omap f (seq b n).
Proof.
  intros Hab Hgap Hpast Hlen.
  destruct (Nat.le_gt_cases (b - a) n) as [Hd|Hd].
  - replace n with ((b - a) + (n - (b - a))) at 1 by lia.
    replace n with ((n - (b - a)) + (b - a)) at 2 by lia.
    rewrite !seq_app, !omap_app_list.
    rewrite (omap_seq_none f a) by (intros k Hk; apply Hgap; lia).
    rewrite (omap_seq_none f (b + _)) by (intros k Hk; apply Hpast; lia).
    rewrite app_nil_r. cbn. f_equal. f_equal. lia.
  - rewrite !omap_seq_none; [done | |].
    + intros k Hk. apply Hpast. lia.
    + intros k Hk. apply Hgap. lia.
Qed.

(** When matches are not empty and none starts inside another, the
    successive matches are the matches at all positions. *)
Lemma finditer_from_positions ic (r : re) s n i :
  (forall i m, match_at ic r s i = Some m ->
     i < m_end m /\ forall k, i < k < m_end m -> match_at ic r s k = None) ->
  (forall k, length s < k -> match_at ic r s k = None) ->
  length s <= i + n ->
  finditer_from ic r s n i = omap (match_at ic r s) (seq i (S n)).
Proof.
  intros Hinside Hpast. revert i. induction n as [|n IH]; intros i Hlen.
  - cbn. by destruct (match_at ic r s i).
  - cbn [finditer_from].
    change (omap (match_at ic r s) (seq i (S (S n))))
      with (match match_at ic r s i with
            | Some m => m :: omap (match_at ic r s) (seq (S i) (S n))
            | None => omap (match_at ic r s) (seq (S i) (S n))
            end).
    destruct (match_at ic r s i) as [m|] eqn:Hm.
    + destruct (Hinside i m Hm) as [Hend Hgap]. f_equal.
      rewrite Nat.max_l by lia. rewrite IH by lia.
      symmetry. apply (omap_seq_skip _ (length s)); [lia | | done | lia].
      intros k Hk. apply Hgap. lia.
    + apply IH. lia.
Qed.

Lemma token_at_first line i tok :
  token_at line i = Some tok -> exists rest, drop i line = "("%char :: rest.
Proof.
  unfold token_at. destruct (drop i line) as [|c rest]; [done|].
  destruct (decide (c = "("%char)) as [->|Hne]; [by exists rest|].
  by rewrite bool_decide_eq_false_2.
Qed.

(** No token starts inside another. *)
Lemma token_at_inside line i tok k :
  token_at line i = Some tok -> i < k < i + length tok + 2 -> token_at line k = None.
Proof.
  intros Htok Hk. destruct (token_at line k) as [tok'|] eqn:Hk'; [|done].
  apply token_at_first in Hk' as (rest & Hd).
  apply token_at_spec in Htok as (_ & Hup & Htake).
  assert (drop i line !! (k - i) = Some "("%char) as Hl.
  { rewrite lookup_drop. replace (i + (k - i)) with (k + 0) by lia.
    by rewrite <- lookup_drop, Hd. }
  rewrite <- (lookup_take_lt _ (length tok + 2)), Htake in Hl by lia.
  destruct (k - i) as [|d] eqn:Hdk; [lia|]. cbn in Hl.
  apply list_elem_of_lookup_2, elem_of_app in Hl as [Hin|Hin%list_elem_of_singleton];
    [|done].
  rewrite Forall_forall in Hup. by destruct (upper_not_paren _ (Hup _ Hin)).
Qed.

Lemma token_at_past line k : length line < k -> token_at line k = None.
Proof. intros Hk. unfold token_at. by rewrite drop_ge by lia. Qed.

(** The tokens read on a line are the tokens that stand in parentheses at
    its positions, from left to right. *)
Lemma line_tokens_spec line :
  line_tokens line = omap (token_at line) (seq 0 (S (length line))).
Proof.
  unfold line_tokens, findall1, finditer.
  rewrite finditer_from_positions; [| | |lia].
  - induction (seq 0 (S (length line))) as [|i l IH]; [done|].
    cbn [omap list_omap]. rewrite match_at_paren.
    destruct (token_at line i) as [tok|] eqn:Htok; [|done].
    cbn. rewrite <- IH. f_equal.
    apply strip_upper. by apply token_at_spec in Htok as (_ & ? & _).
  - intros i m. rewrite match_at_paren.
    destruct (token_at line i) as [tok|] eqn:Htok; [|done]. intros [= <-]. cbn.
    split; [lia|]. intros k Hk. rewrite match_at_paren.
    by rewrite (token_at_inside line i tok k).
  - intros k Hk. by rewrite match_at_paren, token_at_past.
Qed.
End TokenFacts.

(** C2: for a parenthesised token that is neither a defined short form nor
    a Roman numeral, the undefined-acronym list of the report holds no
    record of the token when it occurs exactly once in the body, and holds
    one record for each of its occurrences, in document order, when it
    occurs twice or more.  The occurrences counted on a line are the
    places where "(", 2 to 10 upper-case letters and ")" stand in the
    line, read from left to right. *)
Theorem undefined_noise_filter {Path : Type}
    (entries : list (@entry Path)) (acronym_defs : list (str * @acronym_def Path))
    (tok : str) :
  tok ∉ defined_shorts_of acronym_defs ->
  tok ∉ roman_numerals ->
  let occs := token_occurrences tok (content_from false entries) in
  let found_undefined := undefined (scan_acronyms entries acronym_defs) in
  (length occs = 1 -> forall x, x ∈ found_undefined -> token_of x <> tok)
  /\ (2 <= length occs ->
      filter (fun x => token_of x = tok) found_undefined = tagged tok <$> occs)
  /\ (forall line, line_tokens line = omap (token_at line) (seq 0 (S (length line))))
  /\ (forall line i t, token_at line i = Some t <-> paren_token_at line i t).
Proof.
  intros Hds Hrom occs found_undefined.
  pose proof (filter_undefined_scan entries acronym_defs tok) as Hf.
  assert (qualifies (defined_shorts_of acronym_defs) tok = true) as Hq.
  { unfold qualifies. by rewrite !bool_decide_eq_true_2. }
  rewrite Hq in Hf. cbv zeta in Hf. fold occs found_undefined in Hf.
  split_and!; [| | apply line_tokens_spec | apply token_at_spec].
  - intros Hone x Hin Htok. rewrite Hone in Hf. cbn in Hf.
    assert (x ∈ filter (fun x => token_of x = tok) found_undefined) as Hx
      by (by apply list_elem_of_filter).
    rewrite Hf in Hx. by apply elem_of_nil in Hx.
  - intros Htwo. rewrite Hf. by destruct (Nat.leb_spec 2 (length occs)); [|lia].
Qed.

Lemma undefined_noise_filter_witness :
  (txt "AIT" ∉ defined_shorts_of (@nil (str * (@acronym_def str))))
  /\ (txt "AIT" ∉ roman_numerals)
  /\ length (token_occurrences (txt "AIT") (content_from false double_ait)) = 2
  /\ filter (fun x => token_of x = txt "AIT") (undefined (scan_acronyms double_ait []))
     = tagged (txt "AIT") <$> token_occurrences (txt "AIT") (content_from false double_ait)
  /\ length (token_occurrences (txt "NASA") (content_from false double_ait)) = 1
  /\ forall x, x ∈ undefined (scan_acronyms double_ait []) -> token_of x <> txt "NASA".
Proof.
  assert (forall tok : str, tok ∉ defined_shorts_of (@nil (str * (@acronym_def str))))
    as Hds by (intros tok; apply not_elem_of_empty).
  assert (txt "AIT" ∉ roman_numerals) as Hr1
    by (apply (bool_decide_unpack (txt "AIT" ∉ roman_numerals)); vm_compute; exact I).
  assert (txt "NASA" ∉ roman_numerals) as Hr2
    by (apply (bool_decide_unpack (txt "NASA" ∉ roman_numerals)); vm_compute; exact I).
  assert (length (token_occurrences (txt "AIT") (content_from false double_ait)) = 2)
    as H2 by (vm_compute; reflexivity).
  assert (length (token_occurrences (txt "NASA") (content_from false double_ait)) = 1)
    as H1 by (vm_compute; reflexivity).
  split; [exact (Hds _)|]. split; [exact Hr1|]. split; [exact H2|].
  split.
  - apply (proj1 (proj2 (undefined_noise_filter double_ait [] (txt "AIT") (Hds _) Hr1))).
    rewrite H2. lia.
  - split; [exact H1|].
    exact (proj1 (undefined_noise_filter double_ait [] (txt "NASA") (Hds _) Hr2) H1).
Defined.


(** * Further properties of the code *)

(** ** Stripping *)

Section StripFacts.
Implicit Types (s t : str) (c : ascii).

Lemma lstrip_head s :
  match Py.lstrip s with c :: _ => Py.isspace c = false | [] => True end.
Proof.
  induction s as [|x s IH]; [done|]. simpl. by destruct (Py.isspace x) eqn:Hx.
Qed.

Lemma lstrip_suffix s : exists pre, s = pre ++ Py.lstrip s
                                    /\ Forall (fun c => Py.isspace c = true) pre.
Proof.
  induction s as [|x s (pre & Heq & Hpre)]; [by exists []|]. simpl.
  destruct (Py.isspace x) eqn:Hx.
  - exists (x :: pre). split; [simpl; by f_equal | by constructor].
  - by exists [].
Qed.

Lemma rstrip_prefix s : exists post, s = Py.rstrip s ++ post
                                     /\ Forall (fun c => Py.isspace c = true) post.
Proof.
  unfold Py.rstrip. destruct (lstrip_suffix (rev s)) as (pre & Heq & Hpre).
  exists (rev pre). split.
  - rewrite <- rev_app_distr, <- Heq. by rewrite rev_involutive.
  - by apply Forall_rev.
Qed.

Lemma rstrip_last s :
  match last (Py.rstrip s) with Some c => Py.isspace c = false | None => True end.
Proof.
  unfold Py.rstrip. rewrite last_rev_head, rev_involutive.
  pose proof (lstrip_head (rev s)) as Hh. by destruct (Py.lstrip (rev s)).
Qed.

Lemma rstrip_head s :
  match s with c :: _ => Py.isspace c = false | [] => True end ->
  match Py.rstrip s with c :: _ => Py.isspace c = false | [] => True end.
Proof.
  intros Hs. destruct (rstrip_prefix s) as (post & Heq & Hpost).
  destruct (Py.rstrip s) as [|c r] eqn:Hr; [done|].
  rewrite Heq in Hs. done.
Qed.

Lemma strip_trimmed s : trimmed (Py.strip s).
Proof.
  split; [apply rstrip_head, lstrip_head | apply rstrip_last].
Qed.

Lemma rstrip_id s :
  match last s with Some c => Py.isspace c = false | None => True end ->
  Py.rstrip s = s.
Proof.
  intros Hs. unfold Py.rstrip. rewrite lstrip_id; [apply rev_involutive|].
  rewrite last_rev_head in Hs. by destruct (rev s).
Qed.

Lemma strip_id s : trimmed s -> Py.strip s = s.
Proof.
  intros [Hh Hl]. unfold Py.strip. rewrite (lstrip_id s Hh). by apply rstrip_id.
Qed.

Lemma strip_strip s : Py.strip (Py.strip s) = Py.strip s.
Proof. apply strip_id, strip_trimmed. Qed.

(** [s.strip()] is [s] without a blank prefix and a blank suffix. *)
Lemma strip_middle s :
  exists pre post, s = pre ++ Py.strip s ++ post
                   /\ Forall (fun c => Py.isspace c = true) pre
                   /\ Forall (fun c => Py.isspace c = true) post.
Proof.
  destruct (lstrip_suffix s) as (pre & Heq & Hpre).
  destruct (rstrip_prefix (Py.lstrip s)) as (post & Heq' & Hpost).
  exists pre, post. split; [|done]. unfold Py.strip. by rewrite <- Heq'.
Qed.
End StripFacts.

(** ** More on the loader *)

Section LoaderMore.
Context {Path : Type} `{Countable Path}.
Variable root_join : str -> Path.
Variable fs : gmap Path file.

Lemma startswith_app (p s : str) : Py.startswith (p ++ s) p = true.
Proof.
  induction p as [|a p IH]; [by destruct s|]. cbn [app Py.startswith].
  by destruct (decide (a = a)).
Qed.

Lemma endswith_app (s p : str) : Py.endswith (s ++ p) p = true.
Proof. unfold Py.endswith. rewrite rev_app_distr. apply startswith_app. Qed.

Lemma trimmed_app_tex (s : str) : trimmed s -> trimmed (s ++ txt ".tex").
Proof.
  intros [Hh _]. split.
  - by destruct s.
  - change (txt ".tex") with (txt ".te" ++ ["x"%char]).
    by rewrite app_assoc, last_snoc.
Qed.

Lemma include_target_trimmed (m : str) : trimmed (include_target m).
Proof.
  unfold include_target.
  destruct (Py.endswith (Py.strip m) (txt ".tex")); cbn [negb].
  - apply strip_trimmed.
  - apply trimmed_app_tex, strip_trimmed.
Qed.

Lemma include_target_endswith (m : str) :
  Py.endswith (include_target m) (txt ".tex") = true.
Proof.
  unfold include_target.
  destruct (Py.endswith (Py.strip m) (txt ".tex")) eqn:He; cbn [negb]; [done|].
  apply endswith_app.
Qed.

(** Every record of a finished load is a line of an existing file. *)
Lemma loaded_record (seen seen' : gset Path) (es : list (@entry Path)) (e : @entry Path) :
  loaded fs seen es seen' -> e ∈ es ->
  exists lines line,
    fs !! e.1.1 = Some (Readable lines)
    /\ 1 <= e.1.2
    /\ lines !! (e.1.2 - 1) = Some line
    /\ e.2 = Py.strip line.
Proof.
  intros (_ & He & Hp) Hin. destruct (He e Hin) as [Hy Hn].
  destruct (Hp _ Hy Hn) as (lines & Hfs & Hrec). exists lines.
  assert (e ∈ file_records e.1.1 1 lines) as Hfr.
  { rewrite <- Hrec. by apply list_elem_of_filter. }
  clear -Hfr Hfs.
  assert (forall i, e ∈ file_records e.1.1 i lines ->
            exists line, i <= e.1.2 /\ lines !! (e.1.2 - i) = Some line
                         /\ e.2 = Py.strip line) as Hgen.
  { clear. induction lines as [|l lines IH]; intros i; [by intros ?%elem_of_nil|].
    cbn [file_records]. intros [->|Hin]%elem_of_cons.
    - exists l. cbn. by rewrite Nat.sub_diag.
    - destruct (IH _ Hin) as (line & Hi & Hl & Hs). exists line.
      split_and!; [lia | | done].
      replace (e.1.2 - i) with (S (e.1.2 - S i)) by lia. done. }
  destruct (Hgen 1 Hfr) as (line & ? & ? & ?). by exists line.
Qed.
End LoaderMore.

Section LoaderMore2.
Context {Path : Type} `{Countable Path}.
Variable root_join : str -> Path.
Variable fs : gmap Path file.

(** Whatever the fuel, a load that returns has [loaded] its records. *)
Lemma read_latex_recursive_loaded fuel filename es (seen' : gset Path) :
  read_latex_recursive root_join fuel fs filename None = Ok (es, seen') ->
  loaded fs ∅ es seen'.
Proof.
  unfold read_latex_recursive. intros Hr.
  pose proof (read_latex_from_mono root_join fs fuel (fuel + S (size fs)) filename ∅
                ltac:(lia) ltac:(by rewrite Hr)) as Hm.
  pose proof (read_latex_from_ends_well root_join fs (fuel + S (size fs)) filename ∅) as Hw.
  rewrite Hm, Hr in Hw. apply Hw.
  unfold unread. rewrite difference_empty_L, size_dom. lia.
Qed.

Lemma finditer_from_none ic (r : re) (s : str) n i :
  (forall k, match_at ic r s k = None) -> finditer_from ic r s n i = [].
Proof.
  intros Hnone. revert i. induction n as [|n IH]; intros i; cbn [finditer_from];
    rewrite Hnone; [done | apply IH].
Qed.

(** A line without a backslash carries no inclusion directive. *)
Lemma findall_include_none (line : str) :
  "\"%char ∉ line -> findall1 false include_pattern line = [].
Proof.
  intros Hno. unfold findall1, finditer. rewrite finditer_from_none; [done|].
  intros k. unfold match_at, include_pattern. cbn [seqs foldr].
  rewrite run_seq, run_chr.
  destruct (drop k line) as [|x rest] eqn:Hd; [done|].
  cbn [atom_match]. rewrite bool_decide_eq_false_2; [done|].
  intros ->. apply Hno. apply (subseteq_drop k line). rewrite Hd. left.
Qed.

Lemma load_lines_plain (rec : str -> gset Path -> outcome (list (@entry Path) * gset Path))
    path i (lines : list str) (seen : gset Path) :
  Forall (fun l => "\"%char ∉ l) lines ->
  load_lines rec path i lines seen = Ok (file_records path i lines, seen).
Proof.
  intros Hplain. revert i. induction Hplain as [|l lines Hl _ IH]; intros i; [done|].
  cbn [load_lines file_records]. rewrite (findall_include_none l Hl).
  cbn [load_includes]. cbn. by rewrite IH.
Qed.
End LoaderMore2.

(** X1: the file name the loader derives from an inclusion directive
    always ends in ".tex" and has no blank at either end; deriving it again
    from the result changes nothing, so a name that already carries the
    extension is not extended twice. *)
Theorem include_target_tex (m : str) :
  Py.endswith (include_target m) (txt ".tex") = true
  /\ trimmed (include_target m)
  /\ include_target (include_target m) = include_target m.
Proof.
  split_and!.
  - apply include_target_endswith.
  - apply include_target_trimmed.
  - unfold include_target at 1.
    rewrite (strip_id _ (include_target_trimmed m)), include_target_endswith. done.
Qed.

(** X2: every record the loader returns is a line of an existing,
    readable file: its number is at least 1, its text is the line of that
    number, stripped, and stripping the text again changes nothing. *)
Theorem loader_records_are_stripped_lines {Path : Type} `{Countable Path}
    (root_join : str -> Path) (fs : gmap Path file) (filename : str) (fuel : nat)
    (es : list (@entry Path)) :
  fst <$> read_latex_recursive root_join fuel fs filename None = Ok es ->
  forall e, e ∈ es ->
    (exists lines line,
        fs !! e.1.1 = Some (Readable lines)
        /\ 1 <= e.1.2
        /\ lines !! (e.1.2 - 1) = Some line
        /\ e.2 = Py.strip line)
    /\ Py.strip e.2 = e.2.
Proof.
  intros Hr e Hin.
  destruct (read_latex_recursive root_join fuel fs filename None)
    as [[es' seen']| |] eqn:Hres; [|done..].
  injection Hr as ->. apply read_latex_recursive_loaded in Hres.
  destruct (loaded_record fs _ _ _ e Hres Hin) as (lines & line & Hfs & Hn & Hl & Hs).
  split; [by exists lines, line|]. rewrite Hs. apply strip_strip.
Qed.

Lemma loader_records_are_stripped_lines_witness :
  fst <$> read_latex_recursive sample_root 4 cyclic_tree (txt "main.tex") None
  = Ok [(sample_root (txt "main.tex"), 1, txt "\input{main} first");
        (sample_root (txt "main.tex"), 2, txt "\include{a}");
        (sample_root (txt "a.tex"), 1, txt "\input{main.tex}\input{b}\input{missing} in a");
        (sample_root (txt "b.tex"), 1, txt "\input{b}\input{a} in b");
        (sample_root (txt "a.tex"), 2, txt "end of a");
        (sample_root (txt "main.tex"), 3, txt "last")]
  /\ Py.strip (txt "\include{a}") = txt "\include{a}".
Proof.
  assert (fst <$> read_latex_recursive sample_root 4 cyclic_tree (txt "main.tex") None
          = Ok [(sample_root (txt "main.tex"), 1, txt "\input{main} first");
                (sample_root (txt "main.tex"), 2, txt "\include{a}");
                (sample_root (txt "a.tex"), 1, txt "\input{main.tex}\input{b}\input{missing} in a");
                (sample_root (txt "b.tex"), 1, txt "\input{b}\input{a} in b");
                (sample_root (txt "a.tex"), 2, txt "end of a");
                (sample_root (txt "main.tex"), 3, txt "last")]) as Hr
    by (vm_compute; reflexivity).
  split; [exact Hr|].
  refine (proj2 (loader_records_are_stripped_lines sample_root cyclic_tree (txt "main.tex")
                   4 _ Hr (sample_root (txt "main.tex"), 2, txt "\include{a}") _)).
  right. left.
Defined.

(** X3: a readable file none of whose lines holds a backslash is loaded as
    its own lines alone, numbered from 1 and stripped; no other file is
    visited. *)
Theorem plain_file_loads_own_lines {Path : Type} `{Countable Path}
    (root_join : str -> Path) (fs : gmap Path file) (filename : str) (fuel : nat)
    (lines : list str) :
  fs !! root_join filename = Some (Readable lines) ->
  Forall (fun l => "\"%char ∉ l) lines ->
  read_latex_recursive root_join (S fuel) fs filename None
  = Ok (file_records (root_join filename) 1 lines, {[root_join filename]}).
Proof.
  intros Hfs Hplain. unfold read_latex_recursive. cbn [read_latex_from].
  rewrite Hfs, bool_decide_eq_false_2 by apply not_elem_of_empty.
  rewrite bool_decide_eq_true_2 by done. cbn [orb negb].
  rewrite load_lines_plain by done. by rewrite (right_id_L ∅ (∪)).
Qed.

Lemma plain_file_loads_own_lines_witness :
  read_latex_recursive sample_root 1 plain_tree (txt "plain.tex") None
  = Ok ([(sample_root (txt "plain.tex"), 1, txt "one");
         (sample_root (txt "plain.tex"), 2, txt "two")],
        {[sample_root (txt "plain.tex")]}).
Proof.
  apply (plain_file_loads_own_lines sample_root plain_tree (txt "plain.tex") 0
           [txt "  one " ++ nl; txt "two"]).
  - apply lookup_insert_eq.
  - repeat constructor; apply (bool_decide_unpack _); vm_compute; reflexivity.
Defined.

Section ExtractorFacts.
Implicit Types (s w a : str) (i j : nat) (g : list str) (r : re).

Lemma run_lit_cs w s i g :
  run false (lit w) s (i, g)
  = if Py.startswith (drop i s) w then [(i + length w, g)] else [].
Proof.
  revert i. induction w as [|c w IH]; intros i.
  - cbn [lit]. rewrite run_eps. cbn. rewrite Nat.add_0_r. by destruct (drop i s).
  - cbn [lit]. rewrite run_seq, run_chr. cbn [Py.startswith].
    destruct (drop i s) as [|x rest] eqn:Hd; [done|].
    cbn [atom_match]. destruct (decide (c = x)) as [->|Hne].
    + rewrite bool_decide_eq_true_2 by done.
      rewrite bind_singleton, IH, (drop_S_tail _ _ _ _ Hd).
      cbn [length Py.startswith]. destruct (decide (x = x)); [|done].
      destruct (Py.startswith rest w); [|done].
      do 2 f_equal. lia.
    + rewrite bool_decide_eq_false_2 by congruence.
      cbn [Py.startswith]. by destruct (decide (c = x)).
Qed.

Lemma run_length_cls (p : ascii -> bool) rest :
  run_length false (ACls p) None rest = length (take_while p rest).
Proof.
  induction rest as [|x rest IH]; [done|].
  cbn [run_length atom_match take_while]. destruct (p x); [|done].
  cbn [fmap option_fmap option_map length]. by rewrite IH.
Qed.

Lemma not_rbrace_spec (c : ascii) : not_rbrace c = true <-> c <> "}"%char.
Proof.
  unfold not_rbrace. rewrite negb_true_iff, bool_decide_eq_false. done.
Qed.

(** One argument in braces: the only way through it. *)
Lemma run_brace_arg s i g :
  run false brace_arg s (i, g)
  = match braced (drop i s) with
    | Some (a, _) => [(i + length a + 2, g ++ [a])]
    | None => []
    end.
Proof.
  unfold brace_arg, braced. cbn [seqs foldr].
  rewrite run_seq, run_chr.
  destruct (drop i s) as [|c rest] eqn:Hd; [done|].
  cbn [atom_match]. destruct (bool_decide (c = "{"%char)); [|done].
  cbn [andb]. rewrite bind_singleton, run_seq.
  pose proof (drop_S_tail _ _ _ _ Hd) as Hrest.
  set (a := take_while not_rbrace rest).
  set (h := fun k : nat =>
              match drop k rest with
              | x :: _ => if bool_decide (x = "}"%char)
                          then [(S (S i + k), g ++ [take k rest])] else []
              | [] => @nil mstate
              end).
  assert (run false (Grp (Rep (ACls not_rbrace) 1 None)) s (S i, g)
            ≫= run false (Seq (Chr (ALit "}")) Eps) s
          = counts_down 1 (length a) ≫= h) as ->.
  { rewrite run_grp, run_rep, Hrest, run_length_cls. fold a.
    rewrite <- list_fmap_compose, list_fmap_bind. apply list_bind_ext; [|done].
    intros k. unfold compose. cbv beta iota.
    rewrite run_seq, run_chr, <- drop_drop, Hrest.
    replace (S i + k - S i) with k by lia. subst h. cbv beta.
    destruct (drop k rest) as [|x l]; [done|]. cbn [atom_match].
    destruct (bool_decide (x = "}"%char)); [|done].
    by rewrite bind_singleton, run_eps. }
  assert (forall k, k < length a -> h k = []) as Hh.
  { intros k Hk. destruct (take_while_inside _ _ _ Hk) as (x & l & Hx & Hnr).
    subst h. cbn. rewrite Hx. apply not_rbrace_spec in Hnr.
    by rewrite bool_decide_eq_false_2. }
  rewrite bind_counts_down_lo by done.
  destruct (1 <=? length a); [|done]. subst h. cbn beta.
  assert (take (length a) rest = a) as -> by apply take_while_prefix.
  destruct (drop (length a) rest) as [|x l]; [done|]. cbn [head].
  destruct (decide (x = "}"%char)) as [->|Hne].
  - rewrite !bool_decide_eq_true_2 by done. do 2 f_equal. lia.
  - rewrite !bool_decide_eq_false_2 by congruence. done.
Qed.

Lemma braced_Some s a rest :
  braced s = Some (a, rest) <-> s = "{"%char :: a ++ "}"%char :: rest /\ brace_free a.
Proof.
  unfold braced, brace_free. split.
  - destruct s as [|c s]; [done|].
    set (a' := take_while not_rbrace s).
    pose proof (take_while_prefix not_rbrace s) as Hpre. fold a' in Hpre.
    pose proof (take_while_all not_rbrace s) as Hall. fold a' in Hall.
    destruct (bool_decide_reflect (c = "{"%char)) as [->|]; [|done].
    destruct (Nat.leb_spec 1 (length a')) as [Hlen|]; [|done].
    destruct (bool_decide_reflect (head (drop (length a') s) = Some "}"%char))
      as [Hhd|]; [|done].
    cbn [andb]. intros [= <- <-]. split_and!.
    + f_equal. rewrite <- (take_drop (length a') s) at 1. rewrite Hpre. f_equal.
      destruct (drop (length a') s) as [|x l] eqn:Hd; [done|].
      injection Hhd as ->. by rewrite (drop_S_tail _ _ _ _ Hd).
    + intros Hnil. rewrite Hnil in Hlen. cbn in Hlen. lia.
    + intros Hin. rewrite Forall_forall in Hall. apply Hall in Hin. done.
  - intros (-> & Hne & Hno).
    assert (take_while not_rbrace (a ++ "}"%char :: rest) = a) as Htw.
    { clear Hne. induction a as [|x a IH]; [done|]. cbn [app take_while].
      rewrite (proj2 (not_rbrace_spec x)) by (intros ->; apply Hno; left).
      rewrite IH; [done|]. intros Hin. apply Hno. by right. }
    rewrite Htw. rewrite bool_decide_eq_true_2 by done.
    destruct (Nat.leb_spec 1 (length a)) as [_|Hlen];
      [|destruct a; [done | cbn in Hlen; lia]].
    rewrite drop_app_length. cbn [head]. rewrite bool_decide_eq_true_2 by done.
    cbn [andb]. do 2 f_equal.
    change (drop (S (length a)) (a ++ "}"%char :: rest)) with
      (drop (S (length a)) (a ++ ["}"%char] ++ rest)).
    rewrite app_assoc. rewrite <- (drop_app_length (a ++ ["}"%char]) rest) at 2.
    f_equal. rewrite length_app. cbn. lia.
Qed.

Lemma braced_rest s j a rest :
  braced (drop j s) = Some (a, rest) -> drop (j + length a + 2) s = rest.
Proof.
  intros [Hd _]%braced_Some.
  rewrite <- Nat.add_assoc, <- drop_drop, Hd. cbn [drop].
  replace (length a + 2) with (S (length a + 1)) by lia. cbn [drop].
  change (a ++ "}"%char :: rest) with (a ++ ["}"%char] ++ rest).
  rewrite app_assoc. rewrite <- (drop_app_length (a ++ ["}"%char]) rest) at 2.
  f_equal. rewrite length_app. cbn. lia.
Qed.

(** The match of the definition pattern at a position. *)
Lemma match_at_newacronym s i :
  match_at false newacronym_pattern s i
  = (fun '(key, sh, fu) =>
       MatchObj i (i + 17 + length key + length sh + length fu) [key; sh; fu])
    <$> newacronym_at s i.
Proof.
  unfold match_at, newacronym_at, newacronym_pattern. cbn [seqs foldr].
  rewrite run_seq, run_chr.
  change (txt "\newacronym") with ("\"%char :: txt "newacronym").
  destruct (drop i s) as [|c rest] eqn:Hd; [done|].
  cbn [atom_match Py.startswith].
  destruct (decide ("\"%char = c)) as [<-|Hne];
    [rewrite bool_decide_eq_true_2 by done
    |by rewrite bool_decide_eq_false_2 by congruence].
  rewrite bind_singleton, run_seq, run_lit_cs, (drop_S_tail _ _ _ _ Hd).
  destruct (Py.startswith rest (txt "newacronym")); [|done].
  rewrite bind_singleton, run_seq, run_brace_arg.
  replace (S i + length (txt "newacronym")) with (i + 11) by (cbn; lia).
  destruct (braced (drop (i + 11) s)) as [[key r1]|] eqn:H1; [|done].
  apply braced_rest in H1 as <-.
  rewrite bind_singleton, run_seq, run_brace_arg.
  cbn [mbind option_bind].
  destruct (braced (drop (i + 11 + length key + 2) s)) as [[sh r2]|] eqn:H2; [|done].
  apply braced_rest in H2 as <-.
  rewrite bind_singleton, run_seq, run_brace_arg.
  cbn [mbind option_bind].
  destruct (braced (drop (i + 11 + length key + 2 + length sh + 2) s))
    as [[fu r3]|] eqn:H3; [|done].
  rewrite bind_singleton, run_eps. cbn. do 2 f_equal. lia.
Qed.

Lemma search_from_Some ic r s n i m :
  search_from ic r s n i = Some m ->
  exists k, k <= n /\ match_at ic r s (i + k) = Some m
            /\ forall k', k' < k -> match_at ic r s (i + k') = None.
Proof.
  revert i. induction n as [|n IH]; intros i; cbn [search_from];
    destruct (match_at ic r s i) as [m'|] eqn:Hm.
  - intros [= ->]. exists 0. rewrite Nat.add_0_r. split_and!; [lia|done|lia].
  - done.
  - intros [= ->]. exists 0. rewrite Nat.add_0_r. split_and!; [lia|done|lia].
  - intros (k & Hk & Hat & Hbefore)%IH. exists (S k).
    rewrite Nat.add_succ_r. split_and!; [lia|done|].
    intros [|k'] Hk'; [by rewrite Nat.add_0_r|].
    rewrite Nat.add_succ_r. apply Hbefore. lia.
Qed.

Lemma search_from_skip ic r s n i k m :
  k <= n ->
  (forall k', k' < k -> match_at ic r s (i + k') = None) ->
  match_at ic r s (i + k) = Some m ->
  search_from ic r s n i = Some m.
Proof.
  revert n i. induction k as [|k IH]; intros n i Hk Hbefore Hat.
  - rewrite Nat.add_0_r in Hat. destruct n; cbn [search_from]; by rewrite Hat.
  - destruct n as [|n]; [lia|]. cbn [search_from].
    rewrite <- (Nat.add_0_r i) at 1. rewrite Hbefore by lia.
    apply IH; [lia| |by rewrite Nat.add_succ_comm].
    intros k' Hk'. rewrite Nat.add_succ_comm. apply Hbefore. lia.
Qed.

Lemma newacronym_command_app key sh fu rest :
  newacronym_command key sh fu ++ rest
  = txt "\newacronym" ++
    "{"%char :: key ++ "}"%char ::
      ("{"%char :: sh ++ "}"%char :: ("{"%char :: fu ++ "}"%char :: rest)).
Proof.
  unfold newacronym_command.
  change (txt "\newacronym{") with (txt "\newacronym" ++ ["{"%char]).
  change (txt "}{") with ["}"%char; "{"%char].
  change (txt "}") with ["}"%char].
  by repeat (rewrite <- ?app_assoc; cbn [app]; f_equal).
Qed.

Lemma newacronym_at_Some s i key sh fu :
  newacronym_at s i = Some (key, sh, fu)
  <-> (exists rest, drop i s = newacronym_command key sh fu ++ rest)
      /\ brace_free key /\ brace_free sh /\ brace_free fu.
Proof.
  unfold newacronym_at. split.
  - destruct (Py.startswith (drop i s) (txt "\newacronym")) eqn:Hsw; [|done].
    apply startswith_take in Hsw.
    destruct (braced (drop (i + 11) s)) as [[key' r1]|] eqn:H1; [|done].
    cbn [mbind option_bind].
    destruct (braced r1) as [[sh' r2]|] eqn:H2; [|done]. cbn [mbind option_bind].
    destruct (braced r2) as [[fu' r3]|] eqn:H3; [|done]. cbn [mbind option_bind].
    intros [= -> -> ->].
    apply braced_Some in H1 as [H1 Hk], H2 as [H2 Hs], H3 as [H3 Hf].
    split_and!; try done. exists r3.
    rewrite newacronym_command_app.
    rewrite <- (take_drop 11 (drop i s)), drop_drop.
    change (length (txt "\newacronym")) with 11 in Hsw.
    by rewrite Hsw, H1, H2, H3.
  - intros ([rest Hd] & Hk & Hs & Hf). rewrite newacronym_command_app in Hd.
    assert (drop (i + 11) s
            = "{"%char :: key ++ "}"%char ::
              ("{"%char :: sh ++ "}"%char :: ("{"%char :: fu ++ "}"%char :: rest))) as H1.
    { rewrite <- drop_drop, Hd.
      by rewrite (drop_app_length (txt "\newacronym")). }
    rewrite Hd, startswith_app.
    rewrite H1, (proj2 (braced_Some _ _ _) (conj eq_refl Hk)). cbn [mbind option_bind].
    rewrite (proj2 (braced_Some _ _ _) (conj eq_refl Hs)). cbn [mbind option_bind].
    rewrite (proj2 (braced_Some _ _ _) (conj eq_refl Hf)). done.
Qed.
End ExtractorFacts.

Section ExtractorMore.
Context {Path : Type}.
Implicit Types (entries : list (@entry Path)) (key sh fu line : str).

Lemma search_newacronym_groups line m :
  search false newacronym_pattern line = Some m ->
  exists key sh fu,
    m_groups m = [key; sh; fu]
    /\ newacronym_at line (m_start m) = Some (key, sh, fu)
    /\ m_end m = m_start m + length (newacronym_command key sh fu).
Proof.
  unfold search. intros (k & _ & Hat & _)%search_from_Some.
  rewrite match_at_newacronym in Hat. cbn [Nat.add] in Hat.
  destruct (newacronym_at line k) as [[[key sh] fu]|] eqn:Hn; [|done].
  injection Hat as <-. exists key, sh, fu. cbn [m_groups m_start m_end].
  split_and!; [done..|].
  unfold newacronym_command. rewrite !length_app. cbn. lia.
Qed.

Lemma extract_defined_acronyms_step entries (e : @entry Path) key :
  dict_get (extract_defined_acronyms (entries ++ [e])) key
  = match search false newacronym_pattern e.2 with
    | Some m =>
        match m_groups m with
        | [key'; sh; fu] =>
            if decide (key' = key)
            then Some (AcronymDef (Py.strip sh) (Py.strip fu) e.1.1 e.1.2)
            else dict_get (extract_defined_acronyms entries) key
        | _ => dict_get (extract_defined_acronyms entries) key
        end
    | None => dict_get (extract_defined_acronyms entries) key
    end.
Proof.
  rewrite extract_defined_acronyms_snoc.
  destruct (search false newacronym_pattern e.2) as [m|]; [|done].
  destruct (m_groups m) as [|k1 [|s1 [|f1 [|]]]]; try done.
  rewrite dict_get_set. by case_decide.
Qed.
End ExtractorMore.

(** X4: where the pattern of the definition command is found in a line,
    the match always has exactly three groups, so unpacking them into
    key, short and long form cannot fail; the line is the text before
    the match, the command with these three arguments, and the text after
    it; each argument is non-empty and holds no closing brace. *)
Theorem newacronym_match_is_a_command (line : str) (m : match_obj) :
  search false newacronym_pattern line = Some m ->
  exists key sh fu,
    m_groups m = [key; sh; fu]
    /\ line = take (m_start m) line ++ newacronym_command key sh fu
              ++ drop (m_end m) line
    /\ brace_free key /\ brace_free sh /\ brace_free fu.
Proof.
  intros (key & sh & fu & Hg & Hat & Hend)%search_newacronym_groups.
  exists key, sh, fu.
  apply newacronym_at_Some in Hat as ([rest Hd] & Hk & Hs & Hf).
  split_and!; try done.
  rewrite Hend, <- drop_drop, Hd, drop_app_length, <- Hd. by rewrite take_drop.
Qed.

Lemma newacronym_match_is_a_command_witness :
  exists key sh fu,
    [txt "vae"; txt " VAE "; txt "Variational Autoencoder"] = [key; sh; fu]
    /\ vae_definition_line
       = take 6 vae_definition_line ++ newacronym_command key sh fu
         ++ drop 54 vae_definition_line
    /\ brace_free key /\ brace_free sh /\ brace_free fu.
Proof.
  apply (newacronym_match_is_a_command vae_definition_line
           (MatchObj 6 54 [txt "vae"; txt " VAE "; txt "Variational Autoencoder"])).
  vm_compute. reflexivity.
Defined.

(** X5: a definition command whose three arguments are non-empty and
    free of closing braces is found wherever it stands in a line, after
    any text without a backslash and before any text at all; the groups of
    the match are the three arguments as written. *)
Theorem newacronym_command_is_found (pre post key sh fu : str) :
  ("\"%char ∉ pre) ->
  brace_free key -> brace_free sh -> brace_free fu ->
  search false newacronym_pattern (pre ++ newacronym_command key sh fu ++ post)
  = Some (MatchObj (length pre)
            (length pre + length (newacronym_command key sh fu))
            [key; sh; fu]).
Proof.
  intros Hpre Hk Hs Hf. unfold search.
  apply (search_from_skip _ _ _ _ 0 (length pre)).
  - rewrite length_app. lia.
  - intros k Hk'. cbn [Nat.add]. rewrite match_at_newacronym.
    unfold newacronym_at.
    destruct (lookup_lt_is_Some_2 pre k Hk') as [x Hx].
    rewrite drop_app_le by lia.
    rewrite (drop_S _ _ _ Hx). cbn [app].
    change (txt "\newacronym") with ("\"%char :: txt "newacronym").
    cbn [Py.startswith]. destruct (decide ("\"%char = x)) as [<-|]; [|done].
    exfalso. apply Hpre. by eapply list_elem_of_lookup_2.
  - cbn [Nat.add]. rewrite match_at_newacronym.
    rewrite (proj2 (newacronym_at_Some _ _ key sh fu)).
    + cbn [fmap option_fmap option_map]. do 2 f_equal.
      unfold newacronym_command. rewrite !length_app. cbn. lia.
    + split_and!; try done. exists post. by rewrite drop_app_length.
Qed.

Lemma newacronym_command_is_found_witness :
  search false newacronym_pattern
    (txt "% see " ++ newacronym_command (txt "vae") (txt " VAE ")
       (txt "Variational Autoencoder") ++ txt " here")
  = Some (MatchObj 6 (6 + 48) [txt "vae"; txt " VAE "; txt "Variational Autoencoder"]).
Proof.
  apply (newacronym_command_is_found (txt "% see ") (txt " here") (txt "vae")
           (txt " VAE ") (txt "Variational Autoencoder")).
  - apply (bool_decide_unpack _). vm_compute. reflexivity.
  - split; [done | apply (bool_decide_unpack _); vm_compute; reflexivity].
  - split; [done | apply (bool_decide_unpack _); vm_compute; reflexivity].
  - split; [done | apply (bool_decide_unpack _); vm_compute; reflexivity].
Defined.

(** X6: a later definition of a key replaces an earlier one: the
    dictionary holds, under a key, the short and long form of the last
    record that defines it, both stripped, with that record's file and
    line number. *)
Theorem last_definition_wins {Path : Type}
    (entries1 entries2 : list (@entry Path)) (e : @entry Path)
    (m : match_obj) (key sh fu : str) :
  search false newacronym_pattern e.2 = Some m ->
  m_groups m = [key; sh; fu] ->
  Forall (fun e' => forall m', search false newacronym_pattern e'.2 = Some m' ->
                               head (m_groups m') <> Some key) entries2 ->
  dict_get (extract_defined_acronyms (entries1 ++ e :: entries2)) key
  = Some (AcronymDef (Py.strip sh) (Py.strip fu) e.1.1 e.1.2).
Proof.
  intros Hs Hg. induction entries2 as [|e' entries2 IH] using rev_ind; intros Hlater.
  - rewrite extract_defined_acronyms_step, Hs, Hg. by rewrite decide_True.
  - apply Forall_app in Hlater as [Hlater He']. apply Forall_inv in He'.
    change (entries1 ++ e :: entries2 ++ [e'])
      with (entries1 ++ (e :: entries2) ++ [e']).
    rewrite app_assoc, extract_defined_acronyms_step.
    destruct (search false newacronym_pattern e'.2) as [m'|]; [|by apply IH].
    specialize (He' m' eq_refl).
    destruct (m_groups m') as [|k1 [|s1 [|f1 [|]]]]; try by apply IH.
    cbn [head] in He'. rewrite decide_False by congruence. by apply IH.
Qed.

Lemma last_definition_wins_witness :
  dict_get (extract_defined_acronyms redefined_entries) (txt "vae")
  = Some (AcronymDef (txt "VAEs") (txt "Variational Auto-Encoder")
            (sample_root (txt "a.tex")) 7).
Proof.
  apply (last_definition_wins (take 2 redefined_entries) (drop 3 redefined_entries)
           (sample_root (txt "a.tex"), 7,
            txt "\newacronym{vae}{VAEs}{ Variational Auto-Encoder }")
           (MatchObj 0 50 [txt "vae"; txt "VAEs"; txt " Variational Auto-Encoder "])
           (txt "vae") (txt "VAEs") (txt " Variational Auto-Encoder ")).
  - vm_compute. reflexivity.
  - reflexivity.
  - repeat constructor. vm_compute. intros m' Hm'. discriminate Hm'.
Defined.

(** The first definition command of a line is the one the search finds. *)
Lemma search_first_command (pre post key sh fu : str) :
  ("\"%char ∉ pre) ->
  brace_free key -> brace_free sh -> brace_free fu ->
  search false newacronym_pattern (pre ++ newacronym_command key sh fu ++ post)
  = Some (MatchObj (length pre)
            (length pre + length (newacronym_command key sh fu))
            [key; sh; fu]).
Proof.
  intros Hpre Hk Hs Hf. unfold search.
  apply (search_from_skip _ _ _ _ 0 (length pre)); [rewrite length_app; lia | |].
  - intros k Hk'. cbn [Nat.add]. rewrite match_at_newacronym. unfold newacronym_at.
    destruct (lookup_lt_is_Some_2 pre k Hk') as [x Hx].
    rewrite drop_app_le, (drop_S _ _ _ Hx) by lia. cbn [app].
    change (txt "\newacronym") with ("\"%char :: txt "newacronym").
    cbn [Py.startswith]. destruct (decide ("\"%char = x)) as [<-|]; [|done].
    destruct Hpre. by eapply list_elem_of_lookup_2.
  - cbn [Nat.add]. rewrite match_at_newacronym.
    assert (newacronym_at (pre ++ newacronym_command key sh fu ++ post) (length pre)
            = Some (key, sh, fu)) as ->.
    { apply newacronym_at_Some. split_and!; try done.
      exists post. by rewrite drop_app_length. }
    cbn [fmap option_fmap option_map]. do 2 f_equal.
    unfold newacronym_command. rewrite !length_app. cbn. lia.
Qed.

(** X7: the extractor reads one definition command per record, the first
    one on its line.  A key is absent from the extracted definitions
    exactly when no record has it as the first argument of the first
    command of its line; a key that only a second command of some line
    defines is therefore absent, although the record holds a command
    with it. *)
Theorem key_absent_iff_no_first_command {Path : Type}
    (entries : list (@entry Path)) (key : str) :
  (dict_get (extract_defined_acronyms entries) key = None
   <-> Forall (fun e => forall m, search false newacronym_pattern e.2 = Some m ->
                                  head (m_groups m) <> Some key) entries)
  /\ (forall (path : Path) (line_no : nat) (pre key1 sh1 fu1 mid sh2 fu2 post : str),
        ("\"%char ∉ pre) ->
        brace_free key1 -> brace_free sh1 -> brace_free fu1 ->
        key1 <> key ->
        dict_get
          (extract_defined_acronyms
             [(path, line_no,
               pre ++ newacronym_command key1 sh1 fu1 ++ mid
                   ++ newacronym_command key sh2 fu2 ++ post)])
          key
        = None).
Proof.
  split.
  - induction entries as [|e entries' IH] using rev_ind.
    { split; [constructor | done]. }
    rewrite extract_defined_acronyms_step, Forall_app, Forall_singleton, <- IH.
    destruct (search false newacronym_pattern e.2) as [m|] eqn:Hs.
    + destruct (search_newacronym_groups _ _ Hs) as (k1 & s1 & f1 & Hg & _).
      rewrite Hg. destruct (decide (k1 = key)) as [->|Hne].
      * split; [done|]. intros [_ Hno]. destruct (Hno m eq_refl). by rewrite Hg.
      * split; [|by intros []]. intros Hnone. split; [done|].
        intros m' [= <-]. rewrite Hg. cbn [head]. congruence.
    + split; [|by intros []]. by intros Hnone.
  - intros path line_no pre key1 sh1 fu1 mid sh2 fu2 post Hpre Hk Hs Hf Hne.
    pose proof (extract_defined_acronyms_step []
                  (path, line_no,
                   pre ++ newacronym_command key1 sh1 fu1 ++ mid
                       ++ newacronym_command key sh2 fu2 ++ post) key) as Hstep.
    cbn [app snd] in Hstep. rewrite search_first_command in Hstep by done.
    cbn [m_groups] in Hstep. by rewrite decide_False in Hstep.
Qed.

(** A line with two definition commands: only the first key is defined. *)
Example second_command_is_not_read :
  (extract_defined_acronyms
     [(sample_root (txt "main.tex"), 1,
       txt "\newacronym{vae}{VAE}{Variational Autoencoder} \newacronym{gan}{GAN}{Generative Model}")]).*1
  = [txt "vae"].
Proof. vm_compute. reflexivity. Qed.

Section ContentFacts.
Context {Path : Type}.
Implicit Types (entries : list (@entry Path)) (s t : str).

Lemma find_from_is_Some i a t b : is_Some (Py.find_from i (a ++ t ++ b) t).
Proof.
  revert i. induction a as [|x a IH]; intros i.
  - cbn [app]. destruct (t ++ b) eqn:Heq; cbn [Py.find_from];
      rewrite <- Heq, startswith_app; by eexists.
  - cbn [app Py.find_from]. destruct (Py.startswith _ _); [by eexists | apply IH].
Qed.

(** [t in s] holds exactly when [t] occurs in [s]. *)
Lemma contains_spec s t : Py.contains s t = true <-> occurs_in t s.
Proof.
  unfold Py.contains, occurs_in. split.
  - destruct (Py.find s t) as [j|] eqn:Hf; [|done]. intros _.
    apply find_Some in Hf as (Hsw & _).
    exists (take j s), (drop (length t) (drop j s)).
    by rewrite <- Hsw at 1; rewrite take_drop, take_drop.
  - intros (a & b & ->). unfold Py.find.
    by destruct (find_from_is_Some 0 a t b) as [j ->].
Qed.

Lemma content_from_true entries : content_from true entries = entries.
Proof.
  induction entries as [|[[p n] l] entries IH]; [done|].
  cbn [content_from negb andb]. by rewrite IH.
Qed.

Lemma content_from_split entries :
  exists pre,
    entries = pre ++ content_from false entries
    /\ Forall (fun e => Py.contains e.2 document_marker = false) pre
    /\ match content_from false entries with
       | e :: _ => Py.contains e.2 document_marker = true
       | [] => True
       end.
Proof.
  induction entries as [|[[p n] l] entries (pre & Heq & Hpre & Hhd)].
  - by exists [].
  - cbn [content_from negb andb].
    destruct (Py.contains l document_marker) eqn:Hl.
    + exists []. by rewrite content_from_true.
    + exists ((p, n, l) :: pre). split_and!; [by rewrite Heq at 1 | | done].
      by constructor.
Qed.
End ContentFacts.

(** X8: the body that is scanned is the part of the record sequence from
    the first record whose line holds the document-start marker, that
    record included: no record before it holds the marker, and every
    record after it is scanned, whether it holds the marker again or
    not. *)
Theorem content_starts_at_first_marker {Path : Type} (entries : list (@entry Path)) :
  exists pre,
    entries = pre ++ content_from false entries
    /\ Forall (fun e => ~ occurs_in document_marker e.2) pre
    /\ match content_from false entries with
       | e :: _ => occurs_in document_marker e.2
       | [] => True
       end.
Proof.
  destruct (content_from_split entries) as (pre & Heq & Hpre & Hhd).
  exists pre. split_and!; [done | |].
  - eapply Forall_impl; [exact Hpre|]. intros e He. cbv beta in He.
    rewrite <- contains_spec. by rewrite He.
  - destruct (content_from false entries) as [|e rest]; [done|].
    by apply contains_spec.
Qed.

Section Filed.
Context {K V X : Type} `{EqDecision K}.
Implicit Types (acc : list (K * list X)) (d : list (K * V)) (k : K).

Lemma dict_set_new {W} (t : list (K * W)) k (w : W) :
  dict_get t k = None -> dict_set k w t = t ++ [(k, w)].
Proof.
  induction t as [|[k0 w0] t IH]; [done|]. cbn [dict_get dict_set].
  destruct (decide (k0 = k)); [done|]. intros Hnone. by rewrite IH.
Qed.

Lemma dict_get_app_new {W} (t : list (K * W)) k k' (w : W) :
  dict_get (t ++ [(k, w)]) k'
  = match dict_get t k' with
    | Some w' => Some w'
    | None => if decide (k = k') then Some w else None
    end.
Proof.
  induction t as [|[k0 w0] t IH]; [done|]. cbn [app dict_get].
  by destruct (decide (k0 = k')).
Qed.

Lemma dict_set_last {W} (t : list (K * W)) k (w0 w : W) :
  dict_get t k = None -> dict_set k w (t ++ [(k, w0)]) = t ++ [(k, w)].
Proof.
  induction t as [|[k1 w1] t IH]; cbn [app dict_get dict_set].
  - intros _. by rewrite decide_True.
  - destruct (decide (k1 = k)); [done|]. intros Hnone. by rewrite IH.
Qed.

(** The items of one key that is new to the table go to one new entry at
    its end. *)
Lemma group_into_block acc k (x : X) (l : list X) :
  dict_get acc k = None ->
  group_into acc ((fun y => (k, y)) <$> x :: l) = acc ++ [(k, x :: l)].
Proof.
  intros Hnone. rewrite fmap_cons, group_into_cons. unfold dd_append at 1.
  cbn [fst snd]. rewrite Hnone, dict_set_new by done. cbn [default app].
  assert (forall l0, group_into (acc ++ [(k, l0)]) ((fun y => (k, y)) <$> l)
                     = acc ++ [(k, l0 ++ l)]) as Hrest.
  { induction l as [|y l IH]; intros l0; [by rewrite app_nil_r|].
    rewrite fmap_cons, group_into_cons. unfold dd_append at 1. cbn [fst snd].
    rewrite dict_get_app_new, Hnone, decide_True by done. cbn [default].
    rewrite dict_set_last by done. rewrite IH, <- app_assoc. done. }
  apply (Hrest [x]).
Qed.

Lemma group_into_filed_acc (g : K * V -> list X) d acc :
  NoDup d.*1 ->
  (forall k, k ∈ d.*1 -> dict_get acc k = None) ->
  group_into acc (d ≫= fun kv => (fun x => (kv.1, x)) <$> g kv) = acc ++ filed g d.
Proof.
  revert acc. induction d as [|[k v] d IH]; intros acc Hnd Hacc.
  { cbn. by rewrite app_nil_r. }
  rewrite fmap_cons in Hnd. apply NoDup_cons in Hnd as [Hk Hnd]. cbn [fst] in Hk.
  rewrite bind_cons, group_into_app. unfold filed. cbn [omap list_omap fst].
  fold (filed g d).
  destruct (g (k, v)) as [|x l] eqn:Hg.
  - cbn [fmap list_fmap]. apply IH; [done|]. intros k' Hk'. apply Hacc.
    rewrite fmap_cons. by right.
  - rewrite group_into_block by (apply Hacc; rewrite fmap_cons; left).
    rewrite IH; [by rewrite <- app_assoc | done |].
    intros k' Hk'. rewrite dict_get_app_new, Hacc by (rewrite fmap_cons; by right).
    rewrite decide_False; [done|]. by intros ->.
Qed.

Lemma group_into_filed (g : K * V -> list X) d :
  NoDup d.*1 ->
  group_into [] (d ≫= fun kv => (fun x => (kv.1, x)) <$> g kv) = filed g d.
Proof. intros Hnd. by rewrite group_into_filed_acc. Qed.

Lemma filed_keys (g : K * V -> list X) d kl :
  kl ∈ filed g d -> kl.2 <> [] /\ exists v, (kl.1, v) ∈ d /\ kl.2 = g (kl.1, v).
Proof.
  unfold filed. rewrite list_elem_of_omap. intros ([k v] & Hin & Hsome).
  destruct (g (k, v)) as [|x l] eqn:Hg; [done|]. injection Hsome as <-.
  cbn [fst snd]. split; [done|]. exists v. by rewrite Hg.
Qed.
End Filed.

(** X9: the two usage tables, whole: in the order of the definitions, one
    entry for each key whose form is found on at least one body line, and
    under it the body records with such a line, in document order.  A key
    whose form is found nowhere has no entry, not an empty one. *)
Theorem usage_tables_exact {Path : Type}
    (entries : list (@entry Path)) (acronym_defs : list (str * @acronym_def Path)) :
  NoDup acronym_defs.*1 ->
  let r := scan_acronyms entries acronym_defs in
  let content_entries := content_from false entries in
  used_full r
  = filed (fun kv => filter (fun e => usage_found (full kv.2) e.2 = true) content_entries)
          acronym_defs
  /\ used_short r
     = filed (fun kv => filter (fun e => usage_found (short kv.2) e.2 = true) content_entries)
             acronym_defs.
Proof.
  intros Hnd r content_entries. subst r content_entries.
  rewrite used_full_scan, used_short_scan, scan_usage_events. cbn [fst snd].
  unfold usage_events. split; by apply group_into_filed.
Qed.

Lemma usage_tables_exact_witness :
  NoDup two_defs.*1
  /\ used_full (scan_acronyms vae_twice two_defs)
     = filed (fun kv => filter (fun e => usage_found (full kv.2) e.2 = true)
                          (content_from false vae_twice))
             two_defs
  /\ used_short (scan_acronyms vae_twice two_defs)
     = [(txt "vae", [(sample_root (txt "main.tex"), 2, vae_twice_line)])].
Proof.
  assert (NoDup two_defs.*1) as Hnd
    by (apply (bool_decide_unpack _); vm_compute; reflexivity).
  split; [exact Hnd|]. split.
  - exact (proj1 (usage_tables_exact vae_twice two_defs Hnd)).
  - vm_compute. reflexivity.
Defined.

Section OrderFacts.
Context {Path : Type}.
Implicit Types (entries : list (@entry Path)) (defs : list (str * @acronym_def Path)).
Implicit Types (set_order : str -> gset str -> list str).

(** The order in which sets are traversed bears on the inconsistent
    usages only. *)
Lemma scan_acronyms_in_fields set_order entries defs :
  let r := scan_acronyms_in set_order entries defs in
  let r0 := scan_acronyms entries defs in
  used_full r = used_full r0
  /\ used_short r = used_short r0
  /\ undefined r = undefined r0
  /\ undefined_full_forms r = undefined_full_forms r0
  /\ inconsistent_usage r
     = scan_inconsistent_in set_order (content_from false entries)
         (undefined_full_forms r0).
Proof.
  cbv zeta. unfold scan_acronyms, scan_acronyms_in.
  destruct (scan_usage _ _) as [uf us].
  by destruct (scan_undefined _ _) as [counts forms].
Qed.

Lemma inconsistent_usage_filed set_order entries defs :
  inconsistent_usage (scan_acronyms_in set_order entries defs)
  = filed (inconsistent_block_in set_order (content_from false entries))
          (undefined_full_forms (scan_acronyms entries defs)).
Proof.
  destruct (scan_acronyms_in_fields set_order entries defs) as (_ & _ & _ & _ & ->).
  rewrite scan_inconsistent_in_events. unfold inconsistent_events_in.
  apply group_into_filed, undefined_full_forms_NoDup.
Qed.
End OrderFacts.

(** X10: the table of inconsistent usages, whole, in a run that traverses
    the sets of long forms in a given order: in the order of the tokens
    that have recovered long forms, one entry for each token with at least
    one record, and under it the records of its long forms, long form
    after long form in the order in which the run traverses the token's
    set.  A token without a record has no entry. *)
Theorem inconsistent_table_exact {Path : Type}
    (set_order : str -> gset str -> list str)
    (entries : list (@entry Path)) (acronym_defs : list (str * @acronym_def Path)) :
  let r := scan_acronyms_in set_order entries acronym_defs in
  inconsistent_usage r
  = filed (inconsistent_block_in set_order (content_from false entries))
          (undefined_full_forms r).
Proof.
  cbv zeta. rewrite inconsistent_usage_filed.
  by destruct (scan_acronyms_in_fields set_order entries acronym_defs)
    as (_ & _ & _ & -> & _).
Qed.

(** X11: a token that is a defined short form or one of the Roman
    numerals I to XX is left out of every finding, however often it
    stands in parentheses: it tags no record of the undefined-acronym
    list, and it is no key of the recovered long forms nor of the
    inconsistent usages. *)
Theorem excluded_tokens_are_never_reported {Path : Type}
    (entries : list (@entry Path)) (acronym_defs : list (str * @acronym_def Path))
    (tok : str) :
  tok ∈ defined_shorts_of acronym_defs \/ tok ∈ roman_numerals ->
  let r := scan_acronyms entries acronym_defs in
  (forall x, x ∈ undefined r -> token_of x <> tok)
  /\ dict_get (undefined_full_forms r) tok = None
  /\ dict_get (inconsistent_usage r) tok = None.
Proof.
  intros Hex r.
  assert (qualifies (defined_shorts_of acronym_defs) tok = false) as Hq.
  { unfold qualifies. apply andb_false_iff.
    destruct Hex as [Hd|Hr]; [left | right]; apply bool_decide_eq_false; by intros []. }
  assert (dict_get (undefined_full_forms r) tok = None) as Hnone.
  { apply eq_None_not_Some. intros (e & _ & _ & Hq' & _)%undefined_full_forms_key.
    congruence. }
  split_and!; [|done|].
  - intros x Hin Htok.
    assert (x ∈ filter (fun x => token_of x = tok) (undefined r)) as Hf
      by by apply list_elem_of_filter.
    subst r. rewrite filter_undefined_scan, Hq in Hf. cbn in Hf. by apply elem_of_nil in Hf.
  - apply eq_None_not_Some. intros Hsome. subst r.
    rewrite inconsistent_usage_scan in Hsome.
    apply inconsistent_key in Hsome.
    + rewrite <- undefined_full_forms_scan, Hnone in Hsome. by destruct Hsome.
    + rewrite <- undefined_full_forms_scan. apply undefined_full_forms_NoDup.
Qed.

Lemma excluded_tokens_are_never_reported_witness :
  (txt "II" ∈ defined_shorts_of two_defs \/ txt "II" ∈ roman_numerals)
  /\ length (token_occurrences (txt "II") (content_from false excluded_body)) = 2
  /\ dict_get (undefined_full_forms (scan_acronyms excluded_body two_defs)) (txt "II") = None.
Proof.
  assert (txt "II" ∈ defined_shorts_of two_defs \/ txt "II" ∈ roman_numerals) as Hex
    by (right; apply (bool_decide_unpack _); vm_compute; reflexivity).
  split; [exact Hex|]. split; [vm_compute; reflexivity|].
  exact (proj1 (proj2 (excluded_tokens_are_never_reported excluded_body two_defs _ Hex))).
Defined.

Section LiteralSearch.
Implicit Types (s t w : str) (i j : nat) (r : re).

Lemma startswith_snoc s w (d : ascii) :
  Py.startswith s (w ++ [d])
  = Py.startswith s w && bool_decide (head (drop (length w) s) = Some d).
Proof.
  revert s. induction w as [|a w IH]; intros s.
  - destruct s as [|x s]; [done|]. cbn [app Py.startswith length drop head andb].
    destruct (decide (d = x)) as [->|Hne].
    + rewrite bool_decide_eq_true_2 by done. by destruct s.
    + by rewrite bool_decide_eq_false_2 by congruence.
  - destruct s as [|x s]; [done|]. cbn [app Py.startswith length drop].
    destruct (decide (a = x)); [apply IH | done].
Qed.

(** The pattern that locates the token matches where the text starts
    with the token in parentheses. *)
Lemma match_at_acronym tok s i :
  match_at false (acronym_pattern tok) s i
  = if Py.startswith (drop i s) (txt "(" ++ tok ++ txt ")")
    then Some (MatchObj i (i + length tok + 2) []) else None.
Proof.
  unfold match_at, acronym_pattern. cbn [seqs foldr].
  rewrite run_seq, run_chr.
  change (txt "(" ++ tok ++ txt ")") with ("("%char :: tok ++ [")"%char]).
  destruct (drop i s) as [|c rest] eqn:Hd; [done|].
  cbn [atom_match Py.startswith].
  destruct (decide ("("%char = c)) as [<-|Hne];
    [rewrite bool_decide_eq_true_2 by done
    |by rewrite bool_decide_eq_false_2 by congruence].
  rewrite bind_singleton, run_seq, run_lit_cs, (drop_S_tail _ _ _ _ Hd).
  rewrite startswith_snoc.
  destruct (Py.startswith rest tok); [|done].
  rewrite bind_singleton, run_seq, run_chr, <- drop_drop, (drop_S_tail _ _ _ _ Hd).
  cbn [andb]. destruct (drop (length tok) rest) as [|x l]; [done|].
  cbn [atom_match head].
  destruct (decide (x = ")"%char)) as [->|Hne].
  - rewrite !bool_decide_eq_true_2 by done. rewrite bind_singleton, run_eps.
    do 2 f_equal. lia.
  - rewrite !bool_decide_eq_false_2 by congruence. done.
Qed.

(** A pattern that matches exactly where the text starts with [t] is
    searched for as [find] searches for [t]. *)
Lemma search_from_find r t (e : nat -> nat) s n i :
  (forall k, match_at false r s k
             = if Py.startswith (drop k s) t then Some (MatchObj k (e k) []) else None) ->
  n + i = length s ->
  search_from false r s n i
  = (fun pos => MatchObj pos (e pos) []) <$> Py.find_from i (drop i s) t.
Proof.
  intros Hat. revert i. induction n as [|n IH]; intros i Hlen.
  - cbn [search_from]. rewrite Hat, drop_ge by lia. cbn [Py.find_from].
    by destruct (Py.startswith [] t).
  - cbn [search_from]. rewrite Hat.
    destruct (drop i s) as [|x rest] eqn:Hd.
    { apply (f_equal length) in Hd. rewrite length_drop in Hd. cbn in Hd. lia. }
    cbn [Py.find_from]. destruct (Py.startswith (x :: rest) t); [done|].
    rewrite IH by lia. by rewrite (drop_S_tail _ _ _ _ Hd).
Qed.

Lemma search_acronym tok s :
  search false (acronym_pattern tok) s
  = (fun pos => MatchObj pos (pos + length tok + 2) [])
    <$> Py.find s (txt "(" ++ tok ++ txt ")").
Proof.
  unfold search, Py.find.
  rewrite (search_from_find _ (txt "(" ++ tok ++ txt ")")
             (fun pos => pos + length tok + 2)); [done | | lia].
  intros k. apply match_at_acronym.
Qed.

Lemma paren_token_occurs line i tok :
  paren_token_at line i tok -> occurs_in (txt "(" ++ tok ++ txt ")") line.
Proof.
  intros (_ & _ & Htake).
  exists (take i line), (drop (length tok + 2) (drop i line)).
  by rewrite <- Htake, take_drop, take_drop.
Qed.

Lemma line_tokens_elem line tok :
  tok ∈ line_tokens line <-> exists i, paren_token_at line i tok.
Proof.
  rewrite line_tokens_spec, list_elem_of_omap. split.
  - intros (i & _ & Hat). exists i. by apply token_at_spec.
  - intros (i & Hp). exists i. split; [|by apply token_at_spec].
    apply elem_of_seq. split; [lia|]. cbn.
    destruct Hp as (Hlen & _ & Htake).
    apply (f_equal length) in Htake.
    rewrite length_take, length_drop, !length_app in Htake. cbn in Htake. lia.
Qed.
End LiteralSearch.

(** X12: for a token the scan reads on a line, the search that locates
    it on the same line never fails, so the long-form recovery is always
    attempted; the search is Python's [find] of the token in parentheses:
    it stops at the first place where "(", the token and ")" stand. *)
Theorem token_search_never_fails (line tok : str) :
  tok ∈ line_tokens line ->
  exists pos,
    Py.find line (txt "(" ++ tok ++ txt ")") = Some pos
    /\ search false (acronym_pattern tok) line
       = Some (MatchObj pos (pos + length tok + 2) []).
Proof.
  intros [i Hp%paren_token_occurs]%line_tokens_elem.
  apply contains_spec in Hp. unfold Py.contains in Hp.
  destruct (Py.find line (txt "(" ++ tok ++ txt ")")) as [pos|] eqn:Hf; [|done].
  exists pos. split; [done|]. by rewrite search_acronym, Hf.
Qed.

Lemma token_search_never_fails_witness :
  exists pos,
    Py.find ait_line (txt "(" ++ txt "AIT" ++ txt ")") = Some pos
    /\ search false (acronym_pattern (txt "AIT")) ait_line
       = Some (MatchObj pos (pos + length (txt "AIT") + 2) []).
Proof.
  apply (token_search_never_fails ait_line (txt "AIT")).
  apply (bool_decide_unpack _). vm_compute. reflexivity.
Defined.

Section OccursFacts.
Implicit Types (s t : str).

Lemma occurs_in_rev t s : occurs_in t s -> occurs_in (rev t) (rev s).
Proof.
  intros (a & b & ->). exists (rev b), (rev a).
  by rewrite !rev_app_distr, <- app_assoc.
Qed.

Lemma occurs_in_lstrip t s :
  match t with c :: _ => Py.isspace c = false | [] => True end ->
  occurs_in t s -> occurs_in t (Py.lstrip s).
Proof.
  intros Ht (a & b & ->). induction a as [|x a IH].
  - destruct t as [|c t]; [by exists [], (Py.lstrip b)|].
    cbn [app Py.lstrip]. rewrite Ht. by exists [], b.
  - cbn [app Py.lstrip]. destruct (Py.isspace x); [done|]. by exists (x :: a), b.
Qed.

Lemma occurs_in_rstrip t s :
  match last t with Some c => Py.isspace c = false | None => True end ->
  occurs_in t s -> occurs_in t (Py.rstrip s).
Proof.
  intros Ht Hocc. unfold Py.rstrip.
  rewrite <- (rev_involutive t). apply occurs_in_rev, occurs_in_lstrip.
  - rewrite last_rev_head in Ht. by destruct (rev t).
  - by apply occurs_in_rev.
Qed.

(** Stripping a text keeps what occurs in it, when that has no blank at
    either end. *)
Lemma occurs_in_strip t s : trimmed t -> occurs_in t s -> occurs_in t (Py.strip s).
Proof.
  intros [Hh Hl] Hocc. by apply occurs_in_rstrip, occurs_in_lstrip.
Qed.

Lemma occurs_in_trans t s u : occurs_in t s -> occurs_in s u -> occurs_in t u.
Proof.
  intros (a & b & ->) (a' & b' & ->). exists (a' ++ a), (b ++ b').
  by rewrite <- !app_assoc.
Qed.

Lemma occurs_in_strip_self s : occurs_in (Py.strip s) s.
Proof. destruct (strip_middle s) as (pre & post & Heq & _). by exists pre, post. Qed.

Lemma in_parens_trimmed tok : trimmed (in_parens tok).
Proof.
  unfold in_parens. split; [done|].
  rewrite app_assoc. change (txt ")") with [")"%char]. by rewrite last_snoc.
Qed.
End OccursFacts.

Section UndefinedShape.
Context {Path : Type}.
Implicit Types (entries : list (@entry Path)) (defs : list (str * @acronym_def Path)).

Lemma elem_of_token_occurrences tok (content : list (@entry Path)) occ :
  occ ∈ token_occurrences tok content
  <-> exists e, e ∈ content /\ tok ∈ line_tokens e.2 /\ occ = occurrence_of e.
Proof.
  unfold token_occurrences. rewrite list_elem_of_bind. split.
  - intros (e & Hin & He). apply list_elem_of_fmap in Hin as (a & -> & Ha).
    apply list_elem_of_filter in Ha as [-> Ha]. by exists e.
  - intros (e & He & Htok & ->). exists e. split; [|done].
    apply list_elem_of_fmap. exists tok. split; [done|].
    by apply list_elem_of_filter.
Qed.

(** Where a record of the undefined-acronym list comes from. *)
Lemma elem_of_undefined entries defs x :
  x ∈ undefined (scan_acronyms entries defs) ->
  exists e, e ∈ content_from false entries
            /\ x = tagged (token_of x) (occurrence_of e)
            /\ token_of x ∈ line_tokens e.2
            /\ qualifies (defined_shorts_of defs) (token_of x) = true.
Proof.
  intros Hin.
  assert (x ∈ filter (fun y => token_of y = token_of x)
                     (undefined (scan_acronyms entries defs))) as Hf
    by by apply list_elem_of_filter.
  rewrite filter_undefined_scan in Hf. cbv zeta in Hf.
  destruct (qualifies (defined_shorts_of defs) (token_of x)) eqn:Hq;
    [|by apply elem_of_nil in Hf].
  destruct (2 <=? length _); [|by apply elem_of_nil in Hf].
  apply list_elem_of_fmap in Hf as (occ & Hx & Hocc).
  apply elem_of_token_occurrences in Hocc as (e & He & Htok & ->).
  by exists e.
Qed.

Lemma undefined_block_length (kv : str * list (@entry Path)) :
  length (undefined_block kv) = 0 \/ 2 <= length (undefined_block kv).
Proof.
  unfold undefined_block. destruct (Nat.leb_spec 2 (length kv.2)); [|by left].
  right. by rewrite length_fmap.
Qed.

Lemma undefined_length entries defs :
  length (undefined (scan_acronyms entries defs)) = 0
  \/ 2 <= length (undefined (scan_acronyms entries defs)).
Proof.
  rewrite undefined_scan, report_undefined_bind.
  induction (scan_undefined _ _).1 as [|kv counts IH]; [by left|].
  rewrite bind_cons, length_app.
  destruct (undefined_block_length kv), IH; lia.
Qed.

(** The line of such a record still holds the token in parentheses. *)
Lemma undefined_line_holds_token entries defs x :
  x ∈ undefined (scan_acronyms entries defs) ->
  occurs_in (in_parens (token_of x)) x.2.
Proof.
  intros (e & _ & Hx & Htok & _)%elem_of_undefined.
  rewrite Hx at 2. destruct e as [[p n] l]. cbn [tagged occurrence_of fst snd].
  apply occurs_in_strip; [apply in_parens_trimmed|].
  apply line_tokens_elem in Htok as [i Hp]. by apply paren_token_occurs in Hp.
Qed.
End UndefinedShape.

(** X13: every record of the undefined-acronym list is a body record with
    its line stripped, tagged with a token that was read on that line: 2
    to 10 upper-case letters, neither a defined short form nor a Roman
    numeral, and still standing in parentheses in the stripped line.  The
    list never has exactly one record. *)
Theorem undefined_records_shape {Path : Type}
    (entries : list (@entry Path)) (acronym_defs : list (str * @acronym_def Path)) :
  let r := scan_acronyms entries acronym_defs in
  (forall x, x ∈ undefined r ->
     exists e, e ∈ content_from false entries
               /\ x = (token_of x, e.1.1, e.1.2, Py.strip e.2)
               /\ token_of x ∈ line_tokens e.2
               /\ 2 <= length (token_of x) <= 10
               /\ Forall (fun c => Py.isupper c = true) (token_of x)
               /\ (token_of x ∉ defined_shorts_of acronym_defs)
               /\ (token_of x ∉ roman_numerals)
               /\ occurs_in (in_parens (token_of x)) (Py.strip e.2))
  /\ (length (undefined r) = 0 \/ 2 <= length (undefined r)).
Proof.
  cbv zeta. split; [|apply undefined_length].
  intros x Hin. pose proof (undefined_line_holds_token _ _ _ Hin) as Hocc.
  destruct (elem_of_undefined _ _ _ Hin) as (e & He & Hx & Htok & Hq).
  exists e. destruct e as [[p n] l]. cbn [tagged occurrence_of fst snd] in *.
  pose proof Htok as [i (Hlen & Hup & _)]%line_tokens_elem.
  unfold qualifies in Hq. apply andb_true_iff in Hq as [Hd Hr].
  apply bool_decide_eq_true in Hd, Hr.
  rewrite Hx in Hocc. unfold token_of in Hocc. cbn [fst snd] in Hocc.
  split_and!; try done; lia.
Qed.

Section SplitFacts.
Implicit Types (s w cur : str) (ws : list str).

Lemma split_aux_words cur s :
  Forall (fun c => Py.isspace c = false) cur ->
  Forall is_word (Py.split_aux cur s).
Proof.
  revert cur. induction s as [|c s IH]; intros cur Hcur; cbn [Py.split_aux].
  - destruct cur as [|x cur]; [constructor|]. constructor; [|constructor].
    split; [|by apply Forall_rev].
    intros Hnil. apply (f_equal length) in Hnil. rewrite length_rev in Hnil. done.
  - destruct (Py.isspace c) eqn:Hc.
    + destruct cur as [|x cur]; [by apply IH|]. constructor; [|by apply IH].
      split; [|by apply Forall_rev].
      intros Hnil. apply (f_equal length) in Hnil. rewrite length_rev in Hnil. done.
    + apply IH. by constructor.
Qed.

(** The words of [s.split()] are words. *)
Lemma split_words s : Forall is_word (Py.split s).
Proof. by apply split_aux_words. Qed.

Lemma split_aux_word cur w s :
  Forall (fun c => Py.isspace c = false) w ->
  Py.split_aux cur (w ++ s) = Py.split_aux (rev w ++ cur) s.
Proof.
  intros Hw. revert cur. induction Hw as [|c w Hc _ IH]; intros cur; [done|].
  cbn [app Py.split_aux rev]. rewrite Hc, IH, <- app_assoc. done.
Qed.

(** Joining words with one blank and splitting again gives the words
    back. *)
Lemma split_join ws :
  Forall is_word ws -> Py.split (Py.join (txt " ") ws) = ws.
Proof.
  unfold Py.split. induction 1 as [|w ws [Hne Hw] Hws IH]; [done|].
  destruct ws as [|w' ws].
  - cbn [Py.join]. rewrite <- (app_nil_r w) at 1.
    rewrite split_aux_word, app_nil_r by done. cbn [Py.split_aux].
    destruct (rev w) eqn:Hr; [|by rewrite <- Hr, rev_involutive].
    apply (f_equal length) in Hr. rewrite length_rev in Hr. by destruct w.
  - change (Py.join (txt " ") (w :: w' :: ws))
      with (w ++ " "%char :: Py.join (txt " ") (w' :: ws)).
    rewrite split_aux_word, app_nil_r by done. cbn [Py.split_aux Py.isspace].
    change (Py.isspace " ") with true. cbv iota.
    destruct (rev w) eqn:Hr.
    { apply (f_equal length) in Hr. rewrite length_rev in Hr. by destruct w. }
    by rewrite <- Hr, rev_involutive, IH.
Qed.

Lemma join_cons_cons sep w w' ws :
  Py.join sep (w :: w' :: ws) = w ++ sep ++ Py.join sep (w' :: ws).
Proof. done. Qed.

Lemma join_nil ws : Forall is_word ws -> Py.join (txt " ") ws = [] -> ws = [].
Proof.
  intros Hws. destruct Hws as [|w ws [Hne _] Hws]; [done|].
  destruct ws; cbn [Py.join]; [done|]. by destruct w.
Qed.
Lemma join_trimmed ws : Forall is_word ws -> trimmed (Py.join (txt " ") ws).
Proof.
  induction 1 as [|w ws [Hne Hw] Hws [IHh IHl]]; [done|].
  assert (match w with c :: _ => Py.isspace c = false | [] => True end) as Hhead
    by (destruct Hw; done).
  assert (match last w with Some c => Py.isspace c = false | None => True end) as Hlast.
  { destruct (last w) as [c|] eqn:Hl; [|done].
    rewrite Forall_forall in Hw. apply Hw. by eapply last_Some_elem_of. }
  destruct ws as [|w' ws]; [done|]. rewrite join_cons_cons. split.
  - by destruct w.
  - destruct (last (Py.join (txt " ") (w' :: ws))) as [c|] eqn:Hl.
    + by rewrite app_assoc, last_app, Hl.
    + apply last_None in Hl. by apply join_nil in Hl.
Qed.

End SplitFacts.

(** X14: a recovered long form is normalised: it consists of one to five
    words separated by single blanks, so splitting it gives these words
    back and joining them gives the long form again; every word is
    capitalised or a connector, at least one is capitalised, and the long
    form is neither empty nor blank at either end. *)
Theorem recovered_long_form_shape (acronym line full_form : str) :
  recover_full_form acronym line = Some full_form ->
  let ws := Py.split full_form in
  Py.join (txt " ") ws = full_form
  /\ 1 <= length ws <= 5
  /\ Forall (fun w => keep_word w = true) ws
  /\ Exists (fun w => starts_upper w = true) ws
  /\ full_form <> []
  /\ trimmed full_form.
Proof.
  intros (m & kept & _ & Hwalk & Hne & Hup & ->)%recover_full_form_spec.
  assert (length kept <= 5 /\ Forall is_word kept) as [Hlen Hwords].
  { destruct Hwalk as (skipped & Heq & _).
    pose proof (split_words (Py.strip (Py.slice_to line (Z.of_nat (m_start m)))))
      as Hall.
    pose proof (last_n_length 5 (Py.split (Py.strip (Py.slice_to line
                                                       (Z.of_nat (m_start m)))))) as Hl.
    fold (candidate_words line (m_start m)) in Hl. rewrite Heq, length_app in Hl.
    split; [lia|].
    assert (Forall is_word (candidate_words line (m_start m))) as Hc.
    { unfold candidate_words, Py.last_n. by apply Forall_drop. }
    rewrite Heq in Hc. by apply Forall_app in Hc as [_ ?]. }
  cbv zeta. rewrite split_join by done.
  destruct Hwalk as (_ & _ & Hkeep & _).
  split_and!; try done.
  - destruct kept; [done | cbn; lia].
  - intros Hnil. by apply join_nil in Hnil.
  - by apply join_trimmed.
Qed.

Lemma recovered_long_form_shape_witness :
  Py.join (txt " ") (Py.split (txt "Austrian Institute of Technology"))
  = txt "Austrian Institute of Technology"
  /\ length (Py.split (txt "Austrian Institute of Technology")) = 4.
Proof.
  split; [|vm_compute; reflexivity].
  refine (proj1 (recovered_long_form_shape (txt "AIT") ait_line
                   (txt "Austrian Institute of Technology") _)).
  vm_compute. reflexivity.
Defined.

Section SentenceMore.
Import Sentence.
Implicit Types (s t text target_text sentence : str).

Lemma slice_occurs s (a b : Z) : occurs_in (Py.slice s a b) s.
Proof.
  unfold Py.slice.
  set (m := Z.to_nat (Py.norm_index (Py.len s) a)).
  set (n := Z.to_nat (Py.norm_index (Py.len s) b - Py.norm_index (Py.len s) a)).
  exists (take m s), (drop n (drop m s)). by rewrite take_drop, take_drop.
Qed.

Lemma strip_slice_occurs s (a b : Z) : occurs_in (Py.strip (Py.slice s a b)) s.
Proof. eapply occurs_in_trans; [apply occurs_in_strip_self | apply slice_occurs]. Qed.

Lemma occurs_in_refl s : occurs_in s s.
Proof. exists [], []. by rewrite app_nil_r. Qed.

Lemma occurs_in_length t s : occurs_in t s -> length t <= length s.
Proof. intros (a & b & ->). rewrite !length_app. lia. Qed.

(** What the attempt to narrow a sentence returns: the sentence, or a
    stripped part of it that holds the target. *)
Lemma narrow_cases sentence target_text (target_pos sentence_start : Z) :
  narrow sentence target_text target_pos sentence_start = sentence
  \/ (400 < Py.len sentence)%Z
     /\ Py.contains (narrow sentence target_text target_pos sentence_start) target_text
        = true
     /\ (30 < Py.len (narrow sentence target_text target_pos sentence_start))%Z
     /\ exists a b, narrow sentence target_text target_pos sentence_start
                    = Py.strip (Py.slice sentence a b).
Proof.
  unfold narrow. destruct (Z.ltb_spec 400 (Py.len sentence)) as [Hlong|]; [|by left].
  cbv zeta.
  match goal with
  | |- context [Py.strip (Py.slice sentence ?a ?b)] =>
      set (focused := Py.strip (Py.slice sentence a b));
      assert (exists a' b', focused = Py.strip (Py.slice sentence a' b')) as Hf
        by by exists a, b
  end.
  destruct (Py.contains focused target_text) eqn:Hc; [|by left]. cbn [andb].
  destruct (Z.ltb_spec 30 (Py.len focused)); [|by left].
  right. by split_and!.
Qed.

Lemma take_drop_middle_occurs (A t R : str) m n :
  m <= length A -> length A - m + length t <= n ->
  occurs_in t (take n (drop m (A ++ t ++ R))).
Proof.
  intros Hm Hn. rewrite drop_app_le by lia.
  rewrite take_app, length_drop, (take_ge (drop m A)) by (rewrite length_drop; lia).
  rewrite take_app, (take_ge t) by lia.
  by eexists _, _.
Qed.

Lemma slice_range_occurs s t (a b : Z) pos :
  take (length t) (drop pos s) = t ->
  pos + length t <= length s ->
  (0 <= a <= Z.of_nat pos)%Z ->
  (Z.of_nat (pos + length t) <= b)%Z ->
  occurs_in t (Py.slice s a b).
Proof.
  intros Ht Hlen Ha Hb.
  assert (exists A R, s = A ++ t ++ R /\ length A = pos) as (A & R & -> & HA).
  { exists (take pos s), (drop (length t) (drop pos s)). split.
    - transitivity (take pos s ++ drop pos s); [by rewrite take_drop|]. f_equal.
      rewrite <- (take_drop (length t) (drop pos s)) at 1. by rewrite Ht.
    - rewrite length_take. lia. }
  unfold Py.slice, Py.norm_index, Py.len.
  destruct (Z.ltb_spec a 0) as [?|_]; [lia|].
  destruct (Z.ltb_spec b 0) as [?|_]; [lia|].
  apply take_drop_middle_occurs; rewrite ?length_app in *; lia.
Qed.

(** Nothing is a sentence boundary in a text without ".", "!" and "?". *)
Lemma no_boundary_without_punctuation text pos :
  Forall (fun c => c ∉ txt ".!?") text -> is_sentence_boundary text pos = false.
Proof.
  intros Hno. unfold is_sentence_boundary, Py.len, char_at.
  destruct (Z.leb_spec (Z.of_nat (length text)) (Z.of_nat pos)) as [|Hlt]; [done|].
  cbn [orb]. rewrite Nat2Z.id.
  destruct (lookup_lt_is_Some_2 text pos ltac:(lia)) as [c Hc].
  rewrite (nth_lookup_Some _ _ _ _ Hc).
  rewrite Forall_forall in Hno. rewrite bool_decide_eq_false_2; [done|].
  apply Hno. by eapply list_elem_of_lookup_2.
Qed.

Lemma find_none {A} (f : A -> bool) (l : list A) :
  (forall x, f x = false) -> List.find f l = None.
Proof. intros Hf. induction l as [|x l IH]; [done|]. cbn. by rewrite Hf. Qed.

Lemma slice_whole s : Py.slice s (Z.of_nat 0) (Z.of_nat (length s)) = s.
Proof.
  unfold Py.slice, Py.norm_index, Py.len.
  destruct (Z.ltb_spec (Z.of_nat (length s)) 0); [lia|].
  destruct (Z.ltb_spec (Z.of_nat 0) 0); [lia|].
  replace (Z.to_nat (Z.of_nat 0 `min` Z.of_nat (length s))) with 0 by lia.
  cbn [drop]. apply take_ge. lia.
Qed.
End SentenceMore.

(** X15: whatever the line and the target, the excerpt is a part of the
    line: some stretch of consecutive characters of it, with no blank at
    either end; so it is never longer than the line and stripping it again
    changes nothing. *)
Theorem excerpt_is_part_of_line (text target_text : str) :
  let excerpt := Sentence.extract_sentence_containing_text text target_text in
  occurs_in excerpt text
  /\ trimmed excerpt
  /\ length excerpt <= length text
  /\ Py.strip excerpt = excerpt.
Proof.
  cbv zeta.
  assert (occurs_in (Sentence.extract_sentence_containing_text text target_text) text
          /\ trimmed (Sentence.extract_sentence_containing_text text target_text))
    as [Hocc Htr].
  { unfold Sentence.extract_sentence_containing_text.
    destruct (Py.find text target_text) as [pos|];
      [|split; [apply occurs_in_strip_self | apply strip_trimmed]].
    cbv zeta.
    match goal with
    | |- context [Sentence.narrow (Py.strip (Py.slice text ?a ?b)) ?t ?p ?q] =>
        set (sentence0 := Py.strip (Py.slice text a b));
        assert (occurs_in sentence0 text) as H0 by apply strip_slice_occurs;
        assert (trimmed sentence0) as T0 by apply strip_trimmed;
        destruct (narrow_cases sentence0 t p q) as [Hn|(_ & _ & _ & a' & b' & Hn)];
        rewrite Hn
    end.
    - destruct (_ || _); [split; [apply strip_slice_occurs | apply strip_trimmed]|].
      by split.
    - destruct (_ || _); [split; [apply strip_slice_occurs | apply strip_trimmed]|].
      split; [|apply strip_trimmed].
      eapply occurs_in_trans; [apply strip_slice_occurs | exact H0]. }
  split_and!; [done | done | by apply occurs_in_length | by apply strip_id].
Qed.

Section ExcerptFacts.
Import Sentence.
Implicit Types (s t text target_text : str).

Lemma find_occurs text target_text pos :
  Py.find text target_text = Some pos -> occurs_in target_text text.
Proof. intros Hf. apply contains_spec. unfold Py.contains. by rewrite Hf. Qed.

(** A target that is found, is at most 200 characters long and has no
    blank at either end is in the excerpt. *)
Lemma excerpt_occurs text target_text pos :
  Py.find text target_text = Some pos ->
  trimmed target_text -> length target_text <= 200 ->
  occurs_in target_text (extract_sentence_containing_text text target_text).
Proof.
  intros Hf Htr Hlen. unfold extract_sentence_containing_text. rewrite Hf.
  cbv zeta.
  match goal with |- context [narrow ?s ?t ?p ?q] => generalize (narrow s t p q) end.
  intros sentence.
  assert (occurs_in target_text
            (Py.strip (Py.slice text (0 `max` (Z.of_nat pos - 150))
                         (Py.len text `min` (Z.of_nat pos + 200))))) as Hfall.
  { apply occurs_in_strip; [done|].
    apply find_Some in Hf as (Htake & Hpos).
    apply (slice_range_occurs _ _ _ _ pos); [done | done | lia |].
    unfold Py.len. lia. }
  destruct (Py.len sentence <? 20)%Z; cbn [orb]; [done|].
  destruct (Py.contains sentence target_text) eqn:Hc; cbn [negb]; [|done].
  by apply contains_spec.
Qed.
End ExcerptFacts.

(** X16: when the target is found in the line, is at most 200 characters
    long and has no blank at either end, the excerpt holds the target,
    whichever way the excerpt was cut. *)
Theorem excerpt_holds_target (text target_text : str) (pos : nat) :
  Py.find text target_text = Some pos ->
  trimmed target_text ->
  length target_text <= 200 ->
  occurs_in target_text (Sentence.extract_sentence_containing_text text target_text)
  /\ Py.contains (Sentence.extract_sentence_containing_text text target_text) target_text
     = true.
Proof.
  intros Hf Htr Hlen. pose proof (excerpt_occurs _ _ _ Hf Htr Hlen) as Hocc.
  split; [done | by apply contains_spec].
Qed.

Lemma excerpt_holds_target_witness :
  Py.find vae_line (txt "(VAE)") = Some 36
  /\ Py.contains (Sentence.extract_sentence_containing_text vae_line (txt "(VAE)"))
       (txt "(VAE)") = true.
Proof.
  assert (Py.find vae_line (txt "(VAE)") = Some 36) as Hf by (vm_compute; reflexivity).
  split; [exact Hf|].
  refine (proj2 (excerpt_holds_target vae_line (txt "(VAE)") 36 Hf _ _)).
  - split; vm_compute; reflexivity.
  - vm_compute. lia.
Defined.

(** X17: a line without ".", "!" and "?" has no sentence boundary, so
    when the target is found in it, has no blank at either end, and the
    stripped line has 20 to 400 characters, the excerpt is the whole
    stripped line. *)
Theorem line_without_punctuation_is_kept (text target_text : str) (pos : nat) :
  Forall (fun c => c ∉ txt ".!?") text ->
  Py.find text target_text = Some pos ->
  trimmed target_text ->
  20 <= length (Py.strip text) <= 400 ->
  Sentence.extract_sentence_containing_text text target_text = Py.strip text.
Proof.
  intros Hno Hf Htr Hlen. unfold Sentence.extract_sentence_containing_text.
  rewrite Hf. cbv zeta.
  rewrite !find_none by (intros x; by apply no_boundary_without_punctuation).
  rewrite slice_whole. unfold Sentence.narrow, Py.len.
  destruct (Z.ltb_spec 400 (Z.of_nat (length (Py.strip text)))); [lia|].
  destruct (Z.ltb_spec (Z.of_nat (length (Py.strip text))) 20); [lia|]. cbn [orb].
  rewrite (proj2 (contains_spec _ _)); [done|].
  apply occurs_in_strip; [done|]. by eapply find_occurs.
Qed.

Lemma line_without_punctuation_is_kept_witness :
  Sentence.extract_sentence_containing_text plain_sentence (txt "(VAE)")
  = txt "the Variational Autoencoder (VAE) model, as used here".
Proof.
  apply (line_without_punctuation_is_kept plain_sentence (txt "(VAE)") 30).
  - apply (bool_decide_unpack _). vm_compute. reflexivity.
  - vm_compute. reflexivity.
  - split; vm_compute; reflexivity.
  - vm_compute. lia.
Defined.

(** X18: for every record of the undefined-acronym list, the token in
    parentheses is found in the record's line, and the excerpt made of
    that line for the report holds the token in parentheses. *)
Theorem undefined_excerpt_holds_token {Path : Type}
    (entries : list (@entry Path)) (acronym_defs : list (str * @acronym_def Path)) :
  forall x, x ∈ undefined (scan_acronyms entries acronym_defs) ->
    is_Some (Py.find x.2 (in_parens (token_of x)))
    /\ occurs_in (in_parens (token_of x))
         (Sentence.extract_sentence_containing_text x.2 (in_parens (token_of x))).
Proof.
  intros x Hin. pose proof (undefined_line_holds_token _ _ _ Hin) as Hocc.
  apply contains_spec in Hocc. unfold Py.contains in Hocc.
  destruct (Py.find x.2 (in_parens (token_of x))) as [pos|] eqn:Hf; [|done].
  split; [by eexists|].
  apply (excerpt_occurs _ _ pos Hf); [apply in_parens_trimmed|].
  destruct (elem_of_undefined _ _ _ Hin) as (e & _ & _ & Htok & _).
  apply line_tokens_elem in Htok as (i & Hl & _).
  unfold in_parens. rewrite !length_app. cbn. lia.
Qed.

Lemma undefined_excerpt_holds_token_witness :
  is_Some (Py.find (txt "Later the (AIT) and the agency (NASA) agreed.")
             (in_parens (txt "AIT")))
  /\ occurs_in (in_parens (txt "AIT"))
       (Sentence.extract_sentence_containing_text
          (txt "Later the (AIT) and the agency (NASA) agreed.") (in_parens (txt "AIT"))).
Proof.
  apply (undefined_excerpt_holds_token double_ait []
           (txt "AIT", sample_root (txt "main.tex"), 3,
            txt "Later the (AIT) and the agency (NASA) agreed.")).
  apply (bool_decide_unpack _). vm_compute. reflexivity.
Defined.

Section RendererFacts.
Context {Path : Type}.
Implicit Types (entries : list (@entry Path)) (defs : list (str * @acronym_def Path)).

Lemma dict_in_Some {K V} `{EqDecision K} (d : list (K * V)) k :
  dict_in d k = true <-> is_Some (dict_get d k).
Proof.
  unfold dict_in. destruct (dict_get d k); split; [by eexists | done | done | by intros []].
Qed.

Lemma filed_cons {K V X} (g : K * V -> list X) (kv : K * V) (d : list (K * V)) :
  filed g (kv :: d)
  = match g kv with [] => filed g d | _ :: _ => (kv.1, g kv) :: filed g d end.
Proof. unfold filed. cbn. by destruct (g kv). Qed.

Lemma dict_in_filed {K V X} `{EqDecision K} (g : K * V -> list X) (d : list (K * V)) k :
  NoDup d.*1 ->
  dict_in (filed g d) k
  = match dict_get d k with
    | Some v => negb (bool_decide (g (k, v) = []))
    | None => false
    end.
Proof.
  unfold dict_in. induction d as [|[k0 v0] d IH]; [done|].
  rewrite fmap_cons, NoDup_cons. cbn [fst]. intros [Hk Hnd].
  rewrite filed_cons. cbn [dict_get fst].
  destruct (decide (k0 = k)) as [->|Hne].
  - destruct (g (k, v0)) as [|x l] eqn:Hg.
    + rewrite IH by done. apply dict_get_None in Hk. by rewrite Hk.
    + cbn [dict_get]. by rewrite decide_True.
  - destruct (g (k0, v0)) as [|x l] eqn:Hg; [by apply IH|].
    cbn [dict_get]. rewrite decide_False by done. by apply IH.
Qed.

Lemma dict_get_filed {K V X} `{EqDecision K} (g : K * V -> list X) (d : list (K * V)) k :
  NoDup d.*1 ->
  default [] (dict_get (filed g d) k)
  = match dict_get d k with Some v => g (k, v) | None => [] end.
Proof.
  induction d as [|[k0 v0] d IH]; [done|].
  rewrite fmap_cons, NoDup_cons. cbn [fst]. intros [Hk Hnd].
  rewrite filed_cons. cbn [dict_get fst].
  destruct (decide (k0 = k)) as [->|Hne].
  - destruct (g (k, v0)) as [|x l] eqn:Hg.
    + rewrite IH by done. apply dict_get_None in Hk. by rewrite Hk.
    + cbn [dict_get]. by rewrite decide_True.
  - destruct (g (k0, v0)) as [|x l] eqn:Hg; [by apply IH|].
    cbn [dict_get]. rewrite decide_False by done. by apply IH.
Qed.

Lemma used_full_filed entries defs :
  NoDup defs.*1 ->
  used_full (scan_acronyms entries defs)
  = filed (fun kv => filter (fun e => usage_found (full kv.2) e.2 = true)
                            (content_from false entries)) defs.
Proof.
  intros Hnd. rewrite used_full_scan, scan_usage_events. by apply group_into_filed.
Qed.

Lemma used_short_filed entries defs :
  NoDup defs.*1 ->
  used_short (scan_acronyms entries defs)
  = filed (fun kv => filter (fun e => usage_found (short kv.2) e.2 = true)
                            (content_from false entries)) defs.
Proof.
  intros Hnd. rewrite used_short_scan, scan_usage_events. by apply group_into_filed.
Qed.
End RendererFacts.

Section RendererCounts.
Context {Path : Type}.
Implicit Types (entries : list (@entry Path)) (defs : list (str * @acronym_def Path)).

Lemma list_sum_cons (n : nat) (l : list nat) : list_sum (n :: l) = n + list_sum l.
Proof. done. Qed.

Lemma excerpt_lines_app {K X} (g1 g2 : list (K * list X)) :
  excerpt_lines (g1 ++ g2) = excerpt_lines g1 + excerpt_lines g2.
Proof. unfold excerpt_lines. by rewrite map_app, list_sum_app. Qed.

(** The count of the summary, definition by definition. *)
Lemma glossary_count_sum (g : str * @acronym_def Path -> list (@entry Path))
    defs (d : list (str * @acronym_def Path)) :
  (forall kv, kv ∈ d -> dict_in defs kv.1 = true) ->
  list_sum
    (map (fun kv : str * list (@entry Path) => length kv.2)
       (filter (fun kv : str * list (@entry Path) =>
                  dict_in defs kv.1 && (1 <? length kv.2) = true)
               (filed g d)))
  = list_sum (map (fun kv => if 1 <? length (g kv) then length (g kv) else 0) d).
Proof.
  induction d as [|kv d IH]; intros Hin; [done|].
  rewrite filed_cons. cbn [map]. rewrite list_sum_cons.
  rewrite <- IH by (intros kv' Hkv'; apply Hin; by right).
  destruct (g kv) as [|x l] eqn:Hg; [done|].
  rewrite filter_cons. cbn [fst snd]. rewrite (Hin kv) by left. cbn [andb].
  destruct (1 <? length (x :: l)) eqn:Hlen.
  - rewrite decide_True by done. cbn [map]. by rewrite list_sum_cons.
  - by rewrite decide_False by done.
Qed.

(** The lines of Section 2, definition by definition. *)
Lemma section2_lines_sum (g : str * @acronym_def Path -> list (@entry Path))
    (r : @report Path) (d : list (str * @acronym_def Path)) :
  (forall kv, kv ∈ d -> default [] (dict_get (used_full r) kv.1) = g kv) ->
  excerpt_lines (section2_excerpts d r)
  = list_sum (map (fun kv => if 1 <? length (g kv) then length (g kv) else 0) d)
  /\ Forall (fun grp => 2 <= length grp.2) (section2_excerpts d r).
Proof.
  induction d as [|[key data] d IH]; intros Hin; [by split; [|constructor]|].
  destruct IH as [IH1 IH2]; [intros kv' Hkv'; apply Hin; by right|].
  unfold section2_excerpts. rewrite bind_cons. fold (section2_excerpts d r).
  rewrite excerpt_lines_app, Forall_app, IH1. cbn [map]. rewrite list_sum_cons.
  pose proof (Hin (key, data) ltac:(left)) as Hk. cbn [fst] in Hk. rewrite Hk.
  destruct (g (key, data)) as [|x l] eqn:Hg; [by split; [|split; [constructor|]]|].
  rewrite bool_decide_eq_false_2 by done. cbn [negb andb].
  destruct (Nat.ltb_spec 1 (length (x :: l))) as [Hlen|Hlen].
  - split; [|split; [|done]].
    + unfold excerpt_lines. cbn [map]. rewrite list_sum_cons.
      cbn [snd length]. rewrite length_map. change (list_sum []) with 0.
      by rewrite Nat.add_0_r.
    + constructor; [|constructor]. cbn [snd]. rewrite length_map. exact Hlen.
  - split; [done|]. split; [constructor | done].
Qed.
End RendererCounts.

(** X19: the unused definitions the report lists are the keys whose long
    form and short form are both found on no body line. *)
Theorem defined_never_used_spec {Path : Type}
    (entries : list (@entry Path)) (acronym_defs : list (str * @acronym_def Path))
    (key : str) :
  NoDup acronym_defs.*1 ->
  key ∈ defined_never_used acronym_defs (scan_acronyms entries acronym_defs)
  <-> exists data,
        dict_get acronym_defs key = Some data
        /\ Forall (fun e => usage_found (full data) e.2 = false)
                  (content_from false entries)
        /\ Forall (fun e => usage_found (short data) e.2 = false)
                  (content_from false entries).
Proof.
  intros Hnd. unfold defined_never_used.
  rewrite used_full_filed, used_short_filed by done.
  assert (forall (P : @entry Path -> bool) (l : list (@entry Path)),
            negb (bool_decide (filter (fun e => P e = true) l = [])) = false
            <-> Forall (fun e => P e = false) l) as Hempty.
  { intros P l. rewrite negb_false_iff, bool_decide_eq_true.
    induction l as [|e l IH]; [by split; [constructor|]|].
    rewrite filter_cons, Forall_cons.
    destruct (P e).
    - rewrite decide_True by done. split; [done | by intros []].
    - rewrite decide_False by done. rewrite IH. split; [done | by intros []]. }
  rewrite list_elem_of_fmap. split.
  - intros ([k data] & -> & [Hcond Hin]%list_elem_of_filter). cbn [fst] in *.
    pose proof (dict_get_NoDup _ _ _ Hnd Hin) as Hget.
    rewrite !dict_in_filed, Hget in Hcond by done. cbn [snd] in Hcond.
    apply andb_true_iff in Hcond as [H1 H2].
    apply negb_true_iff in H1, H2. apply Hempty in H1, H2. by exists data.
  - intros (data & Hget & H1 & H2). exists (key, data). split; [done|].
    apply list_elem_of_filter. split; [|by apply dict_get_Some_elem].
    cbn [fst]. rewrite !dict_in_filed, Hget by done. cbn [snd].
    apply (Hempty (fun e => usage_found (full data) e.2)) in H1.
    apply (Hempty (fun e => usage_found (short data) e.2)) in H2.
    unfold entry in *. by rewrite H1, H2.
Qed.

Lemma defined_never_used_spec_witness :
  NoDup two_defs.*1
  /\ defined_never_used two_defs (scan_acronyms vae_twice two_defs) = [txt "gan"]
  /\ Forall (fun e => usage_found (txt "GAN") e.2 = false) (content_from false vae_twice).
Proof.
  assert (NoDup two_defs.*1) as Hnd
    by (apply (bool_decide_unpack _); vm_compute; reflexivity).
  split; [exact Hnd|]. split; [vm_compute; reflexivity|].
  assert (txt "gan" ∈ defined_never_used two_defs (scan_acronyms vae_twice two_defs))
    as Hin by (apply (bool_decide_unpack _); vm_compute; reflexivity).
  apply (proj1 (defined_never_used_spec vae_twice two_defs (txt "gan") Hnd)) in Hin
    as (data & Hget & _ & Hshort).
  injection Hget as <-. exact Hshort.
Defined.

(** X20: the count of long-form uses in the summary is the number of
    excerpt lines of Section 2: both leave out the definitions whose long
    form is found on one body line only, and every group shown has two
    lines or more.  The test that the key is a defined one never fails. *)
Theorem summary_count_matches_section2 {Path : Type}
    (entries : list (@entry Path)) (acronym_defs : list (str * @acronym_def Path)) :
  NoDup acronym_defs.*1 ->
  let r := scan_acronyms entries acronym_defs in
  glossary_full_form_count acronym_defs r
  = excerpt_lines (section2_excerpts acronym_defs r)
  /\ Forall (fun grp => 2 <= length grp.2) (section2_excerpts acronym_defs r)
  /\ Forall (fun kv => dict_in acronym_defs kv.1 = true) (used_full r).
Proof.
  intros Hnd r.
  set (g := fun kv : str * @acronym_def Path =>
              filter (fun e : @entry Path => usage_found (full kv.2) e.2 = true)
                     (content_from false entries)).
  assert (used_full r = filed g acronym_defs) as Huf by by apply used_full_filed.
  assert (forall kv, kv ∈ acronym_defs -> dict_get acronym_defs kv.1 = Some kv.2) as Hget.
  { intros [k v] Hin. by apply dict_get_NoDup. }
  destruct (section2_lines_sum g r acronym_defs) as [Hlines Hgrp].
  { intros [k v] Hin. rewrite Huf, dict_get_filed, (Hget _ Hin) by done. done. }
  split_and!; [|done|].
  - unfold glossary_full_form_count. rewrite Huf, Hlines.
    apply glossary_count_sum. intros kv Hin. apply dict_in_Some.
    rewrite (Hget _ Hin). by eexists.
  - rewrite Huf. apply Forall_forall. intros kl (_ & v & Hin & _)%filed_keys.
    apply dict_in_Some. rewrite (dict_get_NoDup _ _ _ Hnd Hin). by eexists.
Qed.

Lemma summary_count_matches_section2_witness :
  NoDup two_defs.*1
  /\ glossary_full_form_count two_defs (scan_acronyms vae_body two_defs)
     = excerpt_lines (section2_excerpts two_defs (scan_acronyms vae_body two_defs))
  /\ glossary_full_form_count two_defs (scan_acronyms vae_body two_defs) = 2.
Proof.
  assert (NoDup two_defs.*1) as Hnd
    by (apply (bool_decide_unpack _); vm_compute; reflexivity).
  split; [exact Hnd|]. split.
  - exact (proj1 (summary_count_matches_section2 vae_body two_defs Hnd)).
  - vm_compute. reflexivity.
Defined.

Section Section1Facts.
Context {Path : Type}.
Implicit Types (entries : list (@entry Path)) (defs : list (str * @acronym_def Path)).

Lemma undefined_grouped_events (r : @report Path) :
  undefined_grouped r = group_into [] (untagged <$> undefined r).
Proof.
  unfold undefined_grouped, group_into. rewrite foldl_fmap_list.
  apply foldl_ext_in. by intros acc [[[a p] n] l] _.
Qed.

Lemma untagged_block (kv : str * list (@entry Path)) :
  untagged <$> undefined_block kv
  = (fun occ => (kv.1, occ)) <$> (if 2 <=? length kv.2 then kv.2 else []).
Proof.
  unfold undefined_block. destruct (2 <=? length kv.2); [|done].
  rewrite <- list_fmap_compose. apply list_fmap_ext. by intros _ [[p n] l] _.
Qed.

Lemma fmap_bind_list {A B C} (f : B -> C) (g : A -> list B) (l : list A) :
  f <$> (l ≫= g) = l ≫= fun x => f <$> g x.
Proof.
  induction l as [|x l IH]; [done|]. by rewrite !bind_cons, fmap_app, IH.
Qed.

(** Sum of the group sizes after filing a sequence of items. *)
Lemma dd_append_lines {K X} `{EqDecision K} (k : K) (x : X) (d : list (K * list X)) :
  excerpt_lines (dd_append k x d) = S (excerpt_lines d).
Proof.
  unfold dd_append, excerpt_lines.
  induction d as [|[k0 l0] d IH]; [done|]. cbn [dict_get dict_set].
  destruct (decide (k0 = k)) as [->|Hne]; cbn [map].
  - rewrite !list_sum_cons. cbn [snd default from_option id]. rewrite length_app.
    cbn [length]. lia.
  - rewrite !list_sum_cons, IH. lia.
Qed.

Lemma group_into_lines {K X} `{EqDecision K} (d : list (K * list X)) (evs : list (K * X)) :
  excerpt_lines (group_into d evs) = excerpt_lines d + length evs.
Proof.
  revert d. induction evs as [|ev evs IH]; intros d; [cbn [group_into foldl length]; lia|].
  rewrite group_into_cons, IH, dd_append_lines. cbn [length]. lia.
Qed.

Lemma undefined_grouped_filed entries defs :
  undefined_grouped (scan_acronyms entries defs)
  = filed (fun kv => if 2 <=? length kv.2 then kv.2 else [])
          (scan_undefined (content_from false entries) (defined_shorts_of defs)).1.
Proof.
  rewrite undefined_grouped_events, undefined_scan, report_undefined_bind.
  rewrite fmap_bind_list.
  rewrite (list_bind_ext _ (fun kv => (fun occ => (kv.1, occ)) <$>
                                        (if 2 <=? length kv.2 then kv.2 else []))
             _ _ (fun kv => untagged_block kv) eq_refl).
  apply group_into_filed.
  apply (undefined_counts_get entries defs []).
Qed.

Lemma undefined_grouped_get entries defs tok :
  default [] (dict_get (undefined_grouped (scan_acronyms entries defs)) tok)
  = reported_occurrences (defined_shorts_of defs) (content_from false entries) tok.
Proof.
  rewrite undefined_grouped_filed.
  destruct (undefined_counts_get entries defs tok) as [Hnd Hget].
  rewrite dict_get_filed by done. unfold reported_occurrences. cbv zeta.
  destruct (dict_get _ tok) as [occs|] eqn:Hd; cbn [default from_option id snd] in *.
  - rewrite Hget. by destruct (qualifies _ tok).
  - destruct (qualifies _ tok); [|done]. rewrite <- Hget. done.
Qed.
End Section1Facts.

(** X21: Section 1 of the report regroups the undefined-acronym list by
    token.  The groups are the tokens that qualify and occur twice or more
    in the body, each once, and under each all its occurrences in
    document order; every group has at least two excerpt lines, and the
    lines of the section add up to the count of the summary. *)
Theorem undefined_count_matches_section1 {Path : Type}
    (entries : list (@entry Path)) (acronym_defs : list (str * @acronym_def Path)) :
  let r := scan_acronyms entries acronym_defs in
  undefined_count r = excerpt_lines (section1_excerpts r)
  /\ NoDup (section1_excerpts r).*1
  /\ Forall (fun grp => 2 <= length grp.2) (section1_excerpts r)
  /\ (forall tok,
        default [] (dict_get (undefined_grouped r) tok)
        = reported_occurrences (defined_shorts_of acronym_defs)
            (content_from false entries) tok).
Proof.
  intros r.
  assert (excerpt_lines (section1_excerpts r) = excerpt_lines (undefined_grouped r)) as Hl.
  { unfold section1_excerpts, excerpt_lines. rewrite map_map. f_equal.
    apply map_ext. intros [tok occs]. cbn [snd]. by rewrite length_map. }
  assert ((section1_excerpts r).*1 = (undefined_grouped r).*1) as Hk.
  { unfold section1_excerpts. rewrite <- list_fmap_compose.
    apply list_fmap_ext. by intros _ [tok occs] _. }
  split_and!.
  - rewrite Hl, undefined_grouped_events, group_into_lines, length_fmap. done.
  - rewrite Hk, undefined_grouped_events. apply group_into_NoDup. constructor.
  - unfold section1_excerpts. rewrite Forall_map. apply Forall_forall.
    intros [tok occs] Hin. cbn [snd]. rewrite length_map.
    subst r. rewrite undefined_grouped_filed in Hin.
    apply filed_keys in Hin as (Hne & v & _ & Heq). cbn [fst snd] in *.
    destruct (Nat.leb_spec 2 (length v)); [by rewrite Heq | done].
  - apply undefined_grouped_get.
Qed.

Section Origin.
Context {Path : Type}.
Implicit Types (entries : list (@entry Path)) (defs : list (str * @acronym_def Path)).

(** Where an extracted definition comes from. *)
Lemma extract_defined_acronyms_origin entries key data :
  dict_get (extract_defined_acronyms entries) key = Some data ->
  exists e sh fu,
    e ∈ entries
    /\ occurs_in (newacronym_command key sh fu) e.2
    /\ brace_free key /\ brace_free sh /\ brace_free fu
    /\ data = AcronymDef (Py.strip sh) (Py.strip fu) e.1.1 e.1.2.
Proof.
  induction entries as [|e entries IH] using rev_ind; [done|].
  rewrite extract_defined_acronyms_step.
  assert (dict_get (extract_defined_acronyms entries) key = Some data ->
          exists e0 sh fu,
            e0 ∈ entries ++ [e]
            /\ occurs_in (newacronym_command key sh fu) e0.2
            /\ brace_free key /\ brace_free sh /\ brace_free fu
            /\ data = AcronymDef (Py.strip sh) (Py.strip fu) e0.1.1 e0.1.2) as IH'.
  { intros (e0 & sh & fu & Hin & Hrest)%IH. exists e0, sh, fu.
    split; [|done]. apply elem_of_app. by left. }
  destruct (search false newacronym_pattern e.2) as [m|] eqn:Hs; [|done].
  destruct (search_newacronym_groups _ _ Hs) as (k1 & s1 & f1 & Hg & Hat & _).
  rewrite Hg. destruct (decide (k1 = key)) as [->|Hne]; [|done].
  intros [= <-]. exists e, s1, f1.
  apply newacronym_at_Some in Hat as ([rest Hd] & Hk & Hsh & Hfu).
  split_and!; try done.
  - apply elem_of_app. right. by left.
  - exists (take (m_start m) e.2), rest. by rewrite <- Hd, take_drop.
Qed.

Lemma undefined_count_lines (r : @report Path) :
  undefined_count r = excerpt_lines (section1_excerpts r).
Proof.
  unfold section1_excerpts, excerpt_lines, undefined_count. rewrite map_map.
  rewrite (map_ext _ (fun g : str * list (@entry Path) => length g.2))
    by (intros [tok occs]; cbn [snd]; by rewrite length_map).
  fold (excerpt_lines (undefined_grouped r)).
  rewrite undefined_grouped_events, group_into_lines, length_fmap. done.
Qed.

Lemma glossary_count_lines entries defs :
  NoDup defs.*1 ->
  glossary_full_form_count defs (scan_acronyms entries defs)
  = excerpt_lines (section2_excerpts defs (scan_acronyms entries defs)).
Proof.
  intros Hnd.
  set (g := fun kv : str * @acronym_def Path =>
              filter (fun e : @entry Path => usage_found (full kv.2) e.2 = true)
                     (content_from false entries)).
  assert (used_full (scan_acronyms entries defs) = filed g defs) as Huf
    by by apply used_full_filed.
  assert (forall kv, kv ∈ defs -> dict_get defs kv.1 = Some kv.2) as Hget.
  { intros [k v] Hin. by apply dict_get_NoDup. }
  destruct (section2_lines_sum g (scan_acronyms entries defs) defs) as [Hlines _].
  { intros [k v] Hin. rewrite Huf, dict_get_filed, (Hget _ Hin) by done. done. }
  unfold glossary_full_form_count. rewrite Huf at 1. rewrite Hlines.
  apply glossary_count_sum. intros kv Hin. apply dict_in_Some.
  rewrite (Hget _ Hin). by eexists.
Qed.
End Origin.

(** X22: every extracted definition comes from a record that holds a
    definition command with the key as first argument: its short and long
    form are the second and third argument of that command, stripped, and
    its location is the file and line number of that record. *)
Theorem definition_comes_from_a_command {Path : Type}
    (entries : list (@entry Path)) (key : str) (data : @acronym_def Path) :
  dict_get (extract_defined_acronyms entries) key = Some data ->
  exists e sh fu,
    e ∈ entries
    /\ occurs_in (newacronym_command key sh fu) e.2
    /\ short data = Py.strip sh
    /\ full data = Py.strip fu
    /\ def_file data = e.1.1
    /\ def_line data = e.1.2
    /\ trimmed (short data) /\ trimmed (full data).
Proof.
  intros (e & sh & fu & Hin & Hocc & _ & _ & _ & ->)%extract_defined_acronyms_origin.
  exists e, sh, fu. cbn [short full def_file def_line].
  split_and!; try done; apply strip_trimmed.
Qed.

Lemma definition_comes_from_a_command_witness :
  exists e sh fu,
    e ∈ redefined_entries
    /\ occurs_in (newacronym_command (txt "vae") sh fu) e.2
    /\ txt "VAEs" = Py.strip sh
    /\ txt "Variational Auto-Encoder" = Py.strip fu
    /\ sample_root (txt "a.tex") = e.1.1
    /\ 7 = e.1.2
    /\ trimmed (txt "VAEs") /\ trimmed (txt "Variational Auto-Encoder").
Proof.
  apply (definition_comes_from_a_command redefined_entries (txt "vae")
           (AcronymDef (txt "VAEs") (txt "Variational Auto-Encoder")
              (sample_root (txt "a.tex")) 7)).
  vm_compute. reflexivity.
Defined.

(** X23: in a run of the program that ends normally, the keys of the
    definitions are distinct; every definition points at a line of a
    readable file of the document tree, and that line holds a definition
    command for its key; and both counts of the summary are the numbers
    of excerpt lines of their sections. *)
Theorem run_is_consistent {Path : Type} `{Countable Path}
    (root_join : str -> Path) (fs : gmap Path file) (fuel : nat)
    (acronym_defs : list (str * @acronym_def Path)) (r : @report Path) :
  main root_join fuel fs = Ok (acronym_defs, r) ->
  NoDup acronym_defs.*1
  /\ (forall key data,
        dict_get acronym_defs key = Some data ->
        exists lines line sh fu,
          fs !! def_file data = Some (Readable lines)
          /\ 1 <= def_line data
          /\ lines !! (def_line data - 1) = Some line
          /\ occurs_in (newacronym_command key sh fu) line
          /\ short data = Py.strip sh /\ full data = Py.strip fu)
  /\ undefined_count r = excerpt_lines (section1_excerpts r)
  /\ glossary_full_form_count acronym_defs r
     = excerpt_lines (section2_excerpts acronym_defs r).
Proof.
  unfold main, main_in.
  destruct (read_latex_recursive root_join fuel fs ENTRY_FILE None)
    as [[entries seen']| |] eqn:Hload; [|done..].
  cbn. intros [= <- <-].
  pose proof (extract_defined_acronyms_NoDup entries) as Hnd.
  apply read_latex_recursive_loaded in Hload.
  split_and!; [done | | apply undefined_count_lines | by apply glossary_count_lines].
  intros key data (e & sh & fu & Hin & Hocc & _ & _ & _ & ->)%extract_defined_acronyms_origin.
  destruct (loaded_record fs _ _ _ e Hload Hin) as (lines & line & Hfs & Hn & Hl & Hs).
  exists lines, line, sh, fu. cbn [short full def_file def_line].
  split_and!; try done.
  rewrite Hs in Hocc. eapply occurs_in_trans; [exact Hocc | apply occurs_in_strip_self].
Qed.

Lemma run_is_consistent_witness :
  main sample_root 2 small_tree = Ok (vae_defs, small_report)
  /\ NoDup vae_defs.*1
  /\ glossary_full_form_count vae_defs small_report
     = excerpt_lines (section2_excerpts vae_defs small_report)
  /\ glossary_full_form_count vae_defs small_report = 2.
Proof.
  assert (main sample_root 2 small_tree = Ok (vae_defs, small_report)) as Hrun
    by (vm_compute; reflexivity).
  split; [exact Hrun|].
  destruct (run_is_consistent sample_root small_tree 2 vae_defs small_report Hrun)
    as (Hnd & _ & _ & Hcount).
  split; [exact Hnd|]. split; [exact Hcount|]. vm_compute. reflexivity.
Defined.

Section DirectiveFacts.
Implicit Types (s pre post cmd name : str) (i n : nat).

Lemma run_alt ic (r1 r2 : re) s (st : mstate) :
  run ic (Alt r1 r2) s st = run ic r1 s st ++ run ic r2 s st.
Proof. by destruct st. Qed.

Lemma match_at_include_none s i :
  match drop i s with x :: _ => x <> "\"%char | [] => True end ->
  match_at false include_pattern s i = None.
Proof.
  intros Hx. unfold match_at, include_pattern. cbn [seqs foldr].
  rewrite run_seq, run_chr. destruct (drop i s) as [|x rest]; [done|].
  cbn [atom_match]. by rewrite bool_decide_eq_false_2.
Qed.

(** A directive with a name between braces is matched where it stands. *)
Lemma match_at_directive s i cmd name rest :
  cmd = txt "input" \/ cmd = txt "include" ->
  brace_free name ->
  drop i s = include_directive cmd name ++ rest ->
  match_at false include_pattern s i
  = Some (MatchObj i (i + length (include_directive cmd name)) [name]).
Proof.
  intros Hcmd Hname Hd.
  assert (length (include_directive cmd name) = length cmd + length name + 3) as Hlen.
  { unfold include_directive. cbn [length]. rewrite length_app. cbn [length].
    rewrite length_app. cbn [length]. lia. }
  rewrite Hlen.
  unfold match_at, include_pattern. cbn [seqs foldr].
  rewrite run_seq, run_chr, Hd. unfold include_directive. cbn [app atom_match].
  rewrite bool_decide_eq_true_2 by done. rewrite bind_singleton, run_seq, run_alt.
  rewrite !run_lit_cs.
  assert (drop (S i) s = cmd ++ "{"%char :: name ++ "}"%char :: rest) as Hd1.
  { apply (drop_S_tail _ _ "\"%char). rewrite Hd. unfold include_directive.
    cbn [app]. f_equal. rewrite <- app_assoc. cbn [app]. by rewrite <- app_assoc. }
  assert (braced (drop (S i + length cmd) s) = Some (name, rest)) as Hb.
  { rewrite <- drop_drop, Hd1, drop_app_length. by apply braced_Some. }
  rewrite Hd1.
  destruct Hcmd as [-> | ->].
  - rewrite startswith_app.
    change (Py.startswith (txt "input" ++ _) (txt "include")) with false.
    rewrite app_nil_r, bind_singleton, run_seq, run_brace_arg, Hb.
    rewrite bind_singleton, run_eps. cbn [length txt list_ascii_of_string].
    do 2 f_equal. lia.
  - rewrite startswith_app.
    change (Py.startswith (txt "include" ++ _) (txt "input")) with false.
    cbn [app]. rewrite bind_singleton, run_seq, run_brace_arg, Hb.
    rewrite bind_singleton, run_eps. cbn [length txt list_ascii_of_string].
    do 2 f_equal. lia.
Qed.

Lemma finditer_from_skip ic (r : re) s n i k :
  k <= n ->
  (forall k', k' < k -> match_at ic r s (i + k') = None) ->
  finditer_from ic r s n i = finditer_from ic r s (n - k) (i + k).
Proof.
  revert n i. induction k as [|k IH]; intros n i Hk Hnone.
  - by rewrite Nat.sub_0_r, Nat.add_0_r.
  - destruct n as [|n]; [lia|]. cbn [finditer_from].
    rewrite <- (Nat.add_0_r i) at 1. rewrite Hnone by lia.
    rewrite IH; [by rewrite Nat.add_succ_comm | lia |].
    intros k' Hk'. rewrite Nat.add_succ_comm. apply Hnone. lia.
Qed.

Lemma finditer_from_none_after ic (r : re) s n i :
  (forall k, i <= k -> match_at ic r s k = None) -> finditer_from ic r s n i = [].
Proof.
  revert i. induction n as [|n IH]; intros i Hnone; cbn [finditer_from];
    rewrite Hnone by lia; [done|]. apply IH. intros k Hk. apply Hnone. lia.
Qed.

End DirectiveFacts.

(** X26: the attempt to shorten a long sentence never loses the target:
    a sentence of at most 400 characters is returned as it is; whatever
    is returned is a part of the sentence, and it holds the target
    whenever the sentence does. *)
Theorem narrowing_keeps_the_target (sentence target_text : str)
    (target_pos sentence_start : Z) :
  let narrowed := Sentence.narrow sentence target_text target_pos sentence_start in
  (length sentence <= 400 -> narrowed = sentence)
  /\ occurs_in narrowed sentence
  /\ (Py.contains sentence target_text = true ->
      Py.contains narrowed target_text = true).
Proof.
  cbv zeta. split_and!.
  - intros Hlen. unfold Sentence.narrow, Py.len.
    by destruct (Z.ltb_spec 400 (Z.of_nat (length sentence))); [lia|].
  - destruct (narrow_cases sentence target_text target_pos sentence_start)
      as [->|(_ & _ & _ & a & b & ->)]; [apply occurs_in_refl|].
    apply strip_slice_occurs.
  - intros Hc.
    by destruct (narrow_cases sentence target_text target_pos sentence_start)
      as [->|(_ & Hn & _)].
Qed.

Section DirectiveMore.
Implicit Types (s pre post cmd name t : str) (i n k : nat).

Lemma startswith_contains s t k :
  Py.startswith (drop k s) t = true -> Py.contains s t = true.
Proof.
  intros Hsw%startswith_take. apply contains_spec.
  exists (take k s), (drop (length t) (drop k s)).
  rewrite <- Hsw at 1. by rewrite take_drop, take_drop.
Qed.

(** Where the pattern of the directive matches, the text starts with
    [\input{] or [\include{]. *)
Lemma match_at_include_starts s k m :
  match_at false include_pattern s k = Some m ->
  Py.startswith (drop k s) (txt "\input{") = true
  \/ Py.startswith (drop k s) (txt "\include{") = true.
Proof.
  intros Hm. assert (is_Some (match_at false include_pattern s k)) as Hsome by by eexists.
  apply is_Some_match_at in Hsome. clear Hm. revert Hsome.
  unfold include_pattern. cbn [seqs foldr].
  rewrite run_seq, run_chr.
  destruct (drop k s) as [|c rest] eqn:Hd; [done|].
  cbn [atom_match]. destruct (decide (c = "\"%char)) as [->|Hne];
    [rewrite bool_decide_eq_true_2 by done
    |by rewrite bool_decide_eq_false_2 by done].
  rewrite bind_singleton, run_seq, run_alt, !run_lit_cs, (drop_S_tail _ _ _ _ Hd).
  rewrite bind_app.
  change (txt "\input{") with ("\"%char :: txt "input" ++ ["{"%char]).
  change (txt "\include{") with ("\"%char :: txt "include" ++ ["{"%char]).
  cbn [Py.startswith]. destruct (decide ("\"%char = "\"%char)); [|done].
  rewrite !startswith_snoc.
  assert (forall j a r, braced (drop (S k + j) s) = Some (a, r) ->
                        head (drop j rest) = Some "{"%char) as Hbr.
  { intros j a r [Hb _]%braced_Some.
    rewrite <- drop_drop, (drop_S_tail _ _ _ _ Hd) in Hb. by rewrite Hb. }
  intros Hne.
  destruct (Py.startswith rest (txt "input")) eqn:H1.
  - destruct (braced (drop (S k + length (txt "input")) s)) as [[a r]|] eqn:Hb1.
    + left. apply Hbr in Hb1. by rewrite Hb1, bool_decide_eq_true_2.
    + rewrite bind_singleton, run_seq, run_brace_arg, Hb1 in Hne. cbn [app mbind] in Hne.
      destruct (Py.startswith rest (txt "include")) eqn:H2; [|done].
      rewrite bind_singleton, run_seq, run_brace_arg in Hne.
      destruct (braced (drop (S k + length (txt "include")) s)) as [[a r]|] eqn:Hb2;
        [|done].
      right. apply Hbr in Hb2. by rewrite Hb2, bool_decide_eq_true_2.
  - cbn [app mbind list_bind] in Hne.
    destruct (Py.startswith rest (txt "include")) eqn:H2; [|done].
    rewrite bind_singleton, run_seq, run_brace_arg in Hne.
    destruct (braced (drop (S k + length (txt "include")) s)) as [[a r]|] eqn:Hb2;
      [|done].
    right. apply Hbr in Hb2. by rewrite Hb2, bool_decide_eq_true_2.
Qed.

Lemma no_directive_no_match s k :
  no_directive s -> match_at false include_pattern s k = None.
Proof.
  intros [Hin Hinc]. destruct (match_at false include_pattern s k) as [m|] eqn:Hm; [|done].
  apply match_at_include_starts in Hm as [Hsw%startswith_contains|Hsw%startswith_contains];
    congruence.
Qed.

(** No directive is read on a line in which neither [\input{] nor
    [\include{] occurs. *)
Lemma findall_no_directive line :
  no_directive line -> findall1 false include_pattern line = [].
Proof.
  intros Hno. unfold findall1, finditer. rewrite finditer_from_none; [done|].
  intros k. by apply no_directive_no_match.
Qed.

(** An occurrence that starts before a character the target cannot hold
    after its first place lies before that character. *)
Lemma startswith_before (c : ascii) (a r t : str) :
  (c ∉ t) -> Py.startswith (a ++ c :: r) t = true -> Py.startswith a t = true.
Proof.
  revert t. induction a as [|y a IH]; intros t Hc.
  - destruct t as [|x t]; [done|]. cbn [app Py.startswith].
    destruct (decide (x = c)) as [->|Hne]; [|done]. destruct Hc. left.
  - destruct t as [|x t]; [done|]. cbn [app Py.startswith].
    destruct (decide (x = y)); [|done]. apply IH. intros Hin. apply Hc. by right.
Qed.

Lemma no_match_before_directive pre rest k :
  no_directive pre -> k < length pre ->
  match_at false include_pattern (pre ++ "\"%char :: rest) k = None.
Proof.
  intros [Hin Hinc] Hk.
  destruct (match_at false include_pattern (pre ++ "\"%char :: rest) k) as [m|] eqn:Hm;
    [|done].
  apply match_at_include_starts in Hm.
  rewrite drop_app_le in Hm by lia.
  destruct (drop k pre) as [|y a] eqn:Hd.
  { apply (f_equal length) in Hd. rewrite length_drop in Hd. cbn in Hd. lia. }
  assert (forall t', ("\"%char ∉ t') ->
            Py.startswith ((y :: a) ++ "\"%char :: rest) ("\"%char :: t') = true ->
            Py.startswith (drop k pre) ("\"%char :: t') = true) as Hback.
  { intros t' Ht'. rewrite Hd. cbn [app Py.startswith].
    destruct (decide ("\"%char = y)); [|done]. by apply startswith_before. }
  destruct Hm as [Hm|Hm].
  - apply (Hback (txt "input{")) in Hm;
      [|apply (bool_decide_unpack _); vm_compute; reflexivity].
    apply startswith_contains in Hm.
    change ("\"%char :: txt "input{") with (txt "\input{") in Hm. congruence.
  - apply (Hback (txt "include{")) in Hm;
      [|apply (bool_decide_unpack _); vm_compute; reflexivity].
    apply startswith_contains in Hm.
    change ("\"%char :: txt "include{") with (txt "\include{") in Hm. congruence.
Qed.

(** The directives read on a line that holds one directive and no
    other. *)
Lemma findall_one_directive pre cmd name post :
  cmd = txt "input" \/ cmd = txt "include" ->
  brace_free name ->
  no_directive pre -> no_directive post ->
  findall1 false include_pattern (pre ++ include_directive cmd name ++ post) = [name].
Proof.
  intros Hcmd Hname Hpre Hpost. unfold findall1, finditer.
  set (s := pre ++ include_directive cmd name ++ post).
  assert (length s = length pre + length (include_directive cmd name) + length post)
    as Hlen by (unfold s; rewrite !length_app; lia).
  assert (0 < length (include_directive cmd name)) as Hpos by (cbn; lia).
  assert (forall k', k' < length pre -> match_at false include_pattern s (0 + k') = None)
    as Hskip.
  { intros k' Hk'. cbn [Nat.add]. unfold s, include_directive. cbn [app].
    by apply no_match_before_directive. }
  rewrite (finditer_from_skip _ _ _ _ _ (length pre)) by (done || lia).
  cbn [Nat.add].
  assert (match_at false include_pattern s (length pre)
          = Some (MatchObj (length pre)
                    (length pre + length (include_directive cmd name)) [name])) as Hm.
  { apply (match_at_directive _ _ _ _ post); [done..|]. unfold s.
    by rewrite drop_app_length. }
  destruct (length s - length pre) as [|n] eqn:Hn; [lia|].
  cbn [finditer_from]. rewrite Hm. cbn [m_end fmap list_fmap m_groups head default].
  rewrite finditer_from_none_after; [done|].
  intros k Hk.
  destruct (match_at false include_pattern s k) as [m|] eqn:Hk'; [|done].
  apply match_at_include_starts in Hk'. unfold s in Hk'.
  rewrite app_assoc, drop_app_ge in Hk' by (rewrite length_app; lia).
  destruct Hpost as [Hin Hinc].
  destruct Hk' as [Hsw%startswith_contains|Hsw%startswith_contains]; congruence.
Qed.
End DirectiveMore.

Section Splice.
Context {Path : Type} `{Countable Path}.
Variable root_join : str -> Path.
Variable fs : gmap Path file.
Implicit Types (rec : str -> gset Path -> outcome (list (@entry Path) * gset Path)).

Lemma load_lines_no_directive rec path i (lines : list str) (seen : gset Path) :
  Forall no_directive lines ->
  load_lines rec path i lines seen = Ok (file_records path i lines, seen).
Proof.
  intros Hplain. revert i. induction Hplain as [|l lines Hl _ IH]; intros i; [done|].
  cbn [load_lines file_records]. rewrite (findall_no_directive l Hl).
  cbn [load_includes]. cbn. by rewrite IH.
Qed.

Lemma load_lines_no_directive_app rec path i (before rest : list str) (seen : gset Path) :
  Forall no_directive before ->
  load_lines rec path i (before ++ rest) seen
  = '(es, seen') ← load_lines rec path (i + length before) rest seen;
    Ok (file_records path i before ++ es, seen').
Proof.
  intros Hplain. revert i. induction Hplain as [|l before Hl _ IH]; intros i.
  - cbn [app length file_records]. rewrite Nat.add_0_r.
    by destruct (load_lines rec path i rest seen) as [[es seen']| |].
  - cbn [app load_lines file_records length]. rewrite (findall_no_directive l Hl).
    cbn [load_includes]. cbn [mbind outcome_bind]. rewrite IH.
    change (S i + length before) with (S (i + length before)).
    rewrite Nat.add_succ_r.
    by destruct (load_lines rec path (S (i + length before)) rest seen)
      as [[es seen']| |].
Qed.

(** A file with one directive, naming a file without directives: the
    records of the named file stand right after the record of the line
    that names it. *)
Lemma read_latex_from_splice fuel filename (seen : gset Path)
    (before after inc_lines : list str) (line pre post cmd name : str) :
  fs !! root_join filename = Some (Readable (before ++ line :: after)) ->
  fs !! root_join (include_target name) = Some (Readable inc_lines) ->
  (root_join filename ∉ seen) -> (root_join (include_target name) ∉ seen) ->
  root_join (include_target name) <> root_join filename ->
  line = pre ++ include_directive cmd name ++ post ->
  cmd = txt "input" \/ cmd = txt "include" ->
  brace_free name -> no_directive pre -> no_directive post ->
  Forall no_directive before ->
  Forall no_directive after ->
  Forall no_directive inc_lines ->
  read_latex_from root_join (S (S fuel)) fs filename seen
  = Ok (file_records (root_join filename) 1 before
        ++ (root_join filename, S (length before), Py.strip line)
           :: file_records (root_join (include_target name)) 1 inc_lines
        ++ file_records (root_join filename) (S (S (length before))) after,
        {[root_join (include_target name)]} ∪ ({[root_join filename]} ∪ seen)).
Proof.
  intros Hfs Hinc Hseen Hseen' Hne -> Hcmd Hname Hpre Hpost Hbefore Hafter Hlines.
  set (line := pre ++ include_directive cmd name ++ post).
  cbn [read_latex_from]. rewrite Hfs.
  rewrite (bool_decide_eq_false_2 (root_join filename ∈ seen)) by done.
  rewrite (bool_decide_eq_true_2 (is_Some (Some _))) by done. cbn [orb negb].
  rewrite load_lines_no_directive_app by done. cbn [load_lines Nat.add].
  unfold line at 1. rewrite findall_one_directive by done.
  cbn [load_includes]. rewrite Hinc.
  rewrite (bool_decide_eq_false_2 (_ ∈ {[root_join filename]} ∪ seen));
    [|intros [Hin%elem_of_singleton|Hin]%elem_of_union; done].
  rewrite (bool_decide_eq_true_2 (is_Some (Some _))) by done. cbn [orb negb].
  rewrite load_lines_no_directive by done. cbn [mbind outcome_bind].
  rewrite load_lines_no_directive by done. cbn [mbind outcome_bind].
  by rewrite app_nil_r.
Qed.
End Splice.

(** X25: a line that holds one inclusion directive, [\input] or
    [\include] with a non-empty name, and around it no other one (neither
    [\input{] nor [\include{] occurs before or after it, other commands
    may), names exactly that one file.  When no other line of the
    including file holds a directive and the named file, which is another
    file of the tree, holds none, the load is the including file's
    records with the named file's records set in right after the record
    of the line that names it. *)
Theorem included_file_is_spliced_in {Path : Type} `{Countable Path}
    (root_join : str -> Path) (fs : gmap Path file) (fuel : nat) (filename : str)
    (before after inc_lines : list str) (pre post cmd name : str) :
  let line := pre ++ include_directive cmd name ++ post in
  let path := root_join filename in
  let inc_path := root_join (include_target name) in
  fs !! path = Some (Readable (before ++ line :: after)) ->
  fs !! inc_path = Some (Readable inc_lines) ->
  inc_path <> path ->
  cmd = txt "input" \/ cmd = txt "include" ->
  brace_free name -> no_directive pre -> no_directive post ->
  Forall no_directive before ->
  Forall no_directive after ->
  Forall no_directive inc_lines ->
  findall1 false include_pattern line = [name]
  /\ fst <$> read_latex_recursive root_join (S (S fuel)) fs filename None
     = Ok (file_records path 1 before
           ++ (path, S (length before), Py.strip line)
              :: file_records inc_path 1 inc_lines
           ++ file_records path (S (S (length before))) after).
Proof.
  intros line path inc_path Hfs Hinc Hne Hcmd Hname Hpre Hpost Hbefore Hafter Hlines.
  split; [by apply findall_one_directive|].
  unfold read_latex_recursive.
  by rewrite (read_latex_from_splice root_join fs fuel filename ∅ before after inc_lines
                line pre post cmd name).
Qed.

Lemma included_file_is_spliced_in_witness :
  findall1 false include_pattern (txt "\emph{see} \include{ part } and \cite{x}" ++ nl)
  = [txt " part "]
  /\ fst <$> read_latex_recursive sample_root 2 including_tree (txt "main.tex") None
     = Ok [(sample_root (txt "main.tex"), 1, txt "\section{First}");
           (sample_root (txt "main.tex"), 2, txt "\emph{see} \include{ part } and \cite{x}");
           (sample_root (txt "part.tex"), 1, txt "\subsection{One}");
           (sample_root (txt "part.tex"), 2, txt "two");
           (sample_root (txt "main.tex"), 3, txt "last")].
Proof.
  apply (included_file_is_spliced_in sample_root including_tree 0 (txt "main.tex")
           [txt "\section{First}" ++ nl] [txt "last" ++ nl]
           [txt " \subsection{One}" ++ nl; txt "two" ++ nl]
           (txt "\emph{see} ") (txt " and \cite{x}" ++ nl) (txt "include") (txt " part ")).
  - vm_compute. reflexivity.
  - vm_compute. reflexivity.
  - vm_compute. discriminate.
  - by right.
  - split; [done | apply (bool_decide_unpack _); vm_compute; reflexivity].
  - split; vm_compute; reflexivity.
  - split; vm_compute; reflexivity.
  - repeat constructor; vm_compute; reflexivity.
  - repeat constructor; vm_compute; reflexivity.
  - repeat constructor; vm_compute; reflexivity.
Defined.

Section TwoRuns.
Context {Path : Type}.
Implicit Types (entries content : list (@entry Path)).
Implicit Types (defs : list (str * @acronym_def Path)).
Implicit Types (set_order : str -> gset str -> list str).

Lemma reversed_order_traverses_once : traverses_once reversed_order.
Proof. intros tok forms. unfold reversed_order. apply reverse_Permutation. Qed.

Lemma inconsistent_block_in_perm set_order1 set_order2 content (kv : str * gset str) :
  traverses_once set_order1 -> traverses_once set_order2 ->
  inconsistent_block_in set_order1 content kv
  ≡ₚ inconsistent_block_in set_order2 content kv.
Proof.
  intros H1 H2. unfold inconsistent_block_in.
  by rewrite (H1 kv.1 kv.2), (H2 kv.1 kv.2).
Qed.

(** Two tables filed from item lists that are the same up to order have
    the same keys. *)
Lemma filed_keys_perm {K V X} (g1 g2 : K * V -> list X) (d : list (K * V)) :
  (forall kv, g1 kv ≡ₚ g2 kv) -> (filed g1 d).*1 = (filed g2 d).*1.
Proof.
  intros Hg. induction d as [|kv d IH]; [done|]. rewrite !filed_cons.
  pose proof (Hg kv) as Hkv.
  destruct (g1 kv) as [|x1 l1], (g2 kv) as [|x2 l2].
  - done.
  - by apply Permutation_nil_cons in Hkv.
  - symmetry in Hkv. by apply Permutation_nil_cons in Hkv.
  - rewrite !fmap_cons. cbn [fst]. by rewrite IH.
Qed.

(** What the order of traversal leaves as it is. *)
Lemma scan_same_up_to_set_order set_order1 set_order2 entries defs :
  traverses_once set_order1 -> traverses_once set_order2 ->
  same_up_to_set_order (scan_acronyms_in set_order1 entries defs)
                       (scan_acronyms_in set_order2 entries defs).
Proof.
  intros H1 H2.
  destruct (scan_acronyms_in_fields set_order1 entries defs) as (E1 & E2 & E3 & E4 & _).
  destruct (scan_acronyms_in_fields set_order2 entries defs) as (F1 & F2 & F3 & F4 & _).
  pose proof (undefined_full_forms_NoDup entries defs) as Hnd.
  unfold same_up_to_set_order.
  rewrite E1, E2, E3, E4, F1, F2, F3, F4, !inconsistent_usage_filed.
  split_and!; try done.
  - apply filed_keys_perm. intros kv. by apply inconsistent_block_in_perm.
  - intros tok. rewrite !dict_get_filed by done.
    destruct (dict_get _ tok) as [forms|]; [|done].
    by apply inconsistent_block_in_perm.
  - intros tok full_form. rewrite !dict_get_filed by done.
    destruct (dict_get _ tok) as [forms|]; [|done].
    by rewrite !filter_inconsistent_block_in.
Qed.
End TwoRuns.

Section TwoRunsOfMain.
Context {Path : Type} `{Countable Path}.
Variable root_join : str -> Path.
Variable fs : gmap Path file.

Lemma main_in_load (set_order : str -> gset str -> list str) fuel :
  main_in root_join set_order fuel fs
  = match read_latex_recursive root_join fuel fs ENTRY_FILE None with
    | Ok (entries, _) =>
        Ok (extract_defined_acronyms entries,
            scan_acronyms_in set_order entries (extract_defined_acronyms entries))
    | Raise => Raise
    | OutOfFuel => OutOfFuel
    end.
Proof.
  unfold main_in. by destruct (read_latex_recursive _ _ _ _ _) as [[es seen]| |].
Qed.

Lemma read_latex_recursive_ends fuel filename :
  size fs < fuel -> read_latex_recursive root_join fuel fs filename None <> OutOfFuel.
Proof.
  intros Hfuel Hr. unfold read_latex_recursive in Hr.
  pose proof (read_latex_from_ends_well root_join fs fuel filename ∅) as Hw.
  unfold ends_well, unread in Hw. rewrite difference_empty_L, size_dom, Hr in Hw.
  by apply Hw.
Qed.
End TwoRunsOfMain.

(** C9, as the code has it: two runs on an unchanged document tree start
    each from an empty visited set and end, whatever recursion budget
    above the number of files they have, with the same definitions and
    with reports that agree in everything but the order in which the
    records of inconsistent usage of a token follow each other across its
    long forms: that order is the order in which the run traverses a set,
    which is not fixed by the document.  The tokens, the records under
    each token, and the order of the records of one long form are the
    same in both runs; a run with the same traversal order gives the same
    result whatever its budget. *)
Theorem analysis_deterministic_up_to_set_order {Path : Type} `{Countable Path}
    (root_join : str -> Path) (fs : gmap Path file) (fuel1 fuel2 : nat)
    (set_order1 set_order2 : str -> gset str -> list str) :
  size fs < fuel1 -> size fs < fuel2 ->
  traverses_once set_order1 -> traverses_once set_order2 ->
  main_in root_join set_order1 fuel1 fs <> OutOfFuel
  /\ main_in root_join set_order1 fuel1 fs = main_in root_join set_order1 fuel2 fs
  /\ match main_in root_join set_order1 fuel1 fs,
           main_in root_join set_order2 fuel2 fs with
     | Ok (defs1, r1), Ok (defs2, r2) => defs1 = defs2 /\ same_up_to_set_order r1 r2
     | Raise, Raise => True
     | _, _ => False
     end.
Proof.
  intros Hf1 Hf2 Ho1 Ho2. rewrite !main_in_load.
  rewrite <- (read_latex_recursive_fuel root_join fs fuel1 fuel2 ENTRY_FILE Hf1 Hf2).
  pose proof (read_latex_recursive_ends root_join fs fuel1 ENTRY_FILE Hf1) as Hends.
  destruct (read_latex_recursive root_join fuel1 fs ENTRY_FILE None)
    as [[entries seen]| |]; [|done..].
  split_and!; [done..|]. by apply scan_same_up_to_set_order.
Qed.

Lemma analysis_deterministic_up_to_set_order_witness :
  size two_forms_tree < 2 /\ size two_forms_tree < 5
  /\ traverses_once canonical_order /\ traverses_once reversed_order
  /\ match main_in sample_root canonical_order 2 two_forms_tree,
           main_in sample_root reversed_order 5 two_forms_tree with
     | Ok (defs1, r1), Ok (defs2, r2) => defs1 = defs2 /\ same_up_to_set_order r1 r2
     | Raise, Raise => True
     | _, _ => False
     end.
Proof.
  assert (size two_forms_tree < 2) as H2
    by (unfold two_forms_tree;
        rewrite map_size_insert_None, map_size_empty by apply lookup_empty; lia).
  assert (size two_forms_tree < 5) as H5 by lia.
  split; [exact H2|]. split; [exact H5|].
  split; [exact canonical_order_traverses_once|].
  split; [exact reversed_order_traverses_once|].
  exact (proj2 (proj2 (analysis_deterministic_up_to_set_order sample_root two_forms_tree
                         2 5 canonical_order reversed_order H2 H5
                         canonical_order_traverses_once reversed_order_traverses_once))).
Defined.

(** C9, as stated, fails: on one unchanged document tree, a run that
    traverses the two long forms of AIT in one order and a run that
    traverses them in the other file the two records of inconsistent
    usage in different orders, so the two reports are not identical. *)
Lemma set_order_changes_the_report :
  (fun r => inconsistent_usage r.2)
    <$> main_in sample_root canonical_order 2 two_forms_tree
  = Ok [(txt "AIT",
         [(sample_root (txt "main.tex"), 4,
           txt "The Austrian Institute of Technology is large.",
           txt "Austrian Institute of Technology");
          (sample_root (txt "main.tex"), 5,
           txt "The Applied Imaging Team is small.",
           txt "Applied Imaging Team")])]
  /\ (fun r => inconsistent_usage r.2)
       <$> main_in sample_root reversed_order 2 two_forms_tree
     = Ok [(txt "AIT",
            [(sample_root (txt "main.tex"), 5,
              txt "The Applied Imaging Team is small.",
              txt "Applied Imaging Team");
             (sample_root (txt "main.tex"), 4,
              txt "The Austrian Institute of Technology is large.",
              txt "Austrian Institute of Technology")])]
  /\ main_in sample_root canonical_order 2 two_forms_tree
     <> main_in sample_root reversed_order 2 two_forms_tree.
Proof.
  assert ((fun r => inconsistent_usage r.2)
            <$> main_in sample_root canonical_order 2 two_forms_tree
          = Ok [(txt "AIT",
                 [(sample_root (txt "main.tex"), 4,
                   txt "The Austrian Institute of Technology is large.",
                   txt "Austrian Institute of Technology");
                  (sample_root (txt "main.tex"), 5,
                   txt "The Applied Imaging Team is small.",
                   txt "Applied Imaging Team")])]) as H1 by (vm_compute; reflexivity).
  assert ((fun r => inconsistent_usage r.2)
            <$> main_in sample_root reversed_order 2 two_forms_tree
          = Ok [(txt "AIT",
                 [(sample_root (txt "main.tex"), 5,
                   txt "The Applied Imaging Team is small.",
                   txt "Applied Imaging Team");
                  (sample_root (txt "main.tex"), 4,
                   txt "The Austrian Institute of Technology is large.",
                   txt "Austrian Institute of Technology")])]) as H2 by (vm_compute; reflexivity).
  split; [exact H1|]. split; [exact H2|].
  intros Heq. rewrite Heq, H2 in H1. discriminate H1.
Qed.
